(** * Orchestration core of the voice-translation pipeline

    A shallow embedding of the orchestration layer of the repository
    (language detection fallback, translation routing, capture session,
    timeout handler, assistant pipeline, offline recogniser) together with
    the properties its specification states about it.

    Conventions.
    - A Python [str] is a list of Unicode code points ([list N]).
    - A Python call that may raise is a value of [outcome]: [Return v] or
      [Raise msg]; [try]/[except Exception] is [try_except].
    - External engines (network translator, FastText, Vosk, Piper, the LLM)
      are functions or oracles supplied by the environment; the embedding
      fixes nothing about what they compute. *)

From Stdlib Require Import String Ascii ZArith NArith List Bool Lia.
From stdpp Require Import base decidable option list gmap sorting.
Import ListNotations.

Local Open Scope N_scope.

(* ===================================================================== *)
(** ** Python values shared by all modules *)
(* ===================================================================== *)

Module Py.

(** Result of a call that may raise. *)
Inductive outcome (A : Type) : Type :=
| Return (a : A)
| Raise (e : list N).
Arguments Return {A} a.
Arguments Raise {A} e.

(** A literal: the code points of an ASCII string. *)
Definition py (s : string) : list N :=
  List.map N_of_ascii (list_ascii_of_string s).

(** Truth value of a [str]: non-empty. *)
Definition truthy (s : list N) : bool :=
  match s with [] => false | _ :: _ => true end.

(** [str.isspace] on one character: the code points whose bidirectional
    class is WS, B or S, or whose category is Zs. *)
Definition isspace (c : N) : bool :=
  ((9 <=? c) && (c <=? 13)) || ((28 <=? c) && (c <=? 32))
  || (c =? 133) || (c =? 160) || (c =? 5760)
  || ((8192 <=? c) && (c <=? 8202))
  || (c =? 8232) || (c =? 8233) || (c =? 8239) || (c =? 8287)
  || (c =? 12288).

Fixpoint lstrip (s : list N) : list N :=
  match s with
  | [] => []
  | c :: s' => if isspace c then lstrip s' else s
  end.

(** [str.strip()] *)
Definition strip (s : list N) : list N :=
  rev (lstrip (rev (lstrip s))).

(** The guard [not text or not text.strip()]. *)
Definition blank (text : list N) : bool :=
  negb (truthy text) || negb (truthy (strip text)).

(** [str.split()]: maximal runs of non-whitespace characters. [cur] is the
    word being read, newest character first. *)
Fixpoint split_go (cur : list N) (s : list N) : list (list N) :=
  match s with
  | [] => if truthy cur then [rev cur] else []
  | c :: s' =>
      if isspace c
      then (if truthy cur then rev cur :: split_go [] s' else split_go [] s')
      else split_go (c :: cur) s'
  end.

Definition split (s : list N) : list (list N) := split_go [] s.

Fixpoint starts_with (p s : list N) : bool :=
  match p, s with
  | [], _ => true
  | _ :: _, [] => false
  | a :: p', b :: s' => (a =? b) && starts_with p' s'
  end.

(** [s.replace(old, new)] for a non-empty [old]: non-overlapping
    occurrences, leftmost first. [skip] counts the characters of a matched
    occurrence that are still to be dropped. *)
Fixpoint replace_go (old new : list N) (skip : nat) (s : list N) : list N :=
  match s with
  | [] => []
  | c :: s' =>
      match skip with
      | S k => replace_go old new k s'
      | O =>
          if starts_with old s
          then new ++ replace_go old new (length old - 1) s'
          else c :: replace_go old new O s'
      end
  end.

Definition replace (old new s : list N) : list N := replace_go old new O s.

(** [x in xs] for a list of strings. *)
Definition mem (x : list N) (xs : list (list N)) : bool :=
  bool_decide (x ∈ xs).

(** [str.lower()] restricted to the Basic Latin block; on a text made of
    ASCII and caseless characters it is what Python computes. The
    detector takes the full Unicode case mapping as a parameter; this
    instance is used to evaluate it on concrete texts. *)
Definition ascii_lower (s : list N) : list N :=
  List.map (fun c => if (65 <=? c) && (c <=? 90) then c + 32 else c) s.

End Py.

Export Py.

(** The three supported codes, the pivot and the [auto] pseudo-code. *)
Definition en : list N := py "en".
Definition tl : list N := py "tl".
Definition ko : list N := py "ko".
Definition auto : list N := py "auto".

(* ===================================================================== *)
(** ** models/language_detector.py *)
(* ===================================================================== *)

Module Detector.

(** [LanguageDetector]: [model] is the loaded FastText model, [None] when
    the library or the model file is unavailable. A model maps a text to
    its best label ([predictions[0][0]]) or raises. *)
Record LanguageDetector := {
  model : option (list N -> outcome (list N))
}.

Definition supported_languages : list (list N) := [en; tl; ko].

Definition lang_mapping (code : list N) : list N :=
  if bool_decide (code = py "fil") then tl
  else if bool_decide (code = py "kor") then ko
  else if bool_decide (code = py "eng") then en
  else code.

Definition filipino_words : list (list N) :=
  List.map py ["ang"; "ng"; "mga"; "sa"; "at"; "ay"; "ko"; "mo"; "po"; "ito"]%string.

(** ['가' <= c <= '힣'] *)
Definition is_hangul (c : N) : bool := (44032 <=? c) && (c <=? 55203).

Section WithLower.

(** [str.lower], the Unicode lower-casing of the Python runtime. *)
Variable str_lower : list N -> list N.

Definition korean_chars (text : list N) : nat :=
  length (List.filter is_hangul text).

(** [sum(word in text.split() for word in filipino_words)]: the number of
    entries of the word list that occur among the words of the text. *)
Definition filipino_count (text : list N) : nat :=
  length (List.filter (fun word => mem word (split text)) filipino_words).

(** The heuristic fallback of [detect], on the text as received.
    [korean_chars / text_len > 0.3] compares the correctly rounded
    quotient with the double nearest to 3/10; rounding is monotone, so
    the test implies [10 * korean_chars > 3 * text_len], and it is
    equivalent to it whenever the text is shorter than 10^15
    characters. The embedding uses the integer comparison. *)
Definition fallback (text0 : list N) : list N :=
  let text := str_lower text0 in
  let korean_chars := korean_chars text in
  let filipino_count := filipino_count text in
  let text_len := Nat.max 1 (length text) in
  if (3 * text_len <? 10 * korean_chars)%nat then ko
  else if (2 <=? filipino_count)%nat then tl
  else en.

Definition detect (self : LanguageDetector) (text : list N) : list N :=
  if blank text then en
  else
    match model self with
    | Some predict =>
        match predict (replace [10] [32] text) with
        | Return label =>
            let lang_code := replace (py "__label__") [] label in
            let lang_code := lang_mapping lang_code in
            if mem lang_code supported_languages then lang_code else en
        | Raise _ => fallback text
        end
    | None => fallback text
    end.

End WithLower.

(** At least two different entries of the word list occur among the words
    of the text. *)
Definition two_listed_words (text : list N) : Prop :=
  exists w1 w2, w1 <> w2 /\ In w1 filipino_words /\ In w2 filipino_words /\
                w1 ∈ split text /\ w2 ∈ split text.

(** The count the specification words describe: the words of the text
    that are entries of the list, repetitions included. *)
Definition words_in_list (text : list N) : nat :=
  length (List.filter (fun w => mem w filipino_words) (split text)).

(** The detector runs its heuristic on this text: it has no model, or its
    model raises on the text. *)
Definition heuristic_only (self : LanguageDetector) (text : list N) : Prop :=
  model self = None \/
  exists predict e, model self = Some predict /\
                    predict (replace [10] [32] text) = Raise e.

End Detector.

(* ===================================================================== *)
(** ** models/translation.py *)
(* ===================================================================== *)

Module Translation.

(** What a call of [translate] does to the translation engines: one event
    per call of the online service and per call of an installed offline
    pair, in the order in which they are made. *)
Inductive Event :=
| OnlineCall (text from_lang to_lang : list N)
| EngineCall (pair_key text : list N).

(** A computation that logs engine calls and returns or raises. *)
Definition M (A : Type) : Type := list Event * outcome A.

Definition ret {A} (a : A) : M A := ([], Return a).

Definition bind {A B} (m : M A) (f : A -> M B) : M B :=
  match m with
  | (l, Return a) => let '(l', r) := f a in (l ++ l', r)
  | (l, Raise e) => (l, Raise e)
  end.

(** [try: m except Exception as e: h e] *)
Definition try_except {A} (m : M A) (h : list N -> M A) : M A :=
  match m with
  | (l, Raise e) => let '(l', r) := h e in (l ++ l', r)
  | (_, Return _) => m
  end.

(** Calling an engine: the call is logged whatever its outcome. *)
Definition call {A} (ev : Event) (r : outcome A) : M A := ([ev], r).

Notation "'let!' x ':=' m 'in' k" := (bind m (fun x => k))
  (at level 10, x name, m at level 100, k at level 200).

Definition events {A} (m : M A) : list Event := fst m.
Definition result {A} (m : M A) : outcome A := snd m.

(** [Translator]: whether ArgosTranslate could be imported, and the
    installed pairs, keyed by ["from-to"]. *)
Record Translator := {
  argos_available : bool;
  translation_pairs : gmap (list N) (list N -> outcome (list N))
}.

(** What [translate] reaches outside the translator: the online service
    behind [_translate_online] and the construction of a
    [LanguageDetector], which may itself raise. *)
Record Env := {
  translate_online : list N -> list N -> list N -> outcome (list N);
  new_detector : outcome Detector.LanguageDetector
}.

Definition supported_languages : list (list N) := [en; tl; ko].

(** [f"{from_code}-{to_code}"] *)
Definition pair_key (from_code to_code : list N) : list N :=
  from_code ++ py "-" ++ to_code.

(** [f"[Translation not available for {src} to {tgt}]"] *)
Definition not_available (src tgt : list N) : list N :=
  py "[Translation not available for " ++ src ++ py " to " ++ tgt ++ py "]".

Definition _get_intermediate_translations (from_code to_code : list N)
  : list (list N * list N) :=
  if negb (mem from_code [en]) && negb (mem to_code [en])
  then [(from_code, en); (en, to_code)]
  else [(from_code, to_code)].

Section WithEnv.

Variable str_lower : list N -> list N.
Variable env : Env.
Variable self : Translator.

(** The loop over the hops: an installed hop is called on the running
    result, a missing one ends the call with the message naming it. *)
Fixpoint run_hops (translations : list (list N * list N)) (result : list N)
  : M (list N) :=
  match translations with
  | [] => ret result
  | (src, tgt) :: rest =>
      match translation_pairs self !! pair_key src tgt with
      | Some f =>
          let! r := call (EngineCall (pair_key src tgt) result) (f result) in
          run_hops rest r
      | None => ret (not_available src tgt)
      end
  end.

(** The body of the offline [try] block; [None] when the block is left
    without a [return]. *)
Definition offline_block (text from_lang to_lang : list N)
  : M (option (list N)) :=
  match translation_pairs self !! pair_key from_lang to_lang with
  | Some f =>
      let! r := call (EngineCall (pair_key from_lang to_lang) text) (f text) in
      ret (Some r)
  | None =>
      let translations := _get_intermediate_translations from_lang to_lang in
      match translations with
      | [] => ret None
      | _ :: _ => let! r := run_hops translations text in ret (Some r)
      end
  end.

(** The source language after the auto-detection block. *)
Definition resolve_source (text from_lang to_lang : list N) : list N :=
  if bool_decide (from_lang = auto) || bool_decide (from_lang = to_lang)
  then
    match new_detector env with
    | Return detector => Detector.detect str_lower detector text
    | Raise _ => en
    end
  else from_lang.

(** The online attempt: [Some] when it returned a non-empty text. *)
Definition online_block (text from_lang to_lang : list N)
  : M (option (list N)) :=
  try_except
    (let! translated := call (OnlineCall text from_lang to_lang)
                             (translate_online env text from_lang to_lang) in
     ret (if truthy translated then Some translated else None))
    (fun _ => ret None).

Definition translate (text from_lang to_lang : list N) (online : bool)
  : M (list N) :=
  if blank text then ret []
  else
    let from_lang := resolve_source text from_lang to_lang in
    if bool_decide (from_lang = to_lang) then ret text
    else
      let! on := (if online then online_block text from_lang to_lang
                  else ret None) in
      match on with
      | Some translated => ret translated
      | None =>
          let! off := (if argos_available self
                       then try_except (offline_block text from_lang to_lang)
                                       (fun _ => ret None)
                       else ret None) in
          match off with
          | Some translated => ret translated
          | None => ret (not_available from_lang to_lang)
          end
      end.

(** [detect_language] *)
Definition detect_language (text : list N) : list N :=
  if blank text then en
  else
    match new_detector env with
    | Return detector => Detector.detect str_lower detector text
    | Raise _ => en
    end.

End WithEnv.

End Translation.

(* ===================================================================== *)
(** ** utils/timeout.py *)
(* ===================================================================== *)

Module Timeout.

Local Open Scope Z_scope.

(** The two handlers a timer can be created for: [_silence_timeout] and
    [_inactivity_timeout]. *)
Inductive Kind := Silence | Inactivity.

Global Instance Kind_eq_dec : EqDecision Kind.
Proof. solve_decision. Defined.

(** A started [threading.Timer]: the handler it runs, the instant at which
    its interval ends, and its [finished] event, set by [cancel()] and by
    the timer itself once it has run. *)
Record Timer := {
  function : Kind;
  expiry : Z;
  finished : bool
}.

(** [TimeoutHandler]; a timer attribute holds the index of the timer object
    in the world's list of timers, a callback is an opaque identifier. *)
Record TimeoutHandler := {
  silence_timeout : Z;
  inactivity_timeout : Z;
  silence_timer : option nat;
  inactivity_timer : option nat;
  on_silence_callback : option nat;
  on_inactivity_callback : option nat
}.

(** One run of a timeout handler: when, which, and the callback it
    invoked ([None] when none was registered). *)
Record Fire := {
  fired_at : Z;
  fired_kind : Kind;
  called : option nat
}.

(** The handler together with the clock, every timer started so far and
    the handler runs so far, oldest first. *)
Record World := {
  now : Z;
  timers : list Timer;
  self : TimeoutHandler;
  log : list Fire
}.

(** [__init__], at instant [t0]. *)
Definition init (t0 silence inactivity : Z) : World :=
  {| now := t0; timers := [];
     self := {| silence_timeout := silence; inactivity_timeout := inactivity;
                silence_timer := None; inactivity_timer := None;
                on_silence_callback := None; on_inactivity_callback := None |};
     log := [] |}.

Definition set_silence_callback (callback : nat) (w : World) : World :=
  let h := self w in
  {| now := now w; timers := timers w; log := log w;
     self := {| silence_timeout := silence_timeout h;
                inactivity_timeout := inactivity_timeout h;
                silence_timer := silence_timer h;
                inactivity_timer := inactivity_timer h;
                on_silence_callback := Some callback;
                on_inactivity_callback := on_inactivity_callback h |} |}.

Definition set_inactivity_callback (callback : nat) (w : World) : World :=
  let h := self w in
  {| now := now w; timers := timers w; log := log w;
     self := {| silence_timeout := silence_timeout h;
                inactivity_timeout := inactivity_timeout h;
                silence_timer := silence_timer h;
                inactivity_timer := inactivity_timer h;
                on_silence_callback := on_silence_callback h;
                on_inactivity_callback := Some callback |} |}.

Definition set_finished (tm : Timer) : Timer :=
  {| function := function tm; expiry := expiry tm; finished := true |}.

(** [timer.cancel()] on the timer object at index [i]. *)
Definition cancel (i : nat) (ts : list Timer) : list Timer :=
  alter set_finished i ts.

(** [if timer: timer.cancel()] *)
Definition cancel_if (ref : option nat) (ts : list Timer) : list Timer :=
  match ref with
  | Some i => cancel i ts
  | None => ts
  end.

Definition reset_silence_timer (w : World) : World :=
  let h := self w in
  let ts := cancel_if (silence_timer h) (timers w) in
  let t := {| function := Silence; expiry := now w + silence_timeout h;
              finished := false |} in
  {| now := now w; timers := ts ++ [t]; log := log w;
     self := {| silence_timeout := silence_timeout h;
                inactivity_timeout := inactivity_timeout h;
                silence_timer := Some (length ts);
                inactivity_timer := inactivity_timer h;
                on_silence_callback := on_silence_callback h;
                on_inactivity_callback := on_inactivity_callback h |} |}.

Definition reset_inactivity_timer (w : World) : World :=
  let h := self w in
  let ts := cancel_if (inactivity_timer h) (timers w) in
  let t := {| function := Inactivity; expiry := now w + inactivity_timeout h;
              finished := false |} in
  {| now := now w; timers := ts ++ [t]; log := log w;
     self := {| silence_timeout := silence_timeout h;
                inactivity_timeout := inactivity_timeout h;
                silence_timer := silence_timer h;
                inactivity_timer := Some (length ts);
                on_silence_callback := on_silence_callback h;
                on_inactivity_callback := on_inactivity_callback h |} |}.

Definition reset_timeout (w : World) : World :=
  reset_inactivity_timer (reset_silence_timer w).

Definition stop (w : World) : World :=
  let h := self w in
  let ts := cancel_if (silence_timer h) (timers w) in
  let ts := cancel_if (inactivity_timer h) ts in
  {| now := now w; timers := ts; log := log w;
     self := {| silence_timeout := silence_timeout h;
                inactivity_timeout := inactivity_timeout h;
                silence_timer := None;
                inactivity_timer := None;
                on_silence_callback := on_silence_callback h;
                on_inactivity_callback := on_inactivity_callback h |} |}.

(** [_silence_timeout] / [_inactivity_timeout], run by timer [tm]. *)
Definition run_handler (h : TimeoutHandler) (tm : Timer) : Fire :=
  {| fired_at := expiry tm; fired_kind := function tm;
     called := match function tm with
               | Silence => on_silence_callback h
               | Inactivity => on_inactivity_callback h
               end |}.

(** A timer runs its handler when its interval ends, unless its
    [finished] event is already set. *)
Definition due (T : Z) (tm : Timer) : bool :=
  negb (finished tm) && (expiry tm <=? T).

Definition earlier (a b : Timer) : Prop := expiry a <= expiry b.

Global Instance earlier_dec a b : Decision (earlier a b).
Proof. unfold earlier. apply _. Defined.

(** The clock moves to [T]: the timers that come due on the way run their
    handlers in the order of their expiry and are finished afterwards. *)
Definition advance (T : Z) (w : World) : World :=
  {| now := Z.max (now w) T;
     timers := List.map (fun tm => if due T tm then set_finished tm else tm)
                        (timers w);
     self := self w;
     log := log w
            ++ List.map (run_handler (self w))
                        (merge_sort earlier (List.filter (due T) (timers w))) |}.

(** Calls of [reset_silence_timer] at the instants [ts], in this order. *)
Fixpoint resets_at (ts : list Z) (w : World) : World :=
  match ts with
  | [] => w
  | t :: ts' => resets_at ts' (reset_silence_timer (advance t w))
  end.

(** Each call is made no earlier than the one before it and before the
    timer armed by that one, [d] after it, has expired. *)
Fixpoint rapid (d t : Z) (ts : list Z) : Prop :=
  match ts with
  | [] => True
  | t' :: ts' => t <= t' /\ t' < t + d /\ rapid d t' ts'
  end.

Definition is_silence (f : Fire) : bool :=
  bool_decide (fired_kind f = Silence).

(** The runs of [_silence_timeout] so far. *)
Definition silence_fires (w : World) : list Fire :=
  List.filter is_silence (log w).

(** Every silence timer that has neither run nor been cancelled is the one
    the handler refers to. *)
Definition wf (w : World) : Prop :=
  forall i tm, timers w !! i = Some tm -> function tm = Silence ->
               finished tm = false -> silence_timer (self w) = Some i.

(** What can happen to a handler: a call of one of its methods, or time
    passing. *)
Inductive Op :=
| SetSilenceCallback (callback : nat)
| SetInactivityCallback (callback : nat)
| ResetTimeout
| ResetSilenceTimer
| ResetInactivityTimer
| Stop
| Wait (until : Z).

Definition run_op (w : World) (op : Op) : World :=
  match op with
  | SetSilenceCallback callback => set_silence_callback callback w
  | SetInactivityCallback callback => set_inactivity_callback callback w
  | ResetTimeout => reset_timeout w
  | ResetSilenceTimer => reset_silence_timer w
  | ResetInactivityTimer => reset_inactivity_timer w
  | Stop => stop w
  | Wait until => advance until w
  end.

(** The handler after [__init__] at [t0] and the operations [ops]. *)
Definition history (t0 silence inactivity : Z) (ops : list Op) : World :=
  fold_left run_op ops (init t0 silence inactivity).

(** No silence timer is pending. *)
Definition quiet (ts : list Timer) : Prop :=
  Forall (fun tm => function tm = Silence -> finished tm = true) ts.

(** The newest timer is a pending silence timer expiring at [t], the
    handler refers to it, and no other silence timer is pending. *)
Definition armed (w : World) (t : Z) : Prop :=
  exists ts0,
    timers w = ts0 ++ [{| function := Silence; expiry := t; finished := false |}]
    /\ quiet ts0 /\ silence_timer (self w) = Some (length ts0).

(** The run of [_silence_timeout] at instant [t]. *)
Definition silence_fire (w : World) (t : Z) : Fire :=
  {| fired_at := t; fired_kind := Silence;
     called := on_silence_callback (self w) |}.

End Timeout.

(* ===================================================================== *)
(** ** services/speech_recognition.py *)
(* ===================================================================== *)

Module Capture.

Local Open Scope Z_scope.

(** A loaded Vosk model and a [KaldiRecognizer] built from one; [serial]
    tells apart the recognizers built over time. *)
Definition Model := nat.

Record Recognizer := {
  of_model : Model;
  serial : nat
}.

(** [callback(text, language, final)], which may raise. *)
Definition Callback := list N -> list N -> bool -> outcome unit.

(** The module globals. [models] keeps the insertion order of the dict.
    [threads] lists the arguments of every recording thread started so
    far and [ended] counts those that have run to their end; the threads
    still running are the difference. *)
Record State := {
  stop_recording : bool;
  is_recording : bool;
  current_recognizer : option Recognizer;
  current_model : option Model;
  current_language : option (list N);
  models : list (list N * Model);
  built : nat;
  threads : list (option Callback * list N);
  ended : nat
}.


(** The globals when the module has been loaded and [load_models] has
    filled [models]. *)
Definition loaded (ms : list (list N * Model)) : State :=
  {| stop_recording := false; is_recording := false;
     current_recognizer := None; current_model := None;
     current_language := None; models := ms; built := O;
     threads := []; ended := O |}.

(** [d[k]] / [k in d] on a dict kept as an association list. *)
Fixpoint dict_get {A} (k : list N) (d : list (list N * A)) : option A :=
  match d with
  | [] => None
  | (k', v) :: d' => if bool_decide (k = k') then Some v else dict_get k d'
  end.

(** [next(iter(d), None)] *)
Definition first_key {A} (d : list (list N * A)) : option (list N) :=
  match d with
  | [] => None
  | (k, _) :: _ => Some k
  end.

Section WithVosk.

(** Whether [KaldiRecognizer(model, RATE)] succeeds. *)
Variable KaldiRecognizer : Model -> outcome unit.

Definition create_recognizer (language : list N) (s : State)
  : outcome (option Recognizer) * State :=
  let chosen :=
    match dict_get language (models s) with
    | Some _ => Some language
    | None =>
        match dict_get en (models s) with
        | Some _ => Some en
        | None => first_key (models s)
        end
    end in
  match chosen with
  | None => (Return None, s)
  | Some language =>
      let s1 := {| stop_recording := stop_recording s;
                   is_recording := is_recording s;
                   current_recognizer := current_recognizer s;
                   current_model := dict_get language (models s);
                   current_language := current_language s;
                   models := models s; built := built s;
                   threads := threads s; ended := ended s |} in
      match dict_get language (models s) with
      | None => (Raise (py "KeyError"), s)
      | Some m =>
          match KaldiRecognizer m with
          | Raise e => (Raise e, s1)
          | Return _ =>
              let r := {| of_model := m; serial := built s |} in
              (Return (Some r),
               {| stop_recording := stop_recording s;
                  is_recording := is_recording s;
                  current_recognizer := Some r;
                  current_model := Some m;
                  current_language := Some language;
                  models := models s; built := S (built s);
                  threads := threads s; ended := ended s |})
          end
      end
  end.

(** The tail of [record_audio]: set the flag and start the thread. *)
Definition start_thread (callback : option Callback) (language : list N)
           (s : State) : State :=
  {| stop_recording := stop_recording s;
     is_recording := true;
     current_recognizer := current_recognizer s;
     current_model := current_model s;
     current_language := current_language s;
     models := models s; built := built s;
     threads := threads s ++ [(callback, language)];
     ended := ended s |}.

Definition clear_stop (s : State) : State :=
  {| stop_recording := false;
     is_recording := is_recording s;
     current_recognizer := current_recognizer s;
     current_model := current_model s;
     current_language := current_language s;
     models := models s; built := built s;
     threads := threads s; ended := ended s |}.

Definition set_recognizer (r : option Recognizer) (s : State) : State :=
  {| stop_recording := stop_recording s;
     is_recording := is_recording s;
     current_recognizer := r;
     current_model := current_model s;
     current_language := current_language s;
     models := models s; built := built s;
     threads := threads s; ended := ended s |}.

Definition record_audio (callback : option Callback) (language : list N)
           (s : State) : outcome bool * State :=
  if is_recording s then (Return false, s)
  else
    let s := clear_stop s in
    if negb (bool_decide (current_language s = Some language))
       || negb (bool_decide (is_Some (current_recognizer s)))
    then
      match create_recognizer language s with
      | (Raise e, s) => (Raise e, s)
      | (Return r, s) =>
          let s := set_recognizer r s in
          match r with
          | None => (Return false, s)
          | Some _ => (Return true, start_thread callback language s)
          end
      end
    else (Return true, start_thread callback language s).

Definition stop_recording_audio (s : State) : bool * State :=
  if is_recording s
  then (true,
        {| stop_recording := true;
           is_recording := is_recording s;
           current_recognizer := current_recognizer s;
           current_model := current_model s;
           current_language := current_language s;
           models := models s; built := built s;
           threads := threads s; ended := ended s |})
  else (false, s).

End WithVosk.

(** What one turn of the loop of [_record_audio_thread] observes:
    - [stop_set]: [stop_recording.is_set()] when the loop condition is
      tested, that is whether [stop_recording_audio] has been called;
    - [read]: whether restarting the stream when it is stopped, reading a
      chunk from it and computing its volume return or raise;
    - [loud]: [volume_norm > 0.01];
    - [clock]: [time.time()], read once per turn;
    - [accept]: [AcceptWaveform(data)]: it raises, or returns false
      ([None]), or returns true with the decoded [Result()], of which only
      the entry ['text'] is kept ([None] when the key is missing). *)
Record Frame := {
  stop_set : bool;
  read : outcome unit;
  loud : bool;
  clock : Z;
  accept : outcome (option (option (list N)))
}.

(** What a recording thread does that its caller can see. *)
Inductive Event :=
| Called (text language : list N) (final : bool)
| Flushed.

(** How the loop is left: by its condition or a [break], by an exception,
    or not within the frames observed. *)
Inductive LoopEnd :=
| Finished (final_result : list N)
| Failed (e : list N)
| StillRunning.

Record ThreadResult := {
  events : list Event;
  raised : option (list N);
  state : State
}.

Section Thread.

Variables silence_timeout inactivity_timeout : Z.
Variable callback : option Callback.
Variable language : list N.

(** [if callback: callback(text, language, final)] *)
Definition emit (text : list N) (final : bool) : list Event * outcome unit :=
  match callback with
  | Some cb => ([Called text language final], cb text language final)
  | None => ([], Return tt)
  end.

(** The silence bookkeeping of one turn: whether the loop breaks, and
    the new [last_audio_time] and [silence_start_time]. *)
Definition silence_check (f : Frame) (last_audio_time : Z)
           (silence_start_time : option Z) : bool * Z * option Z :=
  if loud f then (false, clock f, None)
  else
    let sst := match silence_start_time with
               | None => clock f
               | Some t => t
               end in
    if negb (sst =? 0) && (clock f - sst >? silence_timeout)
    then (true, last_audio_time, Some sst)
    else if clock f - last_audio_time >? inactivity_timeout
    then (true, last_audio_time, Some sst)
    else (false, last_audio_time, Some sst).

Fixpoint loop (frames : list Frame) (last_audio_time : Z)
         (silence_start_time : option Z) (final_result : list N)
  : list Event * LoopEnd :=
  match frames with
  | [] => ([], StillRunning)
  | f :: rest =>
      if stop_set f then ([], Finished final_result)
      else
        match read f with
        | Raise e => ([], Failed e)
        | Return _ =>
            let '(brk, lat, sst) :=
              silence_check f last_audio_time silence_start_time in
            if brk then ([], Finished final_result)
            else
              match accept f with
              | Raise e => ([], Failed e)
              | Return (Some (Some text)) =>
                  if truthy (strip text)
                  then
                    match emit text false with
                    | (evs, Raise e) => (evs, Failed e)
                    | (evs, Return _) =>
                        let '(evs', e) := loop rest lat sst text in
                        (evs ++ evs', e)
                    end
                  else loop rest lat sst final_result
              | Return _ => loop rest lat sst final_result
              end
        end
  end.

(** The [finally] clause, and the end of the thread. *)
Definition finish (s : State) : State :=
  {| stop_recording := stop_recording s;
     is_recording := false;
     current_recognizer := current_recognizer s;
     current_model := current_model s;
     current_language := current_language s;
     models := models s; built := built s;
     threads := threads s; ended := S (ended s) |}.

(** [_record_audio_thread]. [open] is the outcome of [p.open], [t0] the
    clock before the loop, [final] the decoded [FinalResult()] (its
    ['text'] entry). [None] when the loop has not been left after the
    frames given. *)
Definition _record_audio_thread (open : outcome unit) (t0 : Z)
           (frames : list Frame) (final : outcome (option (list N)))
           (s : State) : option ThreadResult :=
  let done evs r := Some {| events := evs; raised := r; state := finish s |} in
  match open with
  | Raise e => done [] (Some e)
  | Return _ =>
      match loop frames t0 None [] with
      | (_, StillRunning) => None
      | (evs, Failed e) => done evs (Some e)
      | (evs, Finished final_result) =>
          match final with
          | Raise e => done (evs ++ [Flushed]) (Some e)
          | Return result =>
              let final_result :=
                match result with
                | Some text =>
                    if truthy (strip text) then text else final_result
                | None => final_result
                end in
              if truthy (strip final_result)
              then
                match emit final_result true with
                | (evs', Raise e) => done (evs ++ [Flushed] ++ evs') (Some e)
                | (evs', Return _) => done (evs ++ [Flushed] ++ evs') None
                end
              else done (evs ++ [Flushed]) None
          end
      end
  end.

(** The texts the recogniser commits over the frames, in their order:
    the non-blank ['text'] entries of the accepted results. *)
Definition committed (frames : list Frame) : list (list N) :=
  omap (fun f => match accept f with
                 | Return (Some (Some text)) =>
                     if truthy (strip text) then Some text else None
                 | _ => None
                 end) frames.

Definition is_final (ev : Event) : bool :=
  match ev with
  | Called _ _ final => final
  | Flushed => false
  end.

End Thread.

(** What a session is expected to deliver: the committed texts as
    intermediate results, in their order, then, after the flush, one
    final result, which is the flushed text, or the last committed text
    when the flushed text is missing or blank, and which is delivered
    only if it is not blank. Without a callback nothing is delivered. *)
Definition partial_calls (callback : option Callback) (language : list N)
           (chunks : list (list N)) : list Event :=
  match callback with
  | Some _ => List.map (fun text => Called text language false) chunks
  | None => []
  end.

Definition final_text (chunks : list (list N)) (flushed : option (list N))
  : list N :=
  match flushed with
  | Some text => if truthy (strip text) then text else List.last chunks []
  | None => List.last chunks []
  end.

Definition final_call (callback : option Callback) (language text : list N)
  : list Event :=
  match callback with
  | Some _ => if truthy (strip text) then [Called text language true] else []
  | None => []
  end.


(** The service as a transition system: calls of [record_audio] and
    [stop_recording_audio], and a running thread reaching its end. *)
Inductive step (K : Model -> outcome unit) : State -> State -> Prop :=
| step_record callback language s r s' :
    record_audio K callback language s = (r, s') -> step K s s'
| step_stop s :
    step K s (snd (stop_recording_audio s))
| step_thread_end s :
    (ended s < length (threads s))%nat -> step K s (finish s).

Inductive reachable (K : Model -> outcome unit) (ms : list (list N * Model))
  : State -> Prop :=
| reach_loaded : reachable K ms (loaded ms)
| reach_step s s' : reachable K ms s -> step K s s' -> reachable K ms s'.

End Capture.

(* ===================================================================== *)
(** ** services/ai_assistant.py *)
(* ===================================================================== *)

Module Assistant.

(** The three collaborators, by what the service calls on them. *)
Record AIAssistant := {
  generate_response : list N -> list N -> outcome (list N)
}.

Record TextToSpeech := {
  speak : list N -> list N -> outcome (list N)
}.

(** The response dict; [error = None] when the key is absent, [audio =
    None] for Python's [None]. *)
Record Response := {
  text : list N;
  audio : option (list N);
  source_language : list N;
  target_language : list N;
  error : option (list N)
}.

(** The module globals. *)
Record Globals := {
  _ai_assistant : option AIAssistant;
  _translator : option Translation.Translator;
  _tts : option TextToSpeech
}.

(** What [initialize] builds or fetches, each step of which may raise, and
    the environment the translator works in. *)
Record Env := {
  new_assistant : outcome AIAssistant;
  get_translator : outcome Translation.Translator;
  get_tts : outcome TextToSpeech;
  translation_env : Translation.Env
}.

Definition error_messages (response_lang : list N) : list N :=
  if bool_decide (response_lang = tl)
  then py "Paumanhin, hindi ko maproseso ang iyong kahilingan."
  else if bool_decide (response_lang = ko)
  then [51396; 49569; 54633; 45768; 45796; 44; 32; 50836; 52397; 51012; 32;
        52376; 47532; 54624; 32; 49688; 32; 50630; 49845; 45768; 45796; 46]
  else py "I'm sorry, I couldn't process your request.".

Section WithEnv.

Variable str_lower : list N -> list N.
Variable env : Env.

Definition initialize (g : Globals) : outcome unit * Globals :=
  match new_assistant env with
  | Raise e => (Raise e, g)
  | Return a =>
      let g := {| _ai_assistant := Some a; _translator := _translator g;
                  _tts := _tts g |} in
      match get_translator env with
      | Raise e => (Raise e, g)
      | Return t =>
          let g := {| _ai_assistant := _ai_assistant g;
                      _translator := Some t; _tts := _tts g |} in
          match get_tts env with
          | Raise e => (Raise e, g)
          | Return s =>
              (Return tt,
               {| _ai_assistant := _ai_assistant g;
                  _translator := _translator g; _tts := Some s |})
          end
      end
  end.

Definition get_ai_assistant (g : Globals)
  : outcome (option AIAssistant) * Globals :=
  match _ai_assistant g with
  | Some a => (Return (Some a), g)
  | None =>
      match initialize g with
      | (Raise e, g) => (Raise e, g)
      | (Return _, g) => (Return (_ai_assistant g), g)
      end
  end.

(** [_translator.translate(text, from_lang=.., to_lang=..)] *)
Definition translate_with (t : Translation.Translator)
           (text from_lang to_lang : list N) : outcome (list N) :=
  Translation.result
    (Translation.translate str_lower (translation_env env) t
                           text from_lang to_lang false).

Definition error_response (e source_lang response_lang : list N) : Response :=
  {| text := error_messages response_lang; audio := None;
     source_language := source_lang; target_language := response_lang;
     error := Some e |}.

(** The [if _tts: try: ... except] block: the new value of
    [audio_data]. *)
Definition synthesize (g : Globals) (translated_response response_lang : list N)
  : option (list N) :=
  match _tts g with
  | Some tts =>
      match speak tts translated_response response_lang with
      | Return a => Some a
      | Raise _ => None
      end
  | None => None
  end.

(** The translation step of [_process_query_sync]. *)
Definition translate_response (g : Globals)
           (english_response response_lang : list N) : outcome (list N) :=
  match _translator g with
  | Some t =>
      if negb (bool_decide (response_lang = en))
      then translate_with t english_response en response_lang
      else Return english_response
  | None => Return english_response
  end.

Definition _process_query_sync (english_query source_lang response_lang : list N)
           (g : Globals) : Response * Globals :=
  match get_ai_assistant g with
  | (Raise e, g) => (error_response e source_lang response_lang, g)
  | (Return None, g) =>
      (error_response (py "'NoneType' object has no attribute 'generate_response'")
                      source_lang response_lang, g)
  | (Return (Some ai_assistant), g) =>
      match generate_response ai_assistant english_query en with
      | Raise e => (error_response e source_lang response_lang, g)
      | Return english_response =>
          match translate_response g english_response response_lang with
          | Raise e => (error_response e source_lang response_lang, g)
          | Return translated_response =>
              ({| text := translated_response;
                  audio := synthesize g translated_response response_lang;
                  source_language := source_lang;
                  target_language := response_lang;
                  error := None |}, g)
          end
      end
  end.

(** [process_query] without a callback. *)
Definition process_query (query_text source_lang response_lang : list N)
           (g : Globals) : outcome Response * Globals :=
  let source_lang :=
    match _translator g with
    | Some t =>
        if bool_decide (source_lang = auto)
        then
          let detected :=
            Translation.detect_language str_lower (translation_env env) query_text in
          if truthy detected then detected else source_lang
        else source_lang
    | None => source_lang
    end in
  let english_query :=
    match _translator g with
    | Some t =>
        if negb (bool_decide (source_lang = en))
        then translate_with t query_text source_lang en
        else Return query_text
    | None => Return query_text
    end in
  match english_query with
  | Raise e => (Raise e, g)
  | Return english_query =>
      let '(r, g) := _process_query_sync english_query source_lang response_lang g in
      (Return r, g)
  end.

End WithEnv.

End Assistant.

(* ===================================================================== *)
(** ** models/speech_recognition.py *)
(* ===================================================================== *)

Module Recognizer.

Definition Model := nat.

(** A [vosk.KaldiRecognizer] as the call sees it, on the audio it is
    given: [AcceptWaveform], and the ['text'] entry of the decoded
    [Result()] and the ['partial'] entry of the decoded
    [PartialResult()] ([None] when the key is missing). Each may raise. *)
Record Kaldi := {
  AcceptWaveform : list N -> outcome bool;
  Result : list N -> outcome (option (list N));
  PartialResult : list N -> outcome (option (list N))
}.

(** [SpeechRecognizer] *)
Record SpeechRecognizer := {
  vosk_available : bool;
  model_paths : gmap (list N) (list N);
  models : gmap (list N) Model;
  recognizers : gmap (list N) Kaldi
}.

(** The file system, the network and the Vosk library: whether a model
    directory exists, whether downloading and unpacking a model succeeds,
    [vosk.Model(path)], [vosk.KaldiRecognizer(model, 16000)] and the
    online recogniser behind [_recognize_online]. Creating the models
    directory is taken to succeed. *)
Record Env := {
  path_exists : list N -> bool;
  fetch : list N -> outcome unit;
  load : list N -> outcome Model;
  new_kaldi : Model -> outcome Kaldi;
  recognize_online : list N -> list N -> outcome (list N)
}.

Definition model_urls : list (list N) := [en; tl; ko].

(** [f"vosk-model-{language}"] under the models directory. *)
Definition model_path (language : list N) : list N :=
  py "vosk_models/vosk-model-" ++ language.

Definition unavailable : list N := py "[Speech recognition unavailable]".
Definition model_not_available : list N :=
  py "[Speech recognition model not available]".
Definition recognition_error : list N := py "[Speech recognition error]".

Section WithEnv.

Variable env : Env.

Definition _load_model (language : list N) (self : SpeechRecognizer)
  : SpeechRecognizer :=
  if negb (vosk_available self) then self
  else
    match model_paths self !! language with
    | None => self
    | Some path =>
        match load env path with
        | Return m =>
            {| vosk_available := vosk_available self;
               model_paths := model_paths self;
               models := <[language := m]> (models self);
               recognizers := recognizers self |}
        | Raise _ => self
        end
    end.

Definition _download_model (language : list N) (self : SpeechRecognizer)
  : SpeechRecognizer :=
  if negb (vosk_available self) then self
  else if negb (mem language model_urls) then self
  else
    let self := {| vosk_available := vosk_available self;
                   model_paths := <[language := model_path language]>
                                    (model_paths self);
                   models := models self;
                   recognizers := recognizers self |} in
    if path_exists env (model_path language) then _load_model language self
    else
      match fetch env language with
      | Return _ => _load_model language self
      | Raise _ => self
      end.

(** [result.get('text', '')] *)
Definition get_default (entry : option (list N)) : list N :=
  match entry with
  | Some t => t
  | None => []
  end.

(** What the call reads off a recogniser: the committed text when the
    waveform is accepted, the partial text otherwise. *)
Definition transcribe (recognizer : Kaldi) (audio_data : list N)
  : outcome (list N) :=
  match AcceptWaveform recognizer audio_data with
  | Raise e => Raise e
  | Return true =>
      match Result recognizer audio_data with
      | Raise e => Raise e
      | Return result => Return (get_default result)
      end
  | Return false =>
      match PartialResult recognizer audio_data with
      | Raise e => Raise e
      | Return partial => Return (get_default partial)
      end
  end.

(** The body of the [try] block of [recognize]. *)
Definition recognize_block (audio_data language : list N)
           (self : SpeechRecognizer) : outcome (list N) * SpeechRecognizer :=
  match recognizers self !! language with
  | Some recognizer => (transcribe recognizer audio_data, self)
  | None =>
      match models self !! language with
      | None => (Raise (py "KeyError"), self)
      | Some m =>
          match new_kaldi env m with
          | Raise e => (Raise e, self)
          | Return recognizer =>
              (transcribe recognizer audio_data,
               {| vosk_available := vosk_available self;
                  model_paths := model_paths self;
                  models := models self;
                  recognizers := <[language := recognizer]> (recognizers self) |})
          end
      end
  end.

(** The block "make sure we have the model for this language": the
    language whose model the call goes on with ([None] when it returns
    the "model not available" message), after the attempt to obtain the
    model asked for. *)
Definition choose_model (language : list N) (self : SpeechRecognizer)
  : SpeechRecognizer * option (list N) :=
  match models self !! language with
  | Some _ => (self, Some language)
  | None =>
      let self := _download_model language self in
      match models self !! language, models self !! en with
      | None, Some _ => (self, Some en)
      | None, None => (self, None)
      | Some _, _ => (self, Some language)
      end
  end.

(** The offline part of [recognize], from the test of [vosk_available]
    on. *)
Definition recognize_offline (audio_data language : list N)
           (self : SpeechRecognizer) : outcome (list N) * SpeechRecognizer :=
  if negb (vosk_available self) then (Return unavailable, self)
  else
    let '(self, chosen) := choose_model language self in
    match chosen with
    | None => (Return model_not_available, self)
    | Some language =>
        match recognize_block audio_data language self with
        | (Raise _, self) => (Return recognition_error, self)
        | (Return t, self) => (Return t, self)
        end
    end.

Definition recognize (audio_data language : list N) (online : bool)
           (self : SpeechRecognizer) : outcome (list N) * SpeechRecognizer :=
  if online
  then
    match recognize_online env audio_data language with
    | Return t => (Return t, self)
    | Raise _ => recognize_offline audio_data language self
    end
  else recognize_offline audio_data language self.

End WithEnv.

End Recognizer.

(* ===================================================================== *)
(** ** models/tts.py *)
(* ===================================================================== *)

Module Tts.

(** [TextToSpeech]: whether the [piper] executable was found, and the
    registered voices, each with the path of its model. *)
Record TextToSpeech := {
  piper_available : bool;
  voices : gmap (list N) (list N)
}.

(** The body of the [try] block of [speak], given the model path and the
    text: it raises, or Piper ends with a non-zero return code ([None]), or
    the audio file is read and encoded. *)
Record Env := {
  run_piper : list N -> list N -> outcome (option (list N))
}.

Definition supported_languages : list (list N) := [en; tl; ko].

Section WithEnv.

Variable env : Env.

Definition speak (text language : list N) (self : TextToSpeech) : list N :=
  if blank text then []
  else
    let language := if mem language supported_languages then language else en in
    if negb (piper_available self) then []
    else
      let chosen :=
        match voices self !! language with
        | Some _ => Some language
        | None =>
            match voices self !! en with
            | Some _ => Some en
            | None => None
            end
        end in
      match chosen with
      | None => []
      | Some language =>
          match voices self !! language with
          | None => []
          | Some model_path =>
              match run_piper env model_path text with
              | Return (Some audio_base64) => audio_base64
              | Return None => []
              | Raise _ => []
              end
          end
      end.

(** The instance as the assistant service uses it. *)
Definition adapter (self : TextToSpeech) : Assistant.TextToSpeech :=
  {| Assistant.speak := fun text language => Return (speak text language self) |}.

End WithEnv.

End Tts.

(* ===================================================================== *)
(** ** models/ai_assistant.py *)
(* ===================================================================== *)

Module Llm.

(** [AIAssistant]: [model] is the loaded Llama model, which maps a prompt to
    the text of its first choice or raises. *)
Record AIAssistant := {
  model_loaded : bool;
  model : option (list N -> outcome (list N))
}.

Definition system_prompts (language : list N) : list N :=
  if bool_decide (language = tl)
  then py "Ikaw ay isang kapaki-pakinabang na assistant. Magbigay ng malinaw at tumpak na impormasyon."
  else if bool_decide (language = ko)
  then [45817; 49888; 51008; 32; 50976; 50857; 54620; 32; 50612; 49884; 49828;
        53556; 53944; 51077; 45768; 45796; 46; 32; 44036; 44208; 54616; 44256;
        32; 51221; 54869; 54620; 32; 51221; 48372; 47484; 32; 51228; 44277;
        54616; 49464; 50836; 46]
  else py "You are a helpful assistant. Provide concise and accurate information.".

Definition _get_fallback_response (language : list N) : list N :=
  if bool_decide (language = tl)
  then py "Paumanhin, nahihirapan akong i-proseso iyan ngayon. Pakisubukan muli mamaya."
  else if bool_decide (language = ko)
  then [51396; 49569; 54633; 45768; 45796; 44; 32; 51648; 44552; 32; 52376;
        47532; 54616; 45716; 32; 45936; 32; 50612; 47140; 50880; 51060; 32;
        51080; 49845; 45768; 45796; 46; 32; 45208; 51473; 50640; 32; 45796;
        49884; 32; 49884; 46020; 54644; 32; 51452; 49464; 50836; 46]
  else py "I'm sorry, I'm having trouble processing that right now. Please try again later.".

(** [f"<s>[INST] {system_prompt}\n\nUser: {input_text} [/INST]</s>"] *)
Definition prompt (system_prompt input_text : list N) : list N :=
  py "<s>[INST] " ++ system_prompt ++ [10; 10] ++ py "User: " ++ input_text
     ++ py " [/INST]</s>".

Definition _generate_response_sync (self : AIAssistant)
           (input_text language : list N) : list N :=
  match model self with
  | None => _get_fallback_response language
  | Some llama =>
      match llama (prompt (system_prompts language) input_text) with
      | Return text => strip text
      | Raise _ => _get_fallback_response language
      end
  end.

(** [generate_response] called without [async_callback]. *)
Definition generate_response (self : AIAssistant)
           (input_text language : list N) : list N :=
  if negb (model_loaded self) then _get_fallback_response language
  else _generate_response_sync self input_text language.

(** The instance as the assistant service uses it. *)
Definition adapter (self : AIAssistant) : Assistant.AIAssistant :=
  {| Assistant.generate_response :=
       fun input_text language => Return (generate_response self input_text language) |}.

End Llm.

(* ===================================================================== *)
(** ** utils.py *)
(* ===================================================================== *)

Module Utils.

Local Open Scope Z_scope.

(** [config.LANGUAGES], a dict from codes to names, in its order. *)
Definition LANGUAGES : list (list N * list N) :=
  [(en, py "English"); (tl, py "Filipino"); (ko, py "Korean")].

(** [d.get(k, default)] on a dict kept as an association list. *)
Fixpoint dict_get_default {A} (k : list N) (default : A)
         (d : list (list N * A)) : A :=
  match d with
  | [] => default
  | (k', v) :: d' => if bool_decide (k = k') then v else dict_get_default k default d'
  end.

Definition get_language_name (lang_code : list N)
           (languages : list (list N * list N)) : list N :=
  dict_get_default lang_code lang_code languages.

Section WithLower.

(** [str.lower] *)
Variable str_lower : list N -> list N.

Fixpoint get_language_code (lang_name : list N)
         (languages : list (list N * list N)) : list N :=
  match languages with
  | [] => lang_name
  | (code, name) :: rest =>
      if bool_decide (str_lower name = str_lower lang_name) then code
      else get_language_code lang_name rest
  end.

End WithLower.

(** What a call of [retry_with_backoff] does: how it ends ([Return None]
    when it falls out of the loop), how many times it has called [func],
    and the arguments of its calls of [time.sleep], in order. *)
Record Retry (A : Type) := {
  ended : outcome (option A);
  calls : nat;
  sleeps : list Z
}.
Arguments ended {A} _.
Arguments calls {A} _.
Arguments sleeps {A} _.

Section Retry.

Context {A : Type}.

(** [func i] is the outcome of the call of [func] made after [i] failed
    ones. *)
Variable func : nat -> outcome A.
Variables max_retries backoff_multiplier : Z.

(** The [while] loop entered with the given [retries] and [backoff];
    [fuel] bounds the number of turns. *)
Fixpoint retry_loop (fuel : nat) (retries : nat) (backoff : Z) : Retry A :=
  match fuel with
  | O => {| ended := Return None; calls := 0; sleeps := [] |}
  | S fuel' =>
      if Z.of_nat retries <? max_retries
      then
        match func retries with
        | Return a => {| ended := Return (Some a); calls := 1; sleeps := [] |}
        | Raise e =>
            if Z.of_nat (S retries) >=? max_retries
            then {| ended := Raise e; calls := 1; sleeps := [] |}
            else
              let r := retry_loop fuel' (S retries) (backoff * backoff_multiplier) in
              {| ended := ended r; calls := S (calls r);
                 sleeps := backoff :: sleeps r |}
        end
      else {| ended := Return None; calls := 0; sleeps := [] |}
  end.

(** [retry_with_backoff]; [max_retries] turns and one more test of the
    condition are all the loop can make. *)
Definition retry_with_backoff (initial_backoff : Z) : Retry A :=
  retry_loop (S (Z.to_nat max_retries)) 0 initial_backoff.

End Retry.

(** [SimpleCache] over string keys; a missing key in a subscript or a [del]
    is a [KeyError]. *)
Record SimpleCache (V : Type) := {
  cache : gmap (list N) V;
  expiry : gmap (list N) Z;
  default_ttl : Z
}.
Arguments cache {V} _.
Arguments expiry {V} _.
Arguments default_ttl {V} _.

Section Cache.

Context {V : Type}.

(** [__init__] *)
Definition new_cache (default_ttl : Z) : SimpleCache V :=
  {| cache := ∅; expiry := ∅; default_ttl := default_ttl |}.

(** [del self.cache[key]; del self.expiry[key]], the first having
    succeeded. *)
Definition drop (key : list N) (self : SimpleCache V)
  : outcome unit * SimpleCache V :=
  let self1 := {| cache := delete key (cache self); expiry := expiry self;
                  default_ttl := default_ttl self |} in
  match expiry self !! key with
  | None => (Raise (py "KeyError"), self1)
  | Some _ =>
      (Return tt,
       {| cache := delete key (cache self); expiry := delete key (expiry self);
          default_ttl := default_ttl self |})
  end.

(** [get(key, default)] at the instant [now]. *)
Definition get (key : list N) (default : V) (now : Z) (self : SimpleCache V)
  : outcome V * SimpleCache V :=
  match cache self !! key with
  | Some value =>
      match expiry self !! key with
      | None => (Raise (py "KeyError"), self)
      | Some deadline =>
          if deadline >? now then (Return value, self)
          else
            match drop key self with
            | (Raise e, self) => (Raise e, self)
            | (Return _, self) => (Return default, self)
            end
      end
  | None => (Return default, self)
  end.

(** [set(key, value, ttl)] at the instant [now]; [ttl = None] takes the
    default. *)
Definition set (key : list N) (value : V) (ttl : option Z) (now : Z)
           (self : SimpleCache V) : SimpleCache V :=
  let ttl := match ttl with
             | None => default_ttl self
             | Some ttl => ttl
             end in
  {| cache := <[key := value]> (cache self);
     expiry := <[key := now + ttl]> (expiry self);
     default_ttl := default_ttl self |}.

Definition delete_key (key : list N) (self : SimpleCache V)
  : outcome unit * SimpleCache V :=
  match cache self !! key with
  | Some _ => drop key self
  | None => (Return tt, self)
  end.

Definition clear (self : SimpleCache V) : SimpleCache V :=
  {| cache := ∅; expiry := ∅; default_ttl := default_ttl self |}.

(** Every cached key has a deadline and conversely. *)
Definition consistent (self : SimpleCache V) : Prop :=
  forall key, is_Some (cache self !! key) <-> is_Some (expiry self !! key).

(** What can be done to a cache. *)
Inductive CacheOp :=
| DoGet (key : list N) (default : V) (now : Z)
| DoSet (key : list N) (value : V) (ttl : option Z) (now : Z)
| DoDelete (key : list N)
| DoClear.

Definition run_cache_op (self : SimpleCache V) (op : CacheOp) : SimpleCache V :=
  match op with
  | DoGet key default now => snd (get key default now self)
  | DoSet key value ttl now => set key value ttl now self
  | DoDelete key => snd (delete_key key self)
  | DoClear => clear self
  end.

End Cache.

End Utils.

(* ===================================================================== *)
(** ** hardware/motion_sensor.py *)
(* ===================================================================== *)

Module Motion.

Local Open Scope Z_scope.

(** The part of [MotionSensor] that [_on_motion] uses. *)
Record MotionSensor := {
  last_motion_time : Z;
  motion_cooldown : Z
}.

(** [__init__] *)
Definition new_sensor : MotionSensor :=
  {| last_motion_time := 0; motion_cooldown := 10 |}.

(** [_on_motion] at the instant [current_time]: whether the motion is
    reported (logged, and passed to the callback if there is one), and the
    sensor afterwards. *)
Definition _on_motion (current_time : Z) (self : MotionSensor)
  : bool * MotionSensor :=
  if current_time - last_motion_time self <? motion_cooldown self
  then (false, self)
  else (true, {| last_motion_time := current_time;
                 motion_cooldown := motion_cooldown self |}).

(** The instants, among those at which the sensor signals motion, at which
    the motion is reported. *)
Fixpoint reported (times : list Z) (self : MotionSensor) : list Z :=
  match times with
  | [] => []
  | t :: times' =>
      let '(hit, self') := _on_motion t self in
      if hit then t :: reported times' self' else reported times' self'
  end.

(** Successive elements are at least [d] apart. *)
Fixpoint spaced (d : Z) (l : list Z) : Prop :=
  match l with
  | [] => True
  | t :: l' =>
      match l' with
      | [] => True
      | t' :: _ => t' - t >= d
      end /\ spaced d l'
  end.

End Motion.

(* ===================================================================== *)
(** ** Predicates used to state properties *)
(* ===================================================================== *)

Module RouterAux.

Definition is_engine_call (ev : Translation.Event) : bool :=
  match ev with
  | Translation.EngineCall _ _ => true
  | Translation.OnlineCall _ _ _ => false
  end.

(** The text is empty or made of whitespace only. *)
Definition whitespace_only (text : list N) : Prop :=
  Forall (fun c => isspace c = true) text.

(** The part of [translate] after the online attempt. *)
Definition offline_tail (self : Translation.Translator)
           (text src to_lang : list N) : Translation.M (list N) :=
  Translation.bind
    (if Translation.argos_available self
     then Translation.try_except
            (Translation.offline_block self text src to_lang)
            (fun _ => Translation.ret None)
     else Translation.ret None)
    (fun off => match off with
                | Some translated => Translation.ret translated
                | None => Translation.ret (Translation.not_available src to_lang)
                end).

End RouterAux.

Module TimerAux.

Import Timeout.
Local Open Scope Z_scope.

(** The timer attribute of the handler for a kind of timer. *)
Definition referenced (h : TimeoutHandler) (k : Kind) : option nat :=
  match k with
  | Silence => silence_timer h
  | Inactivity => inactivity_timer h
  end.

(** Every timer that has neither run nor been cancelled is the one the
    handler refers to for its kind, and the handler's attributes refer to
    timers of their kind. *)
Definition tracked (w : World) : Prop :=
  (forall i tm, timers w !! i = Some tm -> finished tm = false ->
                referenced (self w) (function tm) = Some i) /\
  (forall k j, referenced (self w) k = Some j ->
               exists tm, timers w !! j = Some tm /\ function tm = k).

Definition all_finished (ts : list Timer) : Prop :=
  Forall (fun tm => finished tm = true) ts.

(** Time passing in several steps. *)
Definition waits (Ts : list Z) (w : World) : World :=
  fold_left (fun w T => advance T w) Ts w.

(** The two timers that [reset_timeout] starts at the instant [now w], in
    the order of their expiry. *)
Definition both_armed (w : World) : list Timer :=
  let s := {| function := Silence;
              expiry := now w + silence_timeout (self w); finished := false |} in
  let i := {| function := Inactivity;
              expiry := now w + inactivity_timeout (self w); finished := false |} in
  if decide (earlier s i) then [s; i] else [i; s].

End TimerAux.

Module CaptureAux.

Import Capture.
Local Open Scope Z_scope.

(** The callback, if there is one, returns normally whatever it is given. *)
Definition callback_returns (callback : option Callback) : Prop :=
  forall cb, callback = Some cb ->
             forall text language final, cb text language final = Return tt.

(** A turn of the capture loop on which no stop is requested and nothing
    raises. *)
Definition undisturbed (f : Frame) : Prop :=
  stop_set f = false /\ read f = Return tt /\ forall e, accept f <> Raise e.

(** The callback, if there is one, returns normally on each of the texts,
    given with the language and the flag. *)
Definition delivers (callback : option Callback) (language : list N)
           (final : bool) (texts : list (list N)) : Prop :=
  forall cb, callback = Some cb ->
             Forall (fun text => cb text language final = Return tt) texts.

(** When a session times out, told from the chunks alone. [made] are the
    turns made since the thread began to listen, at the instant [t0].

    [last_sound]: the instant of the last loud chunk, or else [t0]. *)
Definition last_sound (t0 : Z) (made : list Frame) : Z :=
  List.last (List.map clock (List.filter loud made)) t0.

(** The chunks read since the last loud one. *)
Fixpoint quiet_run (made : list Frame) : list Frame :=
  match made with
  | [] => []
  | f :: rest =>
      if forallb (fun g => negb (loud g)) (f :: rest) then f :: rest
      else quiet_run rest
  end.

(** The instant at which the silence running after [made] began, if one
    is running. *)
Definition quiet_start (made : list Frame) : option Z :=
  match quiet_run made with
  | [] => None
  | g :: _ => Some (clock g)
  end.

(** The instant at which the silence that a quiet turn [f] belongs to
    began: at the first of the quiet chunks before it, or else at [f]. *)
Definition silence_began (made : list Frame) (f : Frame) : Z :=
  match quiet_start made with
  | None => clock f
  | Some t => t
  end.

(** A timeout is reached on the turn [f]: its chunk is quiet, and the
    silence has lasted longer than [silence_timeout] (an instant 0 counts
    as no instant), or the last sound is older than
    [inactivity_timeout]. *)
Definition timed_out (silence_timeout inactivity_timeout t0 : Z)
           (made : list Frame) (f : Frame) : bool :=
  negb (loud f)
  && ((negb (silence_began made f =? 0)
       && (clock f - silence_began made f >? silence_timeout))
      || (clock f - last_sound t0 made >? inactivity_timeout)).

(** Over the turns [turns], made after [made], no stop is requested and
    no timeout is reached. *)
Fixpoint keeps_listening (silence_timeout inactivity_timeout t0 : Z)
         (made turns : list Frame) : Prop :=
  match turns with
  | [] => True
  | g :: rest =>
      stop_set g = false
      /\ timed_out silence_timeout inactivity_timeout t0 made g = false
      /\ keeps_listening silence_timeout inactivity_timeout t0
                         (made ++ [g]) rest
  end.

(** The session ends on the turn [f]: a stop is seen requested, or the
    chunk is read and a timeout is reached. *)
Definition ends_session (silence_timeout inactivity_timeout t0 : Z)
           (made : list Frame) (f : Frame) : Prop :=
  stop_set f = true
  \/ (read f = Return tt
      /\ timed_out silence_timeout inactivity_timeout t0 made f = true).

(** The language recorded as current has a loaded model. *)
Definition current_language_loaded (s : State) : Prop :=
  forall l, current_language s = Some l -> is_Some (dict_get l (models s)).

End CaptureAux.

Module RecognizerAux.

Import Recognizer.

(** Every language with a cached recogniser has a loaded model. *)
Definition recognizers_have_models (self : SpeechRecognizer) : Prop :=
  forall l, is_Some (recognizers self !! l) -> is_Some (models self !! l).

End RecognizerAux.

Module UtilsAux.

Import Utils.
Local Open Scope Z_scope.

(** The first [n] waits of an exponential backoff. *)
Definition backoff_schedule (initial_backoff backoff_multiplier : Z) (n : nat)
  : list Z :=
  List.map (fun i => initial_backoff * backoff_multiplier ^ Z.of_nat i)
           (seq 0 n).

(** The first [k] calls of [func] all raise. *)
Definition fails_before {A} (func : nat -> outcome A) (k : nat) : Prop :=
  forall i, (i < k)%nat -> exists e, func i = Raise e.

(** A dict has each key once. *)
Definition keys_once (languages : list (list N * list N)) : Prop :=
  NoDup (List.map fst languages).

(** No two names of the dict are the same up to case. *)
Definition names_differ (str_lower : list N -> list N)
           (languages : list (list N * list N)) : Prop :=
  NoDup (List.map (fun entry => str_lower (snd entry)) languages).

End UtilsAux.

(* ===================================================================== *)
(** ** app.py *)
(* ===================================================================== *)

Module App.

(** The JSON body of the reply of [/api/translate]. *)
Record Translated := {
  source_text : list N;
  source_lang : list N;
  target_lang : list N;
  translated_text : list N;
  online_mode : bool
}.

(** A reply: status 400 with its error message, or status 200 with its
    body. *)
Inductive Reply (A : Type) :=
| BadRequest (error : list N)
| Ok (body : A).
Arguments BadRequest {A} _.
Arguments Ok {A} _.

(** An entry of the JSON body of a request, as far as the view tells
    values apart: the key is absent, or its value is a string, or it is
    another value (null, a number, a boolean, an array, an object), of
    which the view uses the truth value only. *)
Inductive Field :=
| Absent
| Str (s : list N)
| Other (truth : bool).

(** What [request.json] gives: a JSON object, with its entries ['text'],
    ['source_lang'] and ['target_lang'], or anything else ([None], an
    array, a number, a string), which has no method [get]. *)
Inductive Body :=
| NotObject
| Object (text source_lang target_lang : Field).

(** [data.get(key, default)] *)
Definition get (entry : Field) (default : list N) : Field :=
  match entry with
  | Absent => Str default
  | _ => entry
  end.

(** The truth value of an entry that is there. *)
Definition truth_value (entry : Field) : bool :=
  match entry with
  | Absent => false
  | Str s => truthy s
  | Other truth => truth
  end.

Section WithEnv.

Variable str_lower : list N -> list N.
Variable env : Translation.Env.

(** The module-level instances. *)
Variable language_detector : Detector.LanguageDetector.
Variable translator : Translation.Translator.

(** The view of [/api/translate] on what [request.json] gives; [is_online]
    is what [network_checker.is_online()] returns. A body that is not an
    object raises at [data.get]; a text that is true without being a
    string raises at [text.strip()], in [detect] or in [translate],
    before anything else is done. The result is [None] where the model
    does not tell what the view does: for a text that is a string and a
    language that is not one, which the translator would compare and
    format. *)
Definition translate (body : Body) (is_online : bool)
  : option (Translation.M (Reply Translated)) :=
  match body with
  | NotObject => Some ([], Raise (py "AttributeError"))
  | Object text source_lang target_lang =>
      let text := get text [] in
      let source_lang := get source_lang auto in
      let target_lang := get target_lang en in
      if negb (truth_value text)
      then Some (Translation.ret (BadRequest (py "No text provided")))
      else
        match text with
        | Str text =>
            match source_lang, target_lang with
            | Str source_lang, Str target_lang =>
                let source_lang :=
                  if bool_decide (source_lang = auto)
                  then Detector.detect str_lower language_detector text
                  else source_lang in
                Some
                  (Translation.bind
                     (Translation.translate str_lower env translator text
                                            source_lang target_lang is_online)
                     (fun translated_text =>
                        Translation.ret
                          (Ok {| source_text := text;
                                 source_lang := source_lang;
                                 target_lang := target_lang;
                                 translated_text := translated_text;
                                 online_mode := is_online |})))
            | _, _ => None
            end
        | _ => Some ([], Raise (py "AttributeError"))
        end
  end.

End WithEnv.

(** The name [handle_change_language] announces for a language. *)
Definition language_name (language : list N) : list N :=
  if bool_decide (language = en) then py "English"
  else if bool_decide (language = tl) then py "Filipino"
  else if bool_decide (language = ko) then py "Korean"
  else language.

End App.

(* ===================================================================== *)
(** ** Concrete configurations *)
(* ===================================================================== *)

(** Small configurations of the components, on which the definitions can be
    run. *)
Module Scenarios.

(** A detector without FastText model. *)
Definition heuristic_detector : Detector.LanguageDetector :=
  {| Detector.model := None |}.

(** No network, and detectors that come without a model. *)
Definition offline_env : Translation.Env :=
  {| Translation.translate_online := fun _ _ _ => Raise (py "network unreachable");
     Translation.new_detector := Return heuristic_detector |}.

(** An offline engine that puts its input between angle brackets. *)
Definition bracket (s : list N) : outcome (list N) :=
  Return (py "<" ++ s ++ py ">").

Definition no_pairs : Translation.Translator :=
  {| Translation.argos_available := true;
     Translation.translation_pairs := ∅ |}.


Definition only_en_ko : Translation.Translator :=
  {| Translation.argos_available := true;
     Translation.translation_pairs :=
       {[ Translation.pair_key en ko := bracket ]} |}.

Definition ko_en_tl : Translation.Translator :=
  {| Translation.argos_available := true;
     Translation.translation_pairs :=
       <[ Translation.pair_key en tl := bracket ]>
         {[ Translation.pair_key ko en := bracket ]} |}.

Definition no_argos : Translation.Translator :=
  {| Translation.argos_available := false;
     Translation.translation_pairs := ∅ |}.

(** Three Hangul syllables in a text of ten characters. *)
(** Vosk builds every recogniser; only the English model is loaded. *)
Definition vosk_ok : Capture.Model -> outcome unit := fun _ => Return tt.

Definition english_only : list (list N * Capture.Model) := [(en, 0%nat)].

(** The globals after a first [record_audio(None, 'en')]. *)
Definition capturing : Capture.State :=
  snd (Capture.record_audio vosk_ok None en (Capture.loaded english_only)).

(** A callback that always returns. *)
Definition listener : Capture.Callback := fun _ _ _ => Return tt.

(** A turn of the capture loop with the stop flag set, a silent turn, and
    a turn on which the recogniser commits "hello". *)
Definition stop_turn : Capture.Frame :=
  {| Capture.stop_set := true; Capture.read := Return tt;
     Capture.loud := false; Capture.clock := 2%Z;
     Capture.accept := Return None |}.

Definition silent_turn : Capture.Frame :=
  {| Capture.stop_set := false; Capture.read := Return tt;
     Capture.loud := false; Capture.clock := 1%Z;
     Capture.accept := Return None |}.

Definition hello_turn : Capture.Frame :=
  {| Capture.stop_set := false; Capture.read := Return tt;
     Capture.loud := true; Capture.clock := 1%Z;
     Capture.accept := Return (Some (Some (py "hello"))) |}.

(** An assistant that answers "ok", a synthesiser that always raises,
    and the service before [initialize] has run. *)
Definition ok_assistant : Assistant.AIAssistant :=
  {| Assistant.generate_response := fun _ _ => Return (py "ok") |}.

Definition failing_tts : Assistant.TextToSpeech :=
  {| Assistant.speak := fun _ _ => Raise (py "piper crashed") |}.

Definition assistant_env : Assistant.Env :=
  {| Assistant.new_assistant := Return ok_assistant;
     Assistant.get_translator := Return only_en_ko;
     Assistant.get_tts := Return failing_tts;
     Assistant.translation_env := offline_env |}.

Definition not_initialized : Assistant.Globals :=
  {| Assistant._ai_assistant := None; Assistant._translator := None;
     Assistant._tts := None |}.

Definition initialized : Assistant.Globals :=
  {| Assistant._ai_assistant := Some ok_assistant;
     Assistant._translator := Some only_en_ko;
     Assistant._tts := Some failing_tts |}.

(** A recogniser that commits "hello" on any audio; an environment
    without network or model files in which Vosk builds that recogniser;
    and a [SpeechRecognizer] that has loaded the English model only. *)
Definition hello_kaldi : Recognizer.Kaldi :=
  {| Recognizer.AcceptWaveform := fun _ => Return true;
     Recognizer.Result := fun _ => Return (Some (py "hello"));
     Recognizer.PartialResult := fun _ => Return (Some []) |}.

Definition no_download : Recognizer.Env :=
  {| Recognizer.path_exists := fun _ => false;
     Recognizer.fetch := fun _ => Raise (py "network unreachable");
     Recognizer.load := fun _ => Raise (py "no such model");
     Recognizer.new_kaldi := fun _ => Return hello_kaldi;
     Recognizer.recognize_online := fun _ _ => Raise (py "network unreachable") |}.

Definition english_loaded : Recognizer.SpeechRecognizer :=
  {| Recognizer.vosk_available := true;
     Recognizer.model_paths := {[ en := Recognizer.model_path en ]};
     Recognizer.models := {[ en := 0%nat ]};
     Recognizer.recognizers := ∅ |}.

(** The same with a network: the Korean model can be downloaded and
    loaded (as model 1), and the recogniser built from it commits another
    text. *)
Definition annyeong_kaldi : Recognizer.Kaldi :=
  {| Recognizer.AcceptWaveform := fun _ => Return true;
     Recognizer.Result := fun _ => Return (Some (py "annyeong"));
     Recognizer.PartialResult := fun _ => Return (Some []) |}.

Definition download_works : Recognizer.Env :=
  {| Recognizer.path_exists := fun _ => false;
     Recognizer.fetch := fun _ => Return tt;
     Recognizer.load := fun _ => Return 1%nat;
     Recognizer.new_kaldi :=
       fun m => Return (if Nat.eqb m 1 then annyeong_kaldi else hello_kaldi);
     Recognizer.recognize_online := fun _ _ => Raise (py "network unreachable") |}.

Definition three_in_ten : list N :=
  [44032; 45208; 45796; 32] ++ py "abcdef".

(** Four Hangul syllables in a text of ten characters. *)
Definition four_in_ten : list N :=
  [44032; 45208; 45796; 46972; 32] ++ py "abcde".

(** A silent turn four seconds after [silent_turn]. *)
Definition late_silent_turn : Capture.Frame :=
  {| Capture.stop_set := false; Capture.read := Return tt;
     Capture.loud := false; Capture.clock := 5%Z;
     Capture.accept := Return None |}.

(** A synthesiser with the English voice only, one without Piper, and a
    Piper that encodes every text as the same audio. *)
Definition english_voice : Tts.TextToSpeech :=
  {| Tts.piper_available := true;
     Tts.voices := {[ en := py "piper_models/en.onnx" ]} |}.

Definition no_piper : Tts.TextToSpeech :=
  {| Tts.piper_available := false;
     Tts.voices := {[ en := py "piper_models/en.onnx" ]} |}.

Definition piper_ok : Tts.Env :=
  {| Tts.run_piper := fun _ _ => Return (Some (py "UklGRg==")) |}.

(** An assistant whose model is not loaded, and the service initialised
    with it and with the synthesiser without Piper. *)
Definition no_llm : Llm.AIAssistant :=
  {| Llm.model_loaded := false; Llm.model := None |}.

Definition real_service : Assistant.Globals :=
  {| Assistant._ai_assistant := Some (Llm.adapter no_llm);
     Assistant._translator := Some only_en_ko;
     Assistant._tts := Some (Tts.adapter piper_ok no_piper) |}.

(** A function that fails twice, then returns 7. *)
Definition third_time_lucky (i : nat) : outcome nat :=
  match i with
  | 0%nat => Raise (py "first")
  | 1%nat => Raise (py "second")
  | _ => Return 7%nat
  end.

(** A function that always fails. *)
Definition never_works (i : nat) : outcome nat := Raise (py "no").

End Scenarios.

(* ===================================================================== *)
(** * Properties *)
(* ===================================================================== *)

(** ** The translation router *)

Module TranslationFacts.

Import Translation.

Lemma bind_ret_l {A B} (a : A) (f : A -> M B) : bind (ret a) f = f a.
Proof. unfold bind, ret. destruct (f a). reflexivity. Qed.

Lemma bind_call_return {A B} ev (a : A) (f : A -> M B) :
  bind (call ev (Return a)) f = (ev :: events (f a), result (f a)).
Proof. unfold bind, call. destruct (f a). reflexivity. Qed.

Lemma bind_call_raise {A B} ev e (f : A -> M B) :
  bind (call ev (Raise e)) f = ([ev], Raise e).
Proof. reflexivity. Qed.

Lemma supported_cases L :
  L ∈ supported_languages -> L = en \/ L = tl \/ L = ko.
Proof.
  unfold supported_languages. rewrite !elem_of_cons, elem_of_nil. tauto.
Qed.

Lemma supported_not_auto L : L ∈ supported_languages -> L <> auto.
Proof.
  intros H. destruct (supported_cases L H) as [-> | [-> | ->]]; discriminate.
Qed.

(** The detector answers with a supported code, which is never [auto]. *)
Lemma detect_in_supported
      (str_lower : list N -> list N) (self : Detector.LanguageDetector)
      (text : list N) :
  Detector.detect str_lower self text ∈ Detector.supported_languages.
Proof.
  assert (Hen : en ∈ Detector.supported_languages) by (left).
  assert (Hfb : forall t, Detector.fallback str_lower t ∈ Detector.supported_languages).
  { intros t. unfold Detector.fallback, Detector.supported_languages.
    destruct (_ <? _)%nat; [| destruct (_ <=? _)%nat];
      rewrite !elem_of_cons; tauto. }
  unfold Detector.detect. destruct (blank text); [exact Hen |].
  destruct (Detector.model self) as [predict |]; [| apply Hfb].
  destruct (predict _) as [label | e]; [| apply Hfb].
  cbv zeta. unfold mem.
  destruct (bool_decide _) eqn:Hm; [| exact Hen].
  apply bool_decide_eq_true in Hm. exact Hm.
Qed.



Lemma intermediate_length from_code to_code :
  (length (_get_intermediate_translations from_code to_code) <= 2)%nat.
Proof.
  unfold _get_intermediate_translations.
  destruct (_ && _); simpl; lia.
Qed.

Section Facts.

Variable str_lower : list N -> list N.
Variable env : Env.
Variable self : Translator.

Lemma resolve_source_explicit text from_lang to_lang :
  from_lang <> auto -> from_lang <> to_lang ->
  resolve_source str_lower env text from_lang to_lang = from_lang.
Proof.
  intros Ha Hd. unfold resolve_source.
  rewrite !bool_decide_eq_false_2 by assumption. reflexivity.
Qed.

(** An offline call for an explicit source goes straight to the offline
    block. *)
Lemma translate_offline text from_lang to_lang :
  blank text = false -> from_lang <> auto -> from_lang <> to_lang ->
  argos_available self = true ->
  translate str_lower env self text from_lang to_lang false
  = bind (try_except (offline_block self text from_lang to_lang)
                     (fun _ => ret None))
         (fun off => match off with
                     | Some translated => ret translated
                     | None => ret (not_available from_lang to_lang)
                     end).
Proof.
  intros Hb Ha Hd Hav. unfold translate.
  rewrite Hb, resolve_source_explicit by assumption.
  rewrite bool_decide_eq_false_2 by assumption.
  rewrite Hav, bind_ret_l. reflexivity.
Qed.

(** The offline block when the direct pair is missing and the path has
    the hops [(a, b)] then [rest]. *)
Lemma offline_block_hops text from_lang to_lang hop rest :
  translation_pairs self !! pair_key from_lang to_lang = None ->
  _get_intermediate_translations from_lang to_lang = hop :: rest ->
  offline_block self text from_lang to_lang
  = bind (run_hops self (hop :: rest) text) (fun r => ret (Some r)).
Proof.
  intros Hd Hp. unfold offline_block. rewrite Hd, Hp. reflexivity.
Qed.

Lemma run_hops_missing src tgt rest result :
  translation_pairs self !! pair_key src tgt = None ->
  run_hops self ((src, tgt) :: rest) result = ret (not_available src tgt).
Proof. intros H. cbn [run_hops]. rewrite H. reflexivity. Qed.

Lemma run_hops_call src tgt rest result f r :
  translation_pairs self !! pair_key src tgt = Some f ->
  f result = Return r ->
  run_hops self ((src, tgt) :: rest) result
  = (EngineCall (pair_key src tgt) result :: events (run_hops self rest r),
     Translation.result (run_hops self rest r)).
Proof.
  intros H Hf. cbn [run_hops]. rewrite H, Hf. apply bind_call_return.
Qed.

(** A run of hops never raises unless an engine does; it logs one call
    per installed hop it reaches. *)
Lemma run_hops_events_length hops result :
  (length (events (run_hops self hops result)) <= length hops)%nat.
Proof.
  revert result. induction hops as [| [src tgt] rest IH]; intros result.
  - simpl. lia.
  - cbn [run_hops].
    destruct (translation_pairs self !! pair_key src tgt) as [f |].
    + destruct (f result) as [r | e].
      * rewrite bind_call_return. simpl. specialize (IH r). lia.
      * rewrite bind_call_raise. simpl. lia.
    + simpl. lia.
Qed.

End Facts.

End TranslationFacts.

Ltac py_neq := let H := fresh in intro H; vm_compute in H; discriminate H.

Module TranslationSpec.

Import Translation TranslationFacts.







(** Results of composed computations. *)
Lemma result_bind {A B} (m : M A) (f : A -> M B) a :
  result m = Return a -> result (bind m f) = result (f a).
Proof.
  destruct m as [l [a' | e]]; simpl; intros H; [| discriminate].
  injection H as ->. destruct (f a). reflexivity.
Qed.

Lemma result_try_except_return {A} (m : M A) h a :
  result m = Return a -> result (try_except m h) = Return a.
Proof.
  destruct m as [l [a' | e]]; simpl; intros H; [exact H | discriminate].
Qed.

Lemma result_try_except_raise {A} (m : M A) h e :
  result m = Raise e -> result (try_except m h) = result (h e).
Proof.
  destruct m as [l [a' | e']]; simpl; intros H; [discriminate |].
  injection H as ->. destruct (h e). reflexivity.
Qed.

(** A [try] whose handler returns a value always returns one. *)
Lemma try_except_returns {A} (m : M A) (d : A) :
  exists a, result (try_except m (fun _ => ret d)) = Return a.
Proof.
  destruct m as [l [a | e]]; simpl; eauto.
Qed.

Lemma online_block_returns env text from_lang to_lang :
  exists o, result (online_block env text from_lang to_lang) = Return o.
Proof. apply try_except_returns. Qed.

(** Every path through [translate] ends in a [return]. *)
Lemma translate_returns
      (str_lower : list N -> list N) (env : Env) (self : Translator)
      (text from_lang to_lang : list N) (online : bool) :
  exists s, result (translate str_lower env self text from_lang to_lang online)
            = Return s.
Proof.
  unfold translate. destruct (blank text); [simpl; eauto |].
  destruct (bool_decide _); [simpl; eauto |].
  set (src := resolve_source str_lower env text from_lang to_lang).
  assert (Hon : exists o,
             result (if online then online_block env text src to_lang
                     else ret None) = Return o).
  { destruct online; [apply online_block_returns | simpl; eauto]. }
  destruct Hon as [o Ho]. rewrite (result_bind _ _ o Ho).
  destruct o as [t |]; [simpl; eauto |].
  assert (Hoff : exists o,
             result (if argos_available self
                     then try_except (offline_block self text src to_lang)
                                     (fun _ => ret None)
                     else ret None) = Return o).
  { destruct (argos_available self);
      [apply try_except_returns | simpl; eauto]. }
  destruct Hoff as [o Ho']. rewrite (result_bind _ _ o Ho').
  destruct o; simpl; eauto.
Qed.

(** The online attempt gives nothing when the service raises or answers
    with the empty string. *)
Lemma online_block_nothing env text from_lang to_lang :
  (exists e, translate_online env text from_lang to_lang = Raise e)
  \/ translate_online env text from_lang to_lang = Return [] ->
  result (online_block env text from_lang to_lang) = Return None.
Proof.
  unfold online_block. intros [[e ->] | ->]; reflexivity.
Qed.

(** The result of a call that gets nothing from the online service is
    that of the offline part. *)
Lemma translate_result_offline str_lower env self text from_lang to_lang online :
  let src := resolve_source str_lower env text from_lang to_lang in
  blank text = false -> src <> to_lang ->
  (online = true ->
   (exists e, translate_online env text src to_lang = Raise e)
   \/ translate_online env text src to_lang = Return []) ->
  result (translate str_lower env self text from_lang to_lang online)
  = result
      (bind (if argos_available self
             then try_except (offline_block self text src to_lang)
                             (fun _ => ret None)
             else ret None)
            (fun off => match off with
                        | Some translated => ret translated
                        | None => ret (not_available src to_lang)
                        end)).
Proof.
  intros src Hb Hne Hon. unfold translate. rewrite Hb. fold src.
  rewrite bool_decide_eq_false_2 by assumption.
  rewrite (result_bind _ _ None); [reflexivity |].
  destruct online; [| reflexivity].
  apply online_block_nothing, Hon. reflexivity.
Qed.

(** C3 (amended). [translate] never raises: for every input it returns a
    string, whatever the online service, the detector and the offline
    engines do. When no method gives a translation (the online service,
    if it is asked, raises or answers with the empty string, and offline
    the library is absent, or an engine that is called raises, or a pair
    that is needed is not installed), the string is a message of the form
    "[Translation not available for A to B]": it names the hop that is not
    installed when the call stops at one, and the source language as
    resolved and the requested target in every other case. The path has
    at most two hops, so that these are all the cases. The resolved
    source is the requested one whenever that is neither [auto] nor equal
    to the target, and the detected language otherwise. *)
Theorem translate_never_raises
        (str_lower : list N -> list N) (env : Env) (self : Translator)
        (text from_lang to_lang : list N) (online : bool) :
  let src := resolve_source str_lower env text from_lang to_lang in
  let returned :=
    result (translate str_lower env self text from_lang to_lang online) in
  (exists s, returned = Return s) /\
  (blank text = false -> src <> to_lang ->
   (online = true ->
    (exists e, translate_online env text src to_lang = Raise e)
    \/ translate_online env text src to_lang = Return []) ->
   (argos_available self = false ->
    returned = Return (not_available src to_lang)) /\
   (argos_available self = true ->
    (forall f e,
        translation_pairs self !! pair_key src to_lang = Some f ->
        f text = Raise e ->
        returned = Return (not_available src to_lang)) /\
    (translation_pairs self !! pair_key src to_lang = None ->
     forall a b rest,
       _get_intermediate_translations src to_lang = (a, b) :: rest ->
       (translation_pairs self !! pair_key a b = None ->
        returned = Return (not_available a b)) /\
       (forall f e,
           translation_pairs self !! pair_key a b = Some f ->
           f text = Raise e ->
           returned = Return (not_available src to_lang)) /\
       (forall f r c d rest',
           translation_pairs self !! pair_key a b = Some f ->
           f text = Return r ->
           rest = (c, d) :: rest' ->
           (translation_pairs self !! pair_key c d = None ->
            returned = Return (not_available c d)) /\
           (forall g e,
               translation_pairs self !! pair_key c d = Some g ->
               g r = Raise e ->
               returned = Return (not_available src to_lang)))))) /\
  (length (_get_intermediate_translations src to_lang) <= 2)%nat /\
  (from_lang <> auto -> from_lang <> to_lang -> src = from_lang) /\
  (from_lang = auto \/ from_lang = to_lang ->
   src = match new_detector env with
         | Return detector => Detector.detect str_lower detector text
         | Raise _ => en
         end).
Proof.
  cbv zeta.
  set (src := resolve_source str_lower env text from_lang to_lang).
  split; [apply translate_returns |].
  split; [| split; [apply intermediate_length |]; split].
  - intros Hb Hne Hon.
    rewrite (translate_result_offline str_lower env self text from_lang
                                      to_lang online Hb Hne Hon).
    fold src. split.
    + intros ->. reflexivity.
    + intros ->. split.
      * intros f e Hf He. unfold offline_block. rewrite Hf, He. reflexivity.
      * intros Hdirect a b rest Hpath.
        rewrite (offline_block_hops self text src to_lang _ _ Hdirect Hpath).
        split; [| split].
        -- intros Hmiss. rewrite run_hops_missing by assumption. reflexivity.
        -- intros f e Hf He. cbn [run_hops]. rewrite Hf, He. reflexivity.
        -- intros f r c d rest' Hf Hr ->.
           rewrite (run_hops_call self a b _ text f r Hf Hr).
           split.
           ++ intros Hmiss. rewrite run_hops_missing by assumption.
              reflexivity.
           ++ intros g e Hg He. cbn [run_hops]. rewrite Hg, He. reflexivity.
  - apply resolve_source_explicit.
  - intros Hfrom. unfold src, resolve_source.
    replace (bool_decide (from_lang = auto) || bool_decide (from_lang = to_lang))
      with true; [reflexivity |].
    symmetry. apply orb_true_iff.
    destruct Hfrom as [H | H]; [left | right];
      apply bool_decide_eq_true_2; exact H.
Qed.

Lemma translate_never_raises_witness :
  result (translate ascii_lower Scenarios.offline_env Scenarios.no_pairs
                    (py "hi") ko tl true)
  = Return (not_available ko en).
Proof.
  destruct (translate_never_raises ascii_lower Scenarios.offline_env
              Scenarios.no_pairs (py "hi") ko tl true)
    as (_ & Hfail & _ & _ & _).
  destruct Hfail as [_ Hoffline].
  - vm_compute. reflexivity.
  - py_neq.
  - intros _. left. eexists. vm_compute. reflexivity.
  - destruct (Hoffline eq_refl) as [_ Hhops].
    destruct (Hhops eq_refl ko en [(en, tl)]) as [Hfirst _].
    + vm_compute. reflexivity.
    + apply Hfirst. vm_compute. reflexivity.
Defined.

(** C3, as stated, fails on the language pair the message names. Asked
    for Korean to Korean with an English text, without the offline
    library, the call detects English and the message names en to ko;
    asked for Korean to Filipino with no pair installed, the message
    names the missing hop ko to en. Neither names the requested pair. *)
Lemma translate_never_raises_counterexample :
  (result (translate ascii_lower Scenarios.offline_env Scenarios.no_argos
                     (py "hello") ko ko false)
   = Return (not_available en ko) /\
   not_available en ko <> not_available ko ko) /\
  (result (translate ascii_lower Scenarios.offline_env Scenarios.no_pairs
                     (py "hi") ko tl false)
   = Return (not_available ko en) /\
   not_available ko en <> not_available ko tl).
Proof.
  split; (split; [vm_compute; reflexivity | py_neq]).
Qed.

(** C4 (amended). For every non-blank text and every language L, a call
    with source L or [auto] and target L runs the language detection (a
    detector that cannot be built counts as English). Whenever the
    detection gives L, the call returns the text unchanged, without any
    engine call. Whenever it gives another language, the text is
    translated from that language: the call does exactly what the call
    that names the detected language as its source does, and that call
    keeps its source. *)
Theorem translate_identity_when_detected
        (str_lower : list N -> list N) (env : Env) (self : Translator)
        (text from_lang L : list N) (online : bool) :
  blank text = false ->
  from_lang = auto \/ from_lang = L ->
  let detected := match new_detector env with
                  | Return detector => Detector.detect str_lower detector text
                  | Raise _ => en
                  end in
  (detected = L ->
   translate str_lower env self text from_lang L online = ([], Return text)) /\
  (detected <> L ->
   resolve_source str_lower env text detected L = detected
   /\ translate str_lower env self text from_lang L online
      = translate str_lower env self text detected L online).
Proof.
  intros Hb Hfrom detected.
  assert (Hsrc : resolve_source str_lower env text from_lang L = detected).
  { unfold resolve_source.
    replace (bool_decide (from_lang = auto) || bool_decide (from_lang = L))
      with true; [reflexivity |].
    symmetry. apply orb_true_iff.
    destruct Hfrom as [H | H]; [left | right];
      apply bool_decide_eq_true_2; exact H. }
  split.
  - intros Hdet. unfold translate. rewrite Hb, Hsrc, Hdet.
    rewrite bool_decide_eq_true_2 by reflexivity. reflexivity.
  - intros Hdet.
    assert (Hsup : detected ∈ Detector.supported_languages).
    { unfold detected. destruct (new_detector env);
        [apply detect_in_supported | left]. }
    assert (Hkeep : resolve_source str_lower env text detected L = detected).
    { apply resolve_source_explicit; [| exact Hdet].
      apply supported_not_auto. exact Hsup. }
    split; [exact Hkeep |].
    unfold translate. rewrite Hb, Hsrc, Hkeep. reflexivity.
Qed.

Lemma translate_identity_when_detected_witness :
  translate ascii_lower Scenarios.offline_env Scenarios.only_en_ko
            (py "hello") auto en true
  = ([], Return (py "hello"))
  /\ translate ascii_lower Scenarios.offline_env Scenarios.only_en_ko
               (py "hello") ko ko false
     = translate ascii_lower Scenarios.offline_env Scenarios.only_en_ko
                 (py "hello") en ko false.
Proof.
  split.
  - destruct (translate_identity_when_detected
                ascii_lower Scenarios.offline_env Scenarios.only_en_ko
                (py "hello") auto en true) as [Hsame _].
    + vm_compute. reflexivity.
    + left. reflexivity.
    + apply Hsame. vm_compute. reflexivity.
  - destruct (translate_identity_when_detected
                ascii_lower Scenarios.offline_env Scenarios.only_en_ko
                (py "hello") ko ko false) as [_ Hother].
    + vm_compute. reflexivity.
    + right. reflexivity.
    + destruct Hother as [_ Hcall]; [py_neq |]. exact Hcall.
Defined.

(** C4, as stated, fails when the detection disagrees with the language
    given twice: asked for Korean to Korean, the English text "hello" is
    detected as English and sent to the en-ko engine. *)
Lemma translate_identity_when_detected_counterexample :
  blank (py "hello") = false /\
  ko ∈ supported_languages /\
  translate ascii_lower Scenarios.offline_env Scenarios.only_en_ko
            (py "hello") ko ko false
  = ([EngineCall (pair_key en ko) (py "hello")], Return (py "<hello>")) /\
  py "<hello>" <> py "hello".
Proof.
  repeat split; try (vm_compute; reflexivity); try py_neq.
  unfold supported_languages. rewrite !elem_of_cons. tauto.
Qed.

End TranslationSpec.

(** ** The language detector *)

Module DetectorSpec.

Import Detector.

(** Counting the entries of a duplicate-free list that pass a test. *)
Lemma two_pass_filter {A} (P : A -> bool) (l : list A) :
  NoDup l ->
  ((2 <= length (List.filter P l))%nat <->
   exists x y, x <> y /\ In x l /\ In y l /\ P x = true /\ P y = true).
Proof.
  intros Hnd. split.
  - intros Hlen.
    assert (Hnd' : NoDup (List.filter P l))
      by (apply NoDup_ListNoDup, List.NoDup_filter, NoDup_ListNoDup, Hnd).
    destruct (List.filter P l) as [| x [| y rest]] eqn:Hf;
      [simpl in Hlen; lia | simpl in Hlen; lia |].
    assert (Hx : In x (List.filter P l)) by (rewrite Hf; simpl; auto).
    assert (Hy : In y (List.filter P l)) by (rewrite Hf; simpl; auto).
    apply List.filter_In in Hx, Hy.
    exists x, y. repeat split; try tauto.
    inversion Hnd' as [| ? ? Hnotin _]; subst.
    intros ->. apply Hnotin. left.
  - intros (x & y & Hne & Hx & Hy & Px & Py).
    assert (Hx' : In x (List.filter P l)) by (apply List.filter_In; auto).
    assert (Hy' : In y (List.filter P l)) by (apply List.filter_In; auto).
    destruct (List.filter P l) as [| a [| b rest]]; simpl in *;
      [tauto | | lia].
    destruct Hx' as [<- | []]. destruct Hy' as [<- | []]. contradiction.
Qed.

Lemma filipino_words_NoDup : NoDup filipino_words.
Proof.
  apply NoDup_ListNoDup.
  repeat (constructor; [vm_compute; intuition discriminate |]).
  constructor.
Qed.

Lemma filipino_count_two (text : list N) :
  (2 <= filipino_count text)%nat <-> two_listed_words text.
Proof.
  unfold filipino_count, two_listed_words.
  rewrite (two_pass_filter _ _ filipino_words_NoDup).
  unfold mem.
  split; intros (x & y & H); exists x, y;
    rewrite ?bool_decide_eq_true in *; tauto.
Qed.

Lemma detect_heuristic str_lower self text :
  blank text = false -> heuristic_only self text ->
  detect str_lower self text = fallback str_lower text.
Proof.
  intros Hb Hh. unfold detect. rewrite Hb.
  destruct Hh as [-> | (predict & e & -> & ->)]; reflexivity.
Qed.

(** C7 (amended). When the detector has no model (or its model raises),
    the result depends on the lower-cased text only: it is [ko] whenever
    strictly more than 30% of its characters are Hangul syllables
    (U+AC00 to U+D7A3), whatever its words are; otherwise [tl] whenever at
    least two different entries of the Filipino word list occur among its
    words; otherwise [en]. A blank text gives [en]. *)
Theorem heuristic_fallback_thresholds
        (str_lower : list N -> list N) (self : LanguageDetector)
        (text : list N) :
  heuristic_only self text ->
  (blank text = true -> detect str_lower self text = en) /\
  (blank text = false ->
   let t := str_lower text in
   ((3 * length t < 10 * korean_chars t)%nat ->
    detect str_lower self text = ko) /\
   ((10 * korean_chars t <= 3 * length t)%nat -> two_listed_words t ->
    detect str_lower self text = tl) /\
   ((10 * korean_chars t <= 3 * length t)%nat -> ~ two_listed_words t ->
    detect str_lower self text = en)).
Proof.
  intros Hh. split.
  - intros Hb. unfold detect. rewrite Hb. reflexivity.
  - intros Hb t. rewrite (detect_heuristic _ _ _ Hb Hh).
    unfold fallback. fold t.
    assert (Hk : (korean_chars t <= length t)%nat)
      by apply List.filter_length_le.
    split; [| split].
    + intros Hlt.
      replace (3 * Nat.max 1 (length t) <? 10 * korean_chars t)%nat with true;
        [reflexivity |].
      symmetry. apply Nat.ltb_lt. lia.
    + intros Hle Hw.
      replace (3 * Nat.max 1 (length t) <? 10 * korean_chars t)%nat with false
        by (symmetry; apply Nat.ltb_ge; lia).
      apply filipino_count_two in Hw.
      replace (2 <=? filipino_count t)%nat with true
        by (symmetry; apply Nat.leb_le; exact Hw).
      reflexivity.
    + intros Hle Hw.
      replace (3 * Nat.max 1 (length t) <? 10 * korean_chars t)%nat with false
        by (symmetry; apply Nat.ltb_ge; lia).
      rewrite <- filipino_count_two in Hw.
      replace (2 <=? filipino_count t)%nat with false
        by (symmetry; apply Nat.leb_gt; lia).
      reflexivity.
Qed.

Lemma heuristic_fallback_thresholds_witness :
  detect ascii_lower Scenarios.heuristic_detector Scenarios.four_in_ten = ko.
Proof.
  destruct (heuristic_fallback_thresholds ascii_lower
              Scenarios.heuristic_detector Scenarios.four_in_ten)
    as [_ Hnb]; [left; reflexivity |].
  destruct (Hnb eq_refl) as [Hko _].
  apply Hko. vm_compute. lia.
Defined.

(** C7, as stated, fails at exactly 30%: a text of ten characters of which
    three are Hangul syllables, and which lower-casing leaves as it is, is
    not detected as Korean. *)
Lemma heuristic_fallback_thresholds_counterexample :
  (10 * korean_chars Scenarios.three_in_ten
   = 3 * length Scenarios.three_in_ten)%nat /\
  ascii_lower Scenarios.three_in_ten = Scenarios.three_in_ten /\
  detect ascii_lower Scenarios.heuristic_detector Scenarios.three_in_ten = en /\
  en <> ko.
Proof.
  repeat split; try (vm_compute; reflexivity). py_neq.
Qed.

(** The word test counts entries of the list, not words of the text: a
    text that repeats one listed word is detected as English. *)
Example repeated_word_is_english :
  words_in_list (py "ang ang") = 2%nat /\
  filipino_count (py "ang ang") = 1%nat /\
  detect ascii_lower Scenarios.heuristic_detector (py "ang ang") = en.
Proof. repeat split; vm_compute; reflexivity. Qed.

End DetectorSpec.

(** ** The timeout handler *)

Module TimeoutSpec.

Import Timeout.
Local Open Scope Z_scope.

Lemma filter_Permutation {A} (P : A -> bool) (l l' : list A) :
  l ≡ₚ l' -> List.filter P l ≡ₚ List.filter P l'.
Proof.
  induction 1 as [| x l l' _ IH | x y l | l l' l'' _ IH1 _ IH2]; simpl.
  - reflexivity.
  - destruct (P x); [constructor |]; exact IH.
  - destruct (P x), (P y); try reflexivity. constructor.
  - etransitivity; eassumption.
Qed.

Lemma map_lookup {A B} (f : A -> B) (l : list A) (i : nat) :
  List.map f l !! i = f <$> l !! i.
Proof.
  revert i. induction l as [| a l IH]; intros [| i]; simpl; auto.
Qed.

(** The handlers that timers of [ts] run, silence ones only, do not
    depend on the order in which the timers come due. *)
Lemma silence_of_sorted h (ts : list Timer) :
  List.filter is_silence (List.map (run_handler h) (merge_sort earlier ts))
  ≡ₚ List.filter is_silence (List.map (run_handler h) ts).
Proof.
  apply filter_Permutation, Permutation_map, merge_sort_Permutation.
Qed.

Lemma quiet_no_silence_due h T (ts : list Timer) :
  quiet ts ->
  List.filter is_silence (List.map (run_handler h) (List.filter (due T) ts)) = [].
Proof.
  induction 1 as [| tm ts Htm _ IH]; simpl; [reflexivity |].
  unfold due at 1. destruct (finished tm) eqn:Hfin; simpl; [exact IH |].
  destruct (expiry tm <=? T); simpl; [| exact IH].
  unfold is_silence at 1. simpl.
  destruct (function tm) eqn:Hk.
  - specialize (Htm eq_refl). congruence.
  - rewrite bool_decide_eq_false_2 by discriminate. exact IH.
Qed.

Lemma quiet_advance T (ts : list Timer) :
  quiet ts ->
  quiet (List.map (fun tm => if due T tm then set_finished tm else tm) ts).
Proof.
  induction 1 as [| tm ts Htm _ IH]; simpl; constructor; auto.
  destruct (due T tm); simpl; auto.
Qed.

Lemma silence_fires_app (w : World) (l : list Fire) :
  List.filter is_silence (log w ++ l) = silence_fires w ++ List.filter is_silence l.
Proof. unfold silence_fires. apply List.filter_app. Qed.

(** With no silence timer pending, time passing runs no silence
    handler. *)
Lemma advance_quiet T w :
  quiet (timers w) ->
  silence_fires (advance T w) = silence_fires w /\ quiet (timers (advance T w)).
Proof.
  intros Hq. split; [| apply quiet_advance, Hq].
  unfold silence_fires at 1. simpl. rewrite silence_fires_app.
  pose proof (silence_of_sorted (self w) (List.filter (due T) (timers w))) as Hp.
  rewrite quiet_no_silence_due in Hp by assumption.
  apply Permutation_nil_r in Hp. fold is_silence. rewrite Hp.
  apply app_nil_r.
Qed.

(** Before the expiry of the armed timer nothing happens to it. *)
Lemma advance_before T w t :
  armed w t -> T < t ->
  silence_fires (advance T w) = silence_fires w /\ armed (advance T w) t.
Proof.
  intros (ts0 & Hts & Hq & Href) HT.
  assert (Hnd : due T {| function := Silence; expiry := t; finished := false |}
                = false).
  { unfold due. simpl. apply Z.leb_gt. lia. }
  split.
  - unfold silence_fires at 1. simpl. rewrite silence_fires_app.
    pose proof (silence_of_sorted (self w) (List.filter (due T) (timers w))) as Hp.
    rewrite Hts, List.filter_app in Hp. simpl in Hp. rewrite Hnd in Hp.
    rewrite app_nil_r, quiet_no_silence_due in Hp by assumption.
    apply Permutation_nil_r in Hp. rewrite Hts, List.filter_app. simpl.
    rewrite Hnd, app_nil_r. fold is_silence. rewrite Hp. apply app_nil_r.
  - exists (List.map (fun tm => if due T tm then set_finished tm else tm) ts0).
    simpl. rewrite Hts, List.map_app. simpl. rewrite Hnd.
    split; [reflexivity |]. split; [apply quiet_advance, Hq |].
    rewrite List.length_map. exact Href.
Qed.

(** From its expiry on, the armed timer has run its handler, once, and
    no silence timer is pending any more. *)
Lemma advance_after T w t :
  armed w t -> t <= T ->
  silence_fires (advance T w) = silence_fires w ++ [silence_fire w t]
  /\ quiet (timers (advance T w)).
Proof.
  intros (ts0 & Hts & Hq & Href) HT.
  assert (Hd : due T {| function := Silence; expiry := t; finished := false |}
               = true).
  { unfold due. simpl. apply Z.leb_le. lia. }
  split.
  - unfold silence_fires at 1. simpl. rewrite silence_fires_app.
    pose proof (silence_of_sorted (self w) (List.filter (due T) (timers w))) as Hp.
    rewrite Hts, List.filter_app in Hp. simpl in Hp. rewrite Hd in Hp.
    rewrite List.map_app, List.filter_app, quiet_no_silence_due in Hp
      by assumption.
    simpl in Hp. apply Permutation_singleton_r in Hp.
    rewrite Hts, List.filter_app. simpl. rewrite Hd.
    fold is_silence. rewrite Hp. reflexivity.
  - simpl. rewrite Hts, List.map_app. simpl. rewrite Hd.
    apply Forall_app. split; [apply quiet_advance, Hq |].
    constructor; [reflexivity | constructor].
Qed.

Lemma armed_wf w t : armed w t -> wf w.
Proof.
  intros (ts0 & Hts & Hq & Href) i tm Hi Hk Hfin. rewrite Hts in Hi.
  apply lookup_snoc_Some in Hi as [[Hlt Hi] | [-> _]]; [| exact Href].
  exfalso. eapply Forall_lookup_1 in Hq; [| exact Hi].
  specialize (Hq Hk). congruence.
Qed.

Lemma wf_advance T w : wf w -> wf (advance T w).
Proof.
  intros Hwf i tm Hi Hk Hfin. simpl in *. rewrite map_lookup in Hi.
  destruct (timers w !! i) as [tm0 |] eqn:H0; [| discriminate].
  simpl in Hi. injection Hi as <-.
  destruct (due T tm0); [discriminate |].
  eapply Hwf; eassumption.
Qed.

Lemma wf_init t0 silence inactivity : wf (init t0 silence inactivity).
Proof. intros i tm Hi. destruct i; discriminate Hi. Qed.

(** Cancelling the timer the handler refers to leaves no silence timer
    pending. *)
Lemma cancel_quiet w :
  wf w -> quiet (cancel_if (silence_timer (self w)) (timers w)).
Proof.
  intros Hwf. apply Forall_lookup_2. intros j tm Hj Hk.
  destruct (finished tm) eqn:Hfin; [reflexivity |]. exfalso.
  destruct (silence_timer (self w)) as [i |] eqn:Href; simpl in Hj.
  - unfold cancel in Hj. destruct (decide (i = j)) as [-> | Hne].
    + rewrite list_lookup_alter_eq in Hj.
      destruct (timers w !! j); [| discriminate].
      injection Hj as <-. discriminate Hfin.
    + rewrite list_lookup_alter_ne in Hj by assumption.
      pose proof (Hwf j tm Hj Hk Hfin) as H. congruence.
  - pose proof (Hwf j tm Hj Hk Hfin) as H. congruence.
Qed.

Lemma reset_armed w :
  wf w -> armed (reset_silence_timer w) (now w + silence_timeout (self w)).
Proof.
  intros Hwf. exists (cancel_if (silence_timer (self w)) (timers w)).
  split; [reflexivity |]. split; [apply cancel_quiet, Hwf | reflexivity].
Qed.

Lemma quiet_cancel_if ref ts : quiet ts -> quiet (cancel_if ref ts).
Proof.
  intros Hq. destruct ref as [i |]; [| exact Hq].
  apply Forall_lookup_2. intros j tm Hj Hk. simpl in Hj. unfold cancel in Hj.
  destruct (decide (i = j)) as [-> | Hne].
  - rewrite list_lookup_alter_eq in Hj.
    destruct (ts !! j); [| discriminate]. injection Hj as <-. reflexivity.
  - rewrite list_lookup_alter_ne in Hj by assumption.
    eapply Forall_lookup_1 in Hq; [| exact Hj]. auto.
Qed.

Lemma stop_quiet w : wf w -> quiet (timers (stop w)).
Proof. intros Hwf. simpl. apply quiet_cancel_if, cancel_quiet, Hwf. Qed.

Lemma quiet_wf w : quiet (timers w) -> wf w.
Proof.
  intros Hq i tm Hi Hk Hfin. exfalso.
  eapply Forall_lookup_1 in Hq; [| exact Hi]. specialize (Hq Hk). congruence.
Qed.

Lemma wf_reset_inactivity w : wf w -> wf (reset_inactivity_timer w).
Proof.
  intros Hwf i tm Hi Hk Hfin. simpl in *.
  apply lookup_snoc_Some in Hi as [[_ Hi] | [_ <-]]; [| discriminate Hk].
  destruct (inactivity_timer (self w)) as [j |]; simpl in Hi;
    [| eapply Hwf; eassumption].
  unfold cancel in Hi. destruct (decide (j = i)) as [-> | Hne].
  - rewrite list_lookup_alter_eq in Hi.
    destruct (timers w !! i); [| discriminate].
    injection Hi as <-. discriminate Hfin.
  - rewrite list_lookup_alter_ne in Hi by assumption.
    eapply Hwf; eassumption.
Qed.

(** The invariant holds however the handler has been used. *)
Lemma wf_history t0 silence inactivity ops :
  wf (history t0 silence inactivity ops).
Proof.
  unfold history.
  assert (Hstep : forall w op, wf w -> wf (run_op w op)).
  { intros w [cb | cb | | | | | T] Hwf; simpl.
    - exact Hwf.
    - exact Hwf.
    - apply wf_reset_inactivity. eapply armed_wf, reset_armed, Hwf.
    - eapply armed_wf, reset_armed, Hwf.
    - apply wf_reset_inactivity, Hwf.
    - apply quiet_wf, stop_quiet, Hwf.
    - apply wf_advance, Hwf. }
  generalize (wf_init t0 silence inactivity).
  generalize (init t0 silence inactivity).
  induction ops as [| op ops IH]; intros w Hwf; simpl; auto.
Qed.

Lemma last_cons (t t' : Z) ts : List.last (t' :: ts) t = List.last ts t'.
Proof.
  revert t t'. induction ts as [| a ts IH]; intros t t'; [reflexivity |].
  change (List.last (a :: ts) t = List.last (a :: ts) t').
  rewrite !IH. reflexivity.
Qed.

(** The state after a burst of resets: one timer armed by the last of
    them, nothing run meanwhile. *)
Lemma resets_keep_one_armed d ts :
  forall w t,
    armed w (t + d) -> now w = t -> silence_timeout (self w) = d ->
    rapid d t ts ->
    armed (resets_at ts w) (List.last ts t + d)
    /\ silence_fires (resets_at ts w) = silence_fires w
    /\ on_silence_callback (self (resets_at ts w))
       = on_silence_callback (self w).
Proof.
  induction ts as [| t' ts IH]; intros w t Harm Hnow Hd Hrapid.
  - simpl. auto.
  - destruct Hrapid as (Hle & Hlt & Hrapid).
    destruct (advance_before t' w (t + d) Harm Hlt) as [Hfires Harm'].
    cbn [resets_at].
    set (w' := reset_silence_timer (advance t' w)).
    assert (Harm'' : armed w' (t' + d)).
    { replace (t' + d) with (now (advance t' w)
                             + silence_timeout (self (advance t' w))).
      - apply reset_armed. eapply armed_wf. exact Harm'.
      - simpl. rewrite Hd. lia. }
    destruct (IH w' t' Harm'') as (Ha & Hf & Hc);
      [simpl; lia | exact Hd | exact Hrapid |].
    rewrite last_cons. split; [exact Ha |]. split.
    + rewrite Hf. exact Hfires.
    + rewrite Hc. reflexivity.
Qed.

(** C8. Calls of [reset_silence_timer] at instants [t1 :: ts], each made
    before the timer armed by the previous one has expired, make the
    silence handler run exactly once, at the instant of the last call
    plus the silence timeout: until then the calls add nothing to the
    runs of the handler, from then on they have added this one run and
    no other, however long one waits; and if [stop] is called first, the
    handler does not run at all. *)
Theorem rapid_resets_fire_once (w : World) (t1 : Z) (ts : list Z) :
  wf w -> now w <= t1 -> rapid (silence_timeout (self w)) t1 ts ->
  let d := silence_timeout (self w) in
  let tN := List.last ts t1 in
  let wN := resets_at (t1 :: ts) w in
  (forall T,
      silence_fires (advance T wN)
      = silence_fires (advance t1 w)
        ++ (if tN + d <=? T then [silence_fire w (tN + d)] else [])) /\
  (forall T T',
      tN + d <= T ->
      silence_fires (advance T' (advance T wN)) = silence_fires (advance T wN)) /\
  (forall T, silence_fires (advance T (stop wN)) = silence_fires (advance t1 w)).
Proof.
  intros Hwf Hnow Hrapid d tN wN.
  set (w1 := reset_silence_timer (advance t1 w)).
  assert (Harm1 : armed w1 (t1 + d)).
  { replace (t1 + d) with (now (advance t1 w)
                           + silence_timeout (self (advance t1 w))).
    - apply reset_armed, wf_advance, Hwf.
    - simpl. fold d. lia. }
  destruct (resets_keep_one_armed d ts w1 t1 Harm1) as (Harm & Hfires & Hcb);
    [simpl; lia | reflexivity | exact Hrapid |].
  fold tN in Harm. change (resets_at ts w1) with wN in *.
  assert (Hfire : silence_fire wN (tN + d) = silence_fire w (tN + d)).
  { unfold silence_fire. rewrite Hcb. reflexivity. }
  split; [| split].
  - intros T. destruct (tN + d <=? T) eqn:HT.
    + apply Z.leb_le in HT.
      destruct (advance_after T wN _ Harm HT) as [-> _].
      rewrite Hfires, Hfire. reflexivity.
    + apply Z.leb_gt in HT.
      destruct (advance_before T wN _ Harm HT) as [-> _].
      rewrite Hfires, app_nil_r. reflexivity.
  - intros T T' HT. destruct (advance_after T wN _ Harm HT) as [_ Hq].
    apply advance_quiet, Hq.
  - intros T.
    destruct (advance_quiet T (stop wN)) as [-> _].
    + apply stop_quiet. eapply armed_wf. exact Harm.
    + exact Hfires.
Qed.

Lemma rapid_resets_fire_once_witness :
  silence_fires
    (advance 20 (resets_at [1; 2; 4] (set_silence_callback 7 (init 0 5 10))))
  = [{| fired_at := 9; fired_kind := Silence; called := Some 7%nat |}].
Proof.
  destruct (rapid_resets_fire_once
              (set_silence_callback 7 (init 0 5 10)) 1 [2; 4]) as [Hone _].
  - intros i tm Hi. destruct i; discriminate Hi.
  - simpl. lia.
  - simpl. lia.
  - exact (Hone 20).
Defined.

End TimeoutSpec.

(** ** The capture session *)

Module CaptureSpec.

Import Capture CaptureAux.

Section WithVosk.

Variable K : Model -> outcome unit.





End WithVosk.


Section Thread.

Variables silence_timeout inactivity_timeout : Z.
Variable callback : option Callback.
Variable language : list N.

Lemma last_chunk (text d : list N) (chunks : list (list N)) :
  List.last (text :: chunks) d = List.last chunks text.
Proof.
  revert text d. induction chunks as [| a chunks IH]; intros text d;
    [reflexivity |].
  change (List.last (a :: chunks) d = List.last (a :: chunks) text).
  rewrite !IH. reflexivity.
Qed.

Lemma partial_calls_cons text chunks ev r :
  emit callback language text false = (ev, r) ->
  partial_calls callback language (text :: chunks)
  = ev ++ partial_calls callback language chunks.
Proof.
  unfold emit, partial_calls. destruct callback; intros [= <- _]; reflexivity.
Qed.

(** When the loop is left, the callback has been given the texts
    committed over the turns made, in their order, and [final_result]
    holds the last of them. *)
Lemma loop_delivers frames :
  forall lat sst fr evs e,
    loop silence_timeout inactivity_timeout callback language
         frames lat sst fr = (evs, e) ->
    e <> StillRunning ->
    exists n,
      evs = partial_calls callback language (committed (take n frames))
      /\ forall fr', e = Finished fr' ->
                     fr' = List.last (committed (take n frames)) fr.
Proof.
  induction frames as [| f rest IH]; intros lat sst fr evs e Hloop Hend.
  - injection Hloop as <- <-. contradiction.
  - assert (Hzero : forall e0,
               ([] : list Event, e0) = (evs, e) ->
               (forall fr', e0 = Finished fr' -> fr' = fr) ->
               exists n,
                 evs = partial_calls callback language
                                     (committed (take n (f :: rest)))
                 /\ forall fr', e = Finished fr' ->
                                fr' = List.last (committed (take n (f :: rest))) fr).
    { intros e0 [= <- <-] Hfr. exists 0%nat. split.
      - unfold partial_calls. destruct callback; reflexivity.
      - exact Hfr. }
    assert (Hskip :
              committed [f] = [] ->
              forall lat' sst',
                loop silence_timeout inactivity_timeout callback language
                     rest lat' sst' fr = (evs, e) ->
                exists n,
                  evs = partial_calls callback language
                                      (committed (take n (f :: rest)))
                  /\ forall fr', e = Finished fr' ->
                                 fr' = List.last (committed (take n (f :: rest))) fr).
    { intros Hnone lat' sst' Hrest.
      destruct (IH _ _ _ _ _ Hrest Hend) as (n & He & Hf).
      exists (S n). change (take (S n) (f :: rest)) with ([f] ++ take n rest).
      unfold committed in *. rewrite omap_app, Hnone. auto. }
    cbn [loop] in Hloop.
    destruct (stop_set f);
      [apply (Hzero _ Hloop); intros ? [= ->]; reflexivity |].
    destruct (read f) as [[] | e0];
      [| apply (Hzero _ Hloop); intros ? [=]].
    destruct (silence_check silence_timeout inactivity_timeout f lat sst)
      as [[brk lat'] sst'].
    destruct brk; [apply (Hzero _ Hloop); intros ? [= ->]; reflexivity |].
    destruct (accept f) as [[[text |] |] | e0] eqn:Hacc.
    + destruct (truthy (strip text)) eqn:Htext.
      * assert (Hone : committed [f] = [text]).
        { unfold committed. simpl. rewrite Hacc, Htext. reflexivity. }
        destruct (emit callback language text false) as [ev [[] | e0]] eqn:Hemit.
        -- destruct (loop silence_timeout inactivity_timeout callback
                          language rest lat' sst' text) as [evs' e'] eqn:Hrest.
           injection Hloop as <- <-.
           destruct (IH _ _ _ _ _ Hrest Hend) as (n & He & Hf).
           exists (S n).
           change (take (S n) (f :: rest)) with ([f] ++ take n rest).
           unfold committed in *. rewrite omap_app, Hone. cbn [app].
           split.
           ++ rewrite (partial_calls_cons _ _ _ _ Hemit), He. reflexivity.
           ++ intros fr' Hfr'. rewrite last_chunk. apply Hf, Hfr'.
        -- injection Hloop as <- <-. exists 1%nat.
           change (take 1 (f :: rest)) with ([f] ++ take 0 rest).
           unfold committed in *. rewrite omap_app, Hone. simpl.
           split; [| intros ? [=]].
           rewrite (partial_calls_cons _ _ _ _ Hemit).
           unfold partial_calls. destruct callback; simpl;
             rewrite ?app_nil_r; reflexivity.
      * apply (Hskip ltac:(unfold committed; simpl; rewrite Hacc, Htext;
                           reflexivity) _ _ Hloop).
    + apply (Hskip ltac:(unfold committed; simpl; rewrite Hacc; reflexivity)
               _ _ Hloop).
    + apply (Hskip ltac:(unfold committed; simpl; rewrite Hacc; reflexivity)
               _ _ Hloop).
    + apply (Hzero _ Hloop). intros ? [=].
Qed.

Lemma partial_calls_not_final chunks :
  Forall (fun ev => is_final ev = false)
         (partial_calls callback language chunks).
Proof.
  unfold partial_calls. destruct callback; [| constructor].
  induction chunks as [| text chunks IH]; simpl; constructor; auto.
Qed.

(** In a list of intermediate results followed by at most one final
    result, a final result is the last element. *)
Lemma final_is_last (a b evs1 evs2 : list Event) (ev : Event) :
  Forall (fun e => is_final e = false) a ->
  (length b <= 1)%nat ->
  a ++ b = evs1 ++ ev :: evs2 -> is_final ev = true ->
  evs2 = [] /\ Forall (fun e => is_final e = false) evs1.
Proof.
  intros Ha Hb. revert evs1.
  induction Ha as [| y a Hy _ IH]; intros evs1 Heq Hfin.
  - destruct b as [| x [| ? ?]]; simpl in *; [| | lia].
    + destruct evs1; discriminate Heq.
    + destruct evs1 as [| ? [| ? ?]]; try discriminate Heq.
      injection Heq as _ <-. auto.
  - destruct evs1 as [| z evs1]; simpl in Heq; injection Heq as -> Heq.
    + congruence.
    + destruct (IH _ Heq Hfin) as [-> Hall]. auto.
Qed.

Lemma emit_final_length text ev r :
  emit callback language text true = (ev, r) -> (length ev <= 1)%nat.
Proof.
  unfold emit. destruct callback; intros [= <- _]; simpl; lia.
Qed.

Lemma emit_final_call text ev r :
  truthy (strip text) = true ->
  emit callback language text true = (ev, r) ->
  ev = final_call callback language text.
Proof.
  unfold emit, final_call. intros ->.
  destruct callback; intros [= <- _]; reflexivity.
Qed.

Lemma final_call_blank text :
  truthy (strip text) = false -> final_call callback language text = [].
Proof. unfold final_call. intros ->. destruct callback; reflexivity. Qed.

Lemma committed_cons f rest :
  committed (f :: rest)
  = match accept f with
    | Return (Some (Some text)) =>
        if truthy (strip text) then text :: committed rest else committed rest
    | _ => committed rest
    end.
Proof.
  unfold committed. simpl.
  destruct (accept f) as [[[text |] |] | e]; try reflexivity.
  destruct (truthy (strip text)); reflexivity.
Qed.

Lemma committed_app l1 l2 : committed (l1 ++ l2) = committed l1 ++ committed l2.
Proof. unfold committed. apply omap_app. Qed.

(** The two instants the loop keeps are those the chunks tell. *)
Lemma last_sound_snoc t0 made f :
  last_sound t0 (made ++ [f])
  = if loud f then clock f else last_sound t0 made.
Proof.
  unfold last_sound. rewrite List.filter_app. cbn [List.filter].
  destruct (loud f).
  - rewrite List.map_app. cbn [List.map]. apply List.last_last.
  - rewrite app_nil_r. reflexivity.
Qed.

Lemma quiet_run_snoc made f :
  quiet_run (made ++ [f]) = if loud f then [] else quiet_run made ++ [f].
Proof.
  induction made as [| g made IH].
  - cbn. destruct (loud f); reflexivity.
  - change ((g :: made) ++ [f]) with (g :: (made ++ [f])).
    cbn [quiet_run]. rewrite IH.
    change (forallb (fun g0 => negb (loud g0)) (g :: made ++ [f]))
      with (forallb (fun g0 => negb (loud g0)) ((g :: made) ++ [f])).
    rewrite List.forallb_app. cbn [forallb].
    destruct (loud f); cbn [negb andb].
    + rewrite andb_false_r. reflexivity.
    + rewrite !andb_true_r.
      destruct (negb (loud g) && forallb (fun g0 => negb (loud g0)) made);
        reflexivity.
Qed.

Lemma quiet_start_snoc made f :
  quiet_start (made ++ [f])
  = if loud f then None else Some (silence_began made f).
Proof.
  unfold silence_began, quiet_start. rewrite quiet_run_snoc.
  destruct (loud f); [reflexivity |].
  destruct (quiet_run made); reflexivity.
Qed.

Lemma silence_check_told t0 made f :
  silence_check silence_timeout inactivity_timeout f
                (last_sound t0 made) (quiet_start made)
  = (timed_out silence_timeout inactivity_timeout t0 made f,
     last_sound t0 (made ++ [f]), quiet_start (made ++ [f])).
Proof.
  unfold silence_check, timed_out.
  rewrite last_sound_snoc, quiet_start_snoc.
  fold (silence_began made f).
  destruct (loud f); [reflexivity |]. cbn [negb andb].
  destruct (negb (silence_began made f =? 0)
            && (clock f - silence_began made f >? silence_timeout))%Z;
    [reflexivity |].
  destruct (clock f - last_sound t0 made >? inactivity_timeout)%Z;
    reflexivity.
Qed.

(** Over turns on which the thread keeps listening and nothing raises,
    the loop delivers the texts committed, in their order, keeps the last
    of them, and goes on with the turns that follow. *)
Lemma loop_app t0 turns :
  forall made post fr,
    keeps_listening silence_timeout inactivity_timeout t0 made turns ->
    Forall undisturbed turns ->
    delivers callback language false (committed turns) ->
    loop silence_timeout inactivity_timeout callback language
         (turns ++ post) (last_sound t0 made) (quiet_start made) fr
    = (partial_calls callback language (committed turns)
         ++ fst (loop silence_timeout inactivity_timeout callback language
                      post (last_sound t0 (made ++ turns))
                      (quiet_start (made ++ turns))
                      (List.last (committed turns) fr)),
       snd (loop silence_timeout inactivity_timeout callback language
                 post (last_sound t0 (made ++ turns))
                 (quiet_start (made ++ turns))
                 (List.last (committed turns) fr))).
Proof.
  induction turns as [| g turns IH]; intros made post fr Hkeep Hall Hcb.
  - rewrite app_nil_r. cbn [app committed].
    replace (partial_calls callback language (committed []))
      with ([] : list Event)
      by (unfold partial_calls; destruct callback; reflexivity).
    destruct (loop _ _ _ _ post _ _ _). reflexivity.
  - destruct Hkeep as (Hstop & Htime & Hkeep).
    inversion Hall as [| ? ? (_ & Hread & Hacc) Hall']; subst.
    change ((g :: turns) ++ post) with (g :: (turns ++ post)).
    cbn [loop]. rewrite Hstop, Hread, silence_check_told, Htime.
    replace (made ++ g :: turns) with ((made ++ [g]) ++ turns)
      by (rewrite <- app_assoc; reflexivity).
    rewrite committed_cons in Hcb |- *.
    destruct (accept g) as [[[text |] |] | e] eqn:Ha;
      [| apply IH; assumption | apply IH; assumption
       | exfalso; exact (Hacc e eq_refl)].
    destruct (truthy (strip text)); [| apply IH; assumption].
    assert (Hcb' : delivers callback language false (committed turns)).
    { intros cb Hc. specialize (Hcb cb Hc). inversion Hcb; assumption. }
    rewrite (IH (made ++ [g]) post text Hkeep Hall' Hcb').
    rewrite last_chunk. unfold emit, partial_calls.
    destruct callback as [cb |] eqn:Hc.
    + specialize (Hcb cb eq_refl). inversion Hcb as [| ? ? Hret _]; subst.
      rewrite Hret. reflexivity.
    + reflexivity.
Qed.

(** The turn on which the session ends leaves the loop, with what it has
    kept. *)
Lemma loop_ends t0 made f rest lat_fr :
  ends_session silence_timeout inactivity_timeout t0 made f ->
  loop silence_timeout inactivity_timeout callback language
       (f :: rest) (last_sound t0 made) (quiet_start made) lat_fr
  = ([], Finished lat_fr).
Proof.
  intros [Hstop | [Hread Htime]]; cbn [loop].
  - rewrite Hstop. reflexivity.
  - destruct (stop_set f); [reflexivity |].
    rewrite Hread, silence_check_told, Htime. reflexivity.
Qed.

(** C6 (amended). When a recording thread ends, the service is idle
    again, whatever happened, and a final result, if one is delivered, is
    the last thing the thread delivers, everything before it being
    intermediate. A session ends on the first turn on which a stop is
    seen requested or, the chunk being quiet, the silence has lasted
    longer than the silence timeout or the last sound is older than the
    inactivity timeout. When it ends so and no exception occurs (the
    stream opens, the chunks are read, the recogniser accepts them and is
    flushed, and the callback returns on what it is given), the thread
    has done exactly this: the callback has received the texts committed
    over the turns made before that one, in their order, as intermediate
    results; then the recogniser has been flushed; then the callback has
    received as the final result the flushed text, or the last committed
    text when the flushed one is missing or blank, but only if this text
    is not blank. A session without any text, or without callback, ends
    without a final result. *)
Theorem session_end_delivery
        (open : outcome unit) (t0 : Z) (frames : list Frame)
        (final : outcome (option (list N))) (s : State) :
  (forall r,
      _record_audio_thread silence_timeout inactivity_timeout callback
                           language open t0 frames final s = Some r ->
      is_recording (state r) = false /\
      forall evs1 ev evs2,
        events r = evs1 ++ ev :: evs2 -> is_final ev = true ->
        evs2 = [] /\ Forall (fun e => is_final e = false) evs1) /\
  (forall made f rest flushed,
      frames = made ++ f :: rest ->
      keeps_listening silence_timeout inactivity_timeout t0 [] made ->
      ends_session silence_timeout inactivity_timeout t0 made f ->
      open = Return tt ->
      Forall undisturbed made ->
      final = Return flushed ->
      delivers callback language false (committed made) ->
      (truthy (strip (final_text (committed made) flushed)) = true ->
       delivers callback language true
                [final_text (committed made) flushed]) ->
      _record_audio_thread silence_timeout inactivity_timeout callback
                           language open t0 frames final s
      = Some {| events :=
                  partial_calls callback language (committed made)
                  ++ [Flushed]
                  ++ final_call callback language
                                (final_text (committed made) flushed);
                raised := None;
                state := finish s |}).
Proof.
  split.
  - intros r Hrun. unfold _record_audio_thread in Hrun.
    destruct open as [[] | e0].
    2:{ injection Hrun as <-. simpl. split; [reflexivity |].
        intros [| ? ?] ? ? H; discriminate H. }
    destruct (loop silence_timeout inactivity_timeout callback language
                   frames t0 None []) as [evs e] eqn:Hloop.
    destruct e as [fr | e0 |]; [| | discriminate].
    + destruct (loop_delivers frames _ _ _ _ _ Hloop ltac:(discriminate))
        as (n & -> & _).
      set (chunks := committed (take n frames)) in *.
      pose proof (partial_calls_not_final chunks) as Hpart.
      assert (Hflush : Forall (fun e => is_final e = false)
                              (partial_calls callback language chunks
                               ++ [Flushed])).
      { apply Forall_app. split; [exact Hpart |].
        constructor; [reflexivity | constructor]. }
      assert (Hnone : forall raised0 r0,
                 Some {| events := partial_calls callback language chunks
                                   ++ [Flushed];
                         raised := raised0; state := finish s |} = Some r0 ->
                 is_recording (state r0) = false /\
                 forall evs1 ev evs2,
                   events r0 = evs1 ++ ev :: evs2 -> is_final ev = true ->
                   evs2 = [] /\ Forall (fun e => is_final e = false) evs1).
      { intros raised0 r0 [= <-]. simpl. split; [reflexivity |].
        intros evs1 ev evs2 Heq.
        apply (final_is_last _ [] _ _ _ Hflush); [simpl; lia |].
        rewrite app_nil_r. exact Heq. }
      destruct final as [flushed | e0]; [| exact (Hnone _ _ Hrun)].
      destruct (truthy (strip _)); [| exact (Hnone _ _ Hrun)].
      destruct (emit callback language _ true) as [ev' o] eqn:Hemit.
      pose proof (emit_final_length _ _ _ Hemit) as Hlen.
      assert (Hsome : forall raised0,
                 Some {| events := partial_calls callback language chunks
                                   ++ [Flushed] ++ ev';
                         raised := raised0; state := finish s |} = Some r ->
                 is_recording (state r) = false /\
                 forall evs1 ev evs2,
                   events r = evs1 ++ ev :: evs2 -> is_final ev = true ->
                   evs2 = [] /\ Forall (fun e => is_final e = false) evs1).
      { intros raised0 [= <-]. simpl. split; [reflexivity |].
        intros evs1 ev evs2 Heq.
        apply (final_is_last _ ev' _ _ _ Hflush Hlen).
        rewrite <- app_assoc. exact Heq. }
      destruct o as [[] | e0]; exact (Hsome _ Hrun).
    + destruct (loop_delivers frames _ _ _ _ _ Hloop ltac:(discriminate))
        as (n & -> & _).
      injection Hrun as <-. simpl. split; [reflexivity |].
      intros evs1 ev evs2 Heq.
      apply (final_is_last _ [] _ _ _
               (partial_calls_not_final (committed (take n frames))));
        [simpl; lia |].
      rewrite app_nil_r. exact Heq.
  - intros made f rest flushed -> Hkeep Hend -> Hall -> Hcb Hfinal.
    unfold _record_audio_thread.
    change t0 with (last_sound t0 []) at 1.
    change (@None Z) with (quiet_start []).
    rewrite (loop_app t0 made [] (f :: rest) [] Hkeep Hall Hcb).
    cbn [app]. rewrite (loop_ends t0 made f rest _ Hend).
    cbn [fst snd]. rewrite app_nil_r.
    change (match flushed with
            | Some text => if truthy (strip text) then text
                           else List.last (committed made) []
            | None => List.last (committed made) []
            end) with (final_text (committed made) flushed).
    destruct (truthy (strip (final_text (committed made) flushed))) eqn:Htext.
    + unfold emit, final_call. rewrite Htext.
      destruct callback as [cb |] eqn:Hc; [| reflexivity].
      specialize (Hfinal eq_refl cb eq_refl).
      inversion Hfinal as [| ? ? Hret _]; subst. rewrite Hret. reflexivity.
    + rewrite final_call_blank by assumption. reflexivity.
Qed.

(** A session does end once the stop flag is seen set. *)
Lemma loop_ends_when_stopped frames :
  Exists (fun f => stop_set f = true) frames ->
  forall lat sst fr,
    snd (loop silence_timeout inactivity_timeout callback language
              frames lat sst fr) <> StillRunning.
Proof.
  induction frames as [| f rest IH]; intros Hex lat sst fr.
  - inversion Hex.
  - cbn [loop]. destruct (stop_set f) eqn:Hstop; [discriminate |].
    assert (Hrest : Exists (fun f => stop_set f = true) rest).
    { inversion Hex; subst; [congruence | assumption]. }
    destruct (read f) as [[] | ?]; [| discriminate].
    destruct (silence_check _ _ f lat sst) as [[[] lat'] sst'];
      [discriminate |].
    destruct (accept f) as [[[text |] |] | ?]; try apply IH, Hrest;
      [| discriminate].
    destruct (truthy (strip text)); [| apply IH, Hrest].
    destruct (emit callback language text false) as [ev [[] | ?]];
      [| discriminate].
    specialize (IH Hrest lat' sst' text).
    destruct (loop _ _ _ _ rest lat' sst' text). exact IH.
Qed.

Lemma thread_ends_when_stopped open t0 frames final s :
  Exists (fun f => stop_set f = true) frames ->
  exists r, _record_audio_thread silence_timeout inactivity_timeout callback
                                 language open t0 frames final s = Some r.
Proof.
  intros Hex. unfold _record_audio_thread.
  destruct open; [| eauto].
  pose proof (loop_ends_when_stopped frames Hex t0 None []) as Hend.
  destruct (loop _ _ _ _ frames t0 None []) as [evs [fr | e0 |]];
    [| eauto | contradiction].
  destruct final as [flushed |]; [| eauto].
  destruct (truthy _); [| eauto].
  destruct (emit _ _ _ _) as [ev [[] | ?]]; eauto.
Qed.

End Thread.

Lemma session_end_delivery_witness :
  _record_audio_thread 5 10 (Some Scenarios.listener) en (Return tt) 0
    [Scenarios.hello_turn; Scenarios.stop_turn] (Return None)
    Scenarios.capturing
  = Some {| events := [Called (py "hello") en false; Flushed;
                       Called (py "hello") en true];
            raised := None;
            state := finish Scenarios.capturing |}.
Proof.
  destruct (session_end_delivery 5 10 (Some Scenarios.listener) en (Return tt)
              0 [Scenarios.hello_turn; Scenarios.stop_turn] (Return None)
              Scenarios.capturing) as [_ Hends].
  apply (Hends [Scenarios.hello_turn] Scenarios.stop_turn [] None).
  - reflexivity.
  - simpl. auto.
  - left. reflexivity.
  - reflexivity.
  - repeat constructor. discriminate.
  - reflexivity.
  - intros cb [= <-]. repeat constructor.
  - intros _ cb [= <-]. repeat constructor.
Defined.

(** C6, as stated, fails for a session in which nothing is recognised:
    it is stopped, the recogniser is flushed and gives an empty text, and
    the thread ends, idle again, without having called the callback at
    all. *)
Lemma session_end_delivery_counterexample :
  exists r,
    _record_audio_thread 5 10 (Some Scenarios.listener) en (Return tt) 0
      [Scenarios.silent_turn; Scenarios.stop_turn] (Return (Some []))
      Scenarios.capturing = Some r
    /\ raised r = None
    /\ is_recording (state r) = false
    /\ events r = [Flushed]
    /\ ~ exists text language, In (Called text language true) (events r).
Proof.
  eexists. split; [reflexivity |]. repeat split.
  intros (text & language & [H | []]). discriminate H.
Qed.

End CaptureSpec.

(** ** The assistant pipeline *)

Module AssistantSpec.

Import Assistant.

Section WithEnv.

Variable str_lower : list N -> list N.
Variable env : Env.

(** The translation step never raises. *)
Lemma translate_response_returns g english_response response_lang :
  exists translated,
    translate_response str_lower env g english_response response_lang
    = Return translated.
Proof.
  unfold translate_response, translate_with.
  destruct (_translator g); [| eauto].
  destruct (negb _); [| eauto].
  apply TranslationSpec.translate_returns.
Qed.

(** C9. When the assistant has answered and the speech synthesis
    raises, the response carries the translated answer as its text, no
    audio and no error. *)
Theorem tts_failure_is_swallowed
        (english_query source_lang response_lang : list N) (g g' : Globals)
        (ai_assistant : AIAssistant) (tts : TextToSpeech)
        (english_response translated_response e : list N) :
  get_ai_assistant env g = (Return (Some ai_assistant), g') ->
  generate_response ai_assistant english_query en = Return english_response ->
  translate_response str_lower env g' english_response response_lang
  = Return translated_response ->
  _tts g' = Some tts ->
  speak tts translated_response response_lang = Raise e ->
  _process_query_sync str_lower env english_query source_lang response_lang g
  = ({| text := translated_response; audio := None;
        source_language := source_lang; target_language := response_lang;
        error := None |}, g').
Proof.
  intros Hget Hgen Htr Htts Hspeak. unfold _process_query_sync.
  rewrite Hget, Hgen, Htr. unfold synthesize. rewrite Htts, Hspeak.
  reflexivity.
Qed.

End WithEnv.

Lemma tts_failure_is_swallowed_witness :
  _process_query_sync ascii_lower Scenarios.assistant_env
                      (py "hi") en ko Scenarios.not_initialized
  = ({| text := py "<ok>"; audio := None; source_language := en;
        target_language := ko; error := None |}, Scenarios.initialized).
Proof.
  apply (tts_failure_is_swallowed ascii_lower Scenarios.assistant_env
           (py "hi") en ko Scenarios.not_initialized Scenarios.initialized
           Scenarios.ok_assistant Scenarios.failing_tts (py "ok") (py "<ok>")
           (py "piper crashed")); vm_compute; reflexivity.
Defined.

End AssistantSpec.

(** ** The offline recogniser *)

Module RecognizerSpec.

Import Recognizer.

Section WithEnv.

Variable env : Env.

Lemma load_model_vosk language self :
  vosk_available (_load_model env language self) = vosk_available self.
Proof.
  unfold _load_model. destruct (negb _); [reflexivity |].
  destruct (model_paths self !! language); [| reflexivity].
  destruct (load env _); reflexivity.
Qed.

Lemma download_model_vosk language self :
  vosk_available (_download_model env language self) = vosk_available self.
Proof.
  unfold _download_model. destruct (negb _); [reflexivity |].
  destruct (negb _); [reflexivity |].
  destruct (path_exists env _); [rewrite load_model_vosk; reflexivity |].
  destruct (fetch env language); [rewrite load_model_vosk |]; reflexivity.
Qed.

(** The offline part of [recognize] once the model is chosen. *)
Lemma recognize_offline_chosen audio_data language self self1 chosen :
  vosk_available self = true ->
  choose_model env language self = (self1, chosen) ->
  recognize_offline env audio_data language self
  = match chosen with
    | None => (Return model_not_available, self1)
    | Some language =>
        match recognize_block env audio_data language self1 with
        | (Raise _, self) => (Return recognition_error, self)
        | (Return t, self) => (Return t, self)
        end
    end.
Proof.
  intros Hv Hsel. unfold recognize_offline. rewrite Hv. simpl.
  rewrite Hsel. reflexivity.
Qed.

Lemma recognize_offline_returns audio_data language self :
  exists t self',
    recognize_offline env audio_data language self = (Return t, self').
Proof.
  destruct (vosk_available self) eqn:Hv.
  - destruct (choose_model env language self) as [self1 chosen] eqn:Hsel.
    rewrite (recognize_offline_chosen _ _ _ _ _ Hv Hsel).
    destruct chosen as [l |]; [| eauto].
    destruct (recognize_block env audio_data l self1) as [[t | e] s]; eauto.
  - unfold recognize_offline. rewrite Hv. simpl. eauto.
Qed.

(** C10 (amended). [recognize] never raises: it always returns a string.
    Offline: without the Vosk library the string is the "unavailable"
    message; when no model is loaded for the language and the attempt the
    call makes to download and load one does not give one, then, with no
    English model either, it is the "model not available" message, and
    with the English model loaded the call goes on as a call for English
    and returns what the recogniser built from the English model
    transcribes; an exception inside the recognition gives the "error"
    message. The service-level
    [create_recognizer] makes the same substitution: without a model for
    the language it builds the recogniser from the English model, and
    returns [None] when there is no model at all. *)
Theorem recognize_degrades_to_english
        (audio_data language : list N) (online : bool)
        (self : SpeechRecognizer) :
  (exists t self',
      recognize env audio_data language online self = (Return t, self')) /\
  (vosk_available self = false ->
   recognize env audio_data language false self = (Return unavailable, self)) /\
  (vosk_available self = true ->
   models self !! language = None ->
   models (_download_model env language self) !! language = None ->
   (models (_download_model env language self) !! en = None ->
    recognize env audio_data language false self
    = (Return model_not_available, _download_model env language self)) /\
   (forall m,
       models (_download_model env language self) !! en = Some m ->
       recognize env audio_data language false self
       = recognize env audio_data en false (_download_model env language self)
       /\ forall recognizer t,
           recognizers (_download_model env language self) !! en = None ->
           new_kaldi env m = Return recognizer ->
           transcribe recognizer audio_data = Return t ->
           fst (recognize env audio_data language false self) = Return t)) /\
  (forall m e,
      vosk_available self = true ->
      models self !! language = Some m ->
      fst (recognize_block env audio_data language self) = Raise e ->
      fst (recognize env audio_data language false self)
      = Return recognition_error) /\
  (forall (K : Capture.Model -> outcome unit) (s : Capture.State),
      Capture.dict_get language (Capture.models s) = None ->
      (Capture.models s = [] ->
       Capture.create_recognizer K language s = (Return None, s)) /\
      (forall m,
          Capture.dict_get en (Capture.models s) = Some m ->
          K m = Return tt ->
          exists r s',
            Capture.create_recognizer K language s = (Return (Some r), s')
            /\ Capture.of_model r = m
            /\ Capture.current_language s' = Some en)).
Proof.
  split; [| split; [| split; [| split]]].
  - unfold recognize. destruct online; [| apply recognize_offline_returns].
    destruct (recognize_online env audio_data language);
      [eauto | apply recognize_offline_returns].
  - intros Hv. unfold recognize, recognize_offline. rewrite Hv. reflexivity.
  - intros Hv Hnone Hstill. set (self1 := _download_model env language self) in *.
    assert (Hv1 : vosk_available self1 = true).
    { unfold self1. rewrite download_model_vosk. exact Hv. }
    split.
    + intros Hen. unfold recognize.
      rewrite (recognize_offline_chosen audio_data language self self1 None);
        [reflexivity | exact Hv |].
      unfold choose_model.
      rewrite Hnone. fold self1. rewrite Hstill, Hen. reflexivity.
    + intros m Hen.
      assert (Heq : recognize env audio_data language false self
                    = recognize env audio_data en false self1).
      { unfold recognize.
        rewrite (recognize_offline_chosen audio_data language self self1 (Some en));
          [| exact Hv | unfold choose_model; rewrite Hnone; fold self1;
                       rewrite Hstill, Hen; reflexivity].
        rewrite (recognize_offline_chosen audio_data en self1 self1 (Some en));
          [reflexivity | exact Hv1
          | unfold choose_model; rewrite Hen; reflexivity]. }
      split; [exact Heq |].
      intros recognizer t Hrec Hk Ht. rewrite Heq. unfold recognize.
      rewrite (recognize_offline_chosen audio_data en self1 self1 (Some en));
        [| exact Hv1 | unfold choose_model; rewrite Hen; reflexivity].
      unfold recognize_block. rewrite Hrec, Hen, Hk, Ht. reflexivity.
  - intros m e Hv Hm Hraise. unfold recognize.
    rewrite (recognize_offline_chosen audio_data language self self (Some language));
      [| exact Hv | unfold choose_model; rewrite Hm; reflexivity].
    destruct (recognize_block env audio_data language self) as [[t | e'] s];
      [discriminate Hraise | reflexivity].
  - intros K s Hnone. unfold Capture.create_recognizer. rewrite Hnone. split.
    + intros Hempty. rewrite Hempty. reflexivity.
    + intros m Hen Hk. rewrite Hen. simpl. rewrite Hen, Hk.
      eexists _, _. split; [reflexivity |]. split; reflexivity.
Qed.

End WithEnv.

Lemma recognize_degrades_to_english_witness :
  fst (recognize Scenarios.no_download (py "pcm") ko false Scenarios.english_loaded)
  = Return (py "hello").
Proof.
  destruct (recognize_degrades_to_english Scenarios.no_download (py "pcm") ko
              false Scenarios.english_loaded) as (_ & _ & Hfall & _).
  destruct Hfall as [_ Hen];
    [reflexivity | vm_compute; reflexivity | vm_compute; reflexivity |].
  destruct (Hen 0%nat) as [_ Htext]; [vm_compute; reflexivity |].
  apply (Htext Scenarios.hello_kaldi);
    [vm_compute; reflexivity | reflexivity | reflexivity].
Defined.

(** C10, as stated, fails when the model asked for can be obtained: with
    only the English model loaded, a call for Korean downloads and loads
    the Korean model and transcribes with it, not with the English one. *)
Lemma recognize_degrades_to_english_counterexample :
  models Scenarios.english_loaded !! ko = None /\
  models Scenarios.english_loaded !! en = Some 0%nat /\
  fst (recognize Scenarios.download_works (py "pcm") ko false
                 Scenarios.english_loaded) = Return (py "annyeong") /\
  fst (recognize Scenarios.download_works (py "pcm") en false
                 Scenarios.english_loaded) = Return (py "hello") /\
  models (snd (recognize Scenarios.download_works (py "pcm") ko false
                         Scenarios.english_loaded)) !! ko = Some 1%nat /\
  py "annyeong" <> py "hello".
Proof.
  repeat split; try (vm_compute; reflexivity). py_neq.
Qed.

End RecognizerSpec.

(* ===================================================================== *)
(** * Further properties *)
(* ===================================================================== *)

(** ** Texts and the language detector *)

Module TextProps.

Import RouterAux.

Lemma lstrip_nil (s : list N) : lstrip s = [] <-> whitespace_only s.
Proof.
  unfold whitespace_only. induction s as [| c s IH]; simpl.
  - split; [constructor | reflexivity].
  - destruct (isspace c) eqn:Hc.
    + rewrite IH. split; [constructor; assumption | inversion 1; assumption].
    + split; [discriminate | inversion 1; congruence].
Qed.

Lemma strip_nil (s : list N) : strip s = [] <-> whitespace_only s.
Proof.
  unfold strip. split.
  - intros H. apply lstrip_nil.
    destruct (lstrip s) as [| c s'] eqn:Hl; [reflexivity |].
    exfalso.
    assert (Hc : isspace c = false).
    { destruct s as [| a s0]; [discriminate |].
      clear H. revert a Hl. induction s0 as [| b s0 IH]; intros a Hl; simpl in Hl.
      - destruct (isspace a) eqn:Ha; [discriminate | congruence].
      - destruct (isspace a) eqn:Ha; [| congruence].
        apply (IH b). exact Hl. }
    apply (f_equal (@rev N)) in H. rewrite rev_involutive in H. simpl in H.
    apply lstrip_nil in H. unfold whitespace_only in H.
    change (rev (c :: s')) with (rev s' ++ [c]) in H.
    apply Forall_app in H as [_ H]. inversion H; congruence.
  - intros H. apply lstrip_nil in H. rewrite H. reflexivity.
Qed.

(** The guard [not text or not text.strip()] holds exactly for the texts
    without a non-whitespace character. *)
Lemma blank_whitespace_only (text : list N) :
  blank text = true <-> whitespace_only text.
Proof.
  unfold blank. rewrite orb_true_iff, !negb_true_iff. split.
  - intros [H | H].
    + destruct text; [constructor | discriminate].
    + apply strip_nil. destruct (strip text); [reflexivity | discriminate].
  - intros H. right. apply strip_nil in H. rewrite H. reflexivity.
Qed.

Lemma detect_supported
      (str_lower : list N -> list N) (self : Detector.LanguageDetector)
      (text : list N) :
  Detector.detect str_lower self text ∈ Detector.supported_languages.
Proof. apply TranslationFacts.detect_in_supported. Qed.

Lemma detect_language_supported
      (str_lower : list N -> list N) (env : Translation.Env) (text : list N) :
  Translation.detect_language str_lower env text ∈ Detector.supported_languages.
Proof.
  unfold Translation.detect_language. destruct (blank text); [left |].
  destruct (Translation.new_detector env); [apply detect_supported | left].
Qed.

(** X1. Whatever the FastText model answers, and whether it is there or
    not, [detect] returns one of the three supported codes; so does
    [Translator.detect_language], also when no detector can be built. *)
Theorem detect_is_supported
        (str_lower : list N -> list N) (self : Detector.LanguageDetector)
        (env : Translation.Env) (text : list N) :
  Detector.detect str_lower self text ∈ Detector.supported_languages /\
  Translation.detect_language str_lower env text ∈ Detector.supported_languages.
Proof.
  split; [apply detect_supported | apply detect_language_supported].
Qed.

End TextProps.

(** ** The translation router, continued *)

Module RouterProps.

Import Translation TranslationFacts RouterAux.

Lemma translate_shape str_lower env self text from_lang to_lang online :
  blank text = false ->
  resolve_source str_lower env text from_lang to_lang <> to_lang ->
  translate str_lower env self text from_lang to_lang online
  = bind (if online
          then online_block env text
                 (resolve_source str_lower env text from_lang to_lang) to_lang
          else ret None)
         (fun on => match on with
                    | Some translated => ret translated
                    | None => offline_tail self text
                                (resolve_source str_lower env text from_lang to_lang)
                                to_lang
                    end).
Proof.
  intros Hb Hne. unfold translate. rewrite Hb.
  rewrite bool_decide_eq_false_2 by assumption. reflexivity.
Qed.

(** X2. A text that is empty or made of whitespace only is answered with
    the empty string, for every pair of languages and in both modes,
    without any call of an engine; its language is reported as English by
    the detector and by the translator. *)
Theorem whitespace_is_not_translated
        (str_lower : list N -> list N) (env : Env) (self : Translator)
        (detector : Detector.LanguageDetector)
        (text from_lang to_lang : list N) (online : bool) :
  whitespace_only text ->
  translate str_lower env self text from_lang to_lang online = ([], Return [])
  /\ Detector.detect str_lower detector text = en
  /\ detect_language str_lower env text = en.
Proof.
  intros H. apply TextProps.blank_whitespace_only in H.
  unfold translate, Detector.detect, detect_language. rewrite H. auto.
Qed.

Lemma whitespace_is_not_translated_witness :
  translate ascii_lower Scenarios.offline_env Scenarios.ko_en_tl
            [32; 9; 10; 12288] ko tl true = ([], Return []).
Proof.
  apply (whitespace_is_not_translated ascii_lower Scenarios.offline_env
           Scenarios.ko_en_tl Scenarios.heuristic_detector [32; 9; 10; 12288]
           ko tl true).
  unfold whitespace_only. repeat constructor.
Defined.

(** X3. With the offline library available and the direct pair installed,
    an offline call for an explicit source makes exactly one engine call,
    on the text as given, and returns what the engine returns; if that
    engine raises, the call returns the message naming the pair. *)
Theorem direct_pair_single_hop
        (str_lower : list N -> list N) (env : Env) (self : Translator)
        (text from_lang to_lang : list N) (f : list N -> outcome (list N)) :
  blank text = false -> from_lang <> auto -> from_lang <> to_lang ->
  argos_available self = true ->
  translation_pairs self !! pair_key from_lang to_lang = Some f ->
  (forall r, f text = Return r ->
             translate str_lower env self text from_lang to_lang false
             = ([EngineCall (pair_key from_lang to_lang) text], Return r)) /\
  (forall e, f text = Raise e ->
             translate str_lower env self text from_lang to_lang false
             = ([EngineCall (pair_key from_lang to_lang) text],
                Return (not_available from_lang to_lang))).
Proof.
  intros Hb Ha Hne Hav Hf.
  rewrite (translate_offline str_lower env self text from_lang to_lang)
    by assumption.
  unfold offline_block. rewrite Hf.
  split; intros x Hx; rewrite Hx; reflexivity.
Qed.

Lemma direct_pair_single_hop_witness :
  translate ascii_lower Scenarios.offline_env Scenarios.ko_en_tl
            (py "hi") ko en false
  = ([EngineCall (pair_key ko en) (py "hi")], Return (py "<hi>")).
Proof.
  destruct (direct_pair_single_hop ascii_lower Scenarios.offline_env
              Scenarios.ko_en_tl (py "hi") ko en Scenarios.bracket) as [Hok _];
    [ reflexivity | py_neq | py_neq | reflexivity | vm_compute; reflexivity | ].
  apply Hok. reflexivity.
Defined.

(** X4. In online mode, for a text that is to be translated, the online
    service is called first, once, with the resolved source: a non-empty
    answer is returned as it is and no offline engine is called; when the
    service raises or answers with the empty string, the call goes on
    exactly as the offline call does. *)
Theorem online_first_then_offline
        (str_lower : list N -> list N) (env : Env) (self : Translator)
        (text from_lang to_lang : list N) :
  blank text = false ->
  resolve_source str_lower env text from_lang to_lang <> to_lang ->
  let src := resolve_source str_lower env text from_lang to_lang in
  (forall t, translate_online env text src to_lang = Return t ->
             truthy t = true ->
             translate str_lower env self text from_lang to_lang true
             = ([OnlineCall text src to_lang], Return t)) /\
  ((exists e, translate_online env text src to_lang = Raise e)
   \/ translate_online env text src to_lang = Return [] ->
   translate str_lower env self text from_lang to_lang true
   = (OnlineCall text src to_lang
        :: events (translate str_lower env self text from_lang to_lang false),
      result (translate str_lower env self text from_lang to_lang false))).
Proof.
  intros Hb Hne src. fold src in Hne.
  rewrite !(translate_shape str_lower env self text from_lang to_lang _ Hb Hne).
  fold src. set (tail := offline_tail self text src to_lang).
  rewrite bind_ret_l. unfold online_block. split.
  - intros t Ht Htruthy. rewrite Ht. unfold call, bind, try_except, ret.
    rewrite Htruthy. reflexivity.
  - intros Hfail.
    assert (Hnone :
      try_except
        (bind (call (OnlineCall text src to_lang)
                    (translate_online env text src to_lang))
              (fun translated =>
                 ret (if truthy translated then Some translated else None)))
        (fun _ => ret None)
      = ([OnlineCall text src to_lang], Return None)).
    { destruct Hfail as [[e ->] | ->]; reflexivity. }
    rewrite Hnone. unfold bind. destruct tail. reflexivity.
Qed.

Lemma online_first_then_offline_witness :
  translate ascii_lower Scenarios.offline_env Scenarios.ko_en_tl
            (py "hi") ko tl true
  = ([OnlineCall (py "hi") ko tl; EngineCall (pair_key ko en) (py "hi");
      EngineCall (pair_key en tl) (py "<hi>")], Return (py "<<hi>>")).
Proof.
  destruct (online_first_then_offline ascii_lower Scenarios.offline_env
              Scenarios.ko_en_tl (py "hi") ko tl) as [_ Hfail];
    [ reflexivity | py_neq | ].
  apply Hfail. left. eexists. reflexivity.
Defined.

Lemma events_bind {A B} (m : M A) (f : A -> M B) :
  events (bind m f)
  = events m ++ match result m with
                | Return a => events (f a)
                | Raise _ => []
                end.
Proof.
  destruct m as [l [a | e]]; simpl.
  - destruct (f a). reflexivity.
  - rewrite app_nil_r. reflexivity.
Qed.

Lemma events_try_except_ret {A} (m : M A) (d : A) :
  events (try_except m (fun _ => ret d)) = events m.
Proof.
  destruct m as [l [a | e]]; simpl; [| rewrite app_nil_r]; reflexivity.
Qed.

Lemma run_hops_engine_calls self hops r :
  Forall (fun ev => is_engine_call ev = true) (events (run_hops self hops r)).
Proof.
  revert r. induction hops as [| [src tgt] rest IH]; intros r.
  - constructor.
  - cbn [run_hops].
    destruct (translation_pairs self !! pair_key src tgt) as [f |];
      [| constructor].
    destruct (f r) as [r' | e].
    + rewrite bind_call_return. constructor; [reflexivity | apply IH].
    + rewrite bind_call_raise. repeat constructor.
Qed.

Lemma offline_block_engine_calls self text src to_lang :
  Forall (fun ev => is_engine_call ev = true)
         (events (offline_block self text src to_lang))
  /\ (length (events (offline_block self text src to_lang)) <= 2)%nat.
Proof.
  unfold offline_block.
  destruct (translation_pairs self !! pair_key src to_lang) as [f |].
  - destruct (f text) as [r | e].
    + rewrite bind_call_return. simpl. split; [repeat constructor | lia].
    + rewrite bind_call_raise. simpl. split; [repeat constructor | lia].
  - pose proof (intermediate_length src to_lang) as Hlen.
    destruct (_get_intermediate_translations src to_lang) as [| hop rest];
      [simpl; split; [constructor | lia] |].
    rewrite events_bind.
    assert (Hnil : match result (run_hops self (hop :: rest) text) with
                   | Return a => events (ret (Some a))
                   | Raise _ => []
                   end = ([] : list Event))
      by (destruct (result _); reflexivity).
    rewrite Hnil, app_nil_r. split; [apply run_hops_engine_calls |].
    etransitivity; [apply run_hops_events_length | exact Hlen].
Qed.

Lemma offline_tail_engine_calls self text src to_lang :
  Forall (fun ev => is_engine_call ev = true)
         (events (offline_tail self text src to_lang))
  /\ (length (events (offline_tail self text src to_lang)) <= 2)%nat.
Proof.
  unfold offline_tail. rewrite events_bind.
  assert (Hnil : forall o : outcome (option (list N)),
             match o with
             | Return a => events (match a with
                                   | Some translated => ret translated
                                   | None => ret (not_available src to_lang)
                                   end)
             | Raise _ => []
             end = ([] : list Event))
    by (intros [[t |] | e]; reflexivity).
  rewrite Hnil, app_nil_r.
  destruct (argos_available self); [| simpl; split; [constructor | lia]].
  rewrite events_try_except_ret. apply offline_block_engine_calls.
Qed.

(** X5. Whatever the arguments and the engines, a call of [translate] calls
    the online service at most once, only in online mode and before any
    offline engine, and calls offline engines at most twice. *)
Theorem engine_calls_are_bounded
        (str_lower : list N -> list N) (env : Env) (self : Translator)
        (text from_lang to_lang : list N) (online : bool) :
  exists on engines,
    events (translate str_lower env self text from_lang to_lang online)
    = on ++ engines
    /\ (length on <= 1)%nat
    /\ Forall (fun ev => is_engine_call ev = false) on
    /\ (online = false -> on = [])
    /\ Forall (fun ev => is_engine_call ev = true) engines
    /\ (length engines <= 2)%nat.
Proof.
  assert (Hnone : exists on engines : list Event,
             [] = on ++ engines /\ (length on <= 1)%nat
             /\ Forall (fun ev => is_engine_call ev = false) on
             /\ (online = false -> on = [])
             /\ Forall (fun ev => is_engine_call ev = true) engines
             /\ (length engines <= 2)%nat).
  { exists [], []. simpl. repeat split; auto; constructor. }
  destruct (blank text) eqn:Hb.
  { unfold translate. rewrite Hb. exact Hnone. }
  destruct (decide (resolve_source str_lower env text from_lang to_lang = to_lang))
    as [Heq | Hne].
  { unfold translate. rewrite Hb, bool_decide_eq_true_2 by assumption.
    exact Hnone. }
  rewrite (translate_shape _ _ _ _ _ _ _ Hb Hne).
  set (src := resolve_source str_lower env text from_lang to_lang).
  destruct (offline_tail_engine_calls self text src to_lang) as [Hall Hlen].
  destruct online.
  - unfold online_block.
    destruct (translate_online env text src to_lang) as [t | e].
    + destruct (truthy t) eqn:Ht.
      * exists [OnlineCall text src to_lang], [].
        unfold call, bind, try_except, ret. rewrite Ht. simpl.
        repeat split; try discriminate; try lia; repeat constructor.
      * exists [OnlineCall text src to_lang],
               (events (offline_tail self text src to_lang)).
        unfold call, bind, try_except, ret. rewrite Ht. simpl.
        destruct (offline_tail self text src to_lang). simpl in *.
        repeat split; try discriminate; try lia; auto; repeat constructor.
    + exists [OnlineCall text src to_lang],
             (events (offline_tail self text src to_lang)).
      unfold call, bind, try_except, ret. simpl.
      destruct (offline_tail self text src to_lang). simpl in *.
      repeat split; try discriminate; try lia; auto; repeat constructor.
  - exists [], (events (offline_tail self text src to_lang)).
    rewrite bind_ret_l. simpl.
    repeat split; auto; try lia; constructor.
Qed.

End RouterProps.

(** ** The timeout handler, continued *)

Module TimerProps.

Import Timeout TimerAux TimeoutSpec.
Local Open Scope Z_scope.

Lemma cancel_lookup j ts i tm :
  cancel j ts !! i = Some tm ->
  exists tm0, ts !! i = Some tm0 /\ function tm = function tm0
              /\ (finished tm = false -> i <> j /\ tm = tm0).
Proof.
  unfold cancel. intros H. destruct (decide (j = i)) as [-> | Hne].
  - rewrite list_lookup_alter_eq in H.
    destruct (ts !! i) as [tm0 |]; [| discriminate]. injection H as <-.
    exists tm0. split; [reflexivity |]. split; [reflexivity |]. discriminate.
  - rewrite list_lookup_alter_ne in H by assumption.
    exists tm. split; [exact H |]. split; [reflexivity |].
    intros _. split; [congruence | reflexivity].
Qed.

Lemma cancel_if_lookup ref ts i tm :
  cancel_if ref ts !! i = Some tm ->
  exists tm0, ts !! i = Some tm0 /\ function tm = function tm0
              /\ (finished tm = false -> ref <> Some i /\ tm = tm0).
Proof.
  destruct ref as [j |]; simpl.
  - intros H. destruct (cancel_lookup _ _ _ _ H) as (tm0 & H0 & Hk & Hf).
    exists tm0. split; [exact H0 |]. split; [exact Hk |].
    intros Hfin. destruct (Hf Hfin). split; congruence.
  - intros H. exists tm. split; [exact H |]. split; [reflexivity |].
    intros _. split; [discriminate | reflexivity].
Qed.

Lemma cancel_if_keeps ref ts j tm0 :
  ts !! j = Some tm0 ->
  exists tm, cancel_if ref ts !! j = Some tm /\ function tm = function tm0.
Proof.
  intros H. destruct ref as [i |]; simpl; [| eauto].
  unfold cancel. destruct (decide (i = j)) as [-> | Hne].
  - rewrite list_lookup_alter_eq, H. simpl. eauto.
  - rewrite list_lookup_alter_ne by assumption. eauto.
Qed.

Lemma cancel_if_length ref ts : length (cancel_if ref ts) = length ts.
Proof. destruct ref; [apply length_alter | reflexivity]. Qed.

Lemma tracked_init t0 silence inactivity : tracked (init t0 silence inactivity).
Proof.
  split.
  - intros i tm Hi. destruct i; discriminate Hi.
  - intros [] j Hj; discriminate Hj.
Qed.

Lemma tracked_reset_silence w : tracked w -> tracked (reset_silence_timer w).
Proof.
  intros [Hp Hr]. split.
  - intros i tm Hi Hfin. simpl in Hi.
    apply lookup_snoc_Some in Hi as [[_ Hi] | [-> <-]]; [| reflexivity].
    destruct (cancel_if_lookup _ _ _ _ Hi) as (tm0 & H0 & Hk & Hf).
    destruct (Hf Hfin) as [Hne ->].
    pose proof (Hp i tm0 H0 Hfin) as Href.
    destruct (function tm0); simpl in *; [congruence | exact Href].
  - intros k j Hj. simpl.
    destruct k; simpl in Hj.
    + injection Hj as <-. eexists.
      split; [apply list_lookup_middle; reflexivity | reflexivity].
    + destruct (Hr Inactivity j Hj) as (tm0 & H0 & Hk).
      destruct (cancel_if_keeps (silence_timer (self w)) _ _ _ H0)
        as (tm & Htm & Hk').
      exists tm. split; [apply lookup_app_l_Some, Htm | congruence].
Qed.

Lemma tracked_reset_inactivity w : tracked w -> tracked (reset_inactivity_timer w).
Proof.
  intros [Hp Hr]. split.
  - intros i tm Hi Hfin. simpl in Hi.
    apply lookup_snoc_Some in Hi as [[_ Hi] | [-> <-]]; [| reflexivity].
    destruct (cancel_if_lookup _ _ _ _ Hi) as (tm0 & H0 & Hk & Hf).
    destruct (Hf Hfin) as [Hne ->].
    pose proof (Hp i tm0 H0 Hfin) as Href.
    destruct (function tm0); simpl in *; [exact Href | congruence].
  - intros k j Hj. simpl.
    destruct k; simpl in Hj.
    + destruct (Hr Silence j Hj) as (tm0 & H0 & Hk).
      destruct (cancel_if_keeps (inactivity_timer (self w)) _ _ _ H0)
        as (tm & Htm & Hk').
      exists tm. split; [apply lookup_app_l_Some, Htm | congruence].
    + injection Hj as <-. eexists.
      split; [apply list_lookup_middle; reflexivity | reflexivity].
Qed.

Lemma stop_all_finished w : tracked w -> all_finished (timers (stop w)).
Proof.
  intros [Hp _]. apply Forall_lookup_2. intros i tm Hi.
  destruct (finished tm) eqn:Hfin; [reflexivity |]. exfalso. simpl in Hi.
  destruct (cancel_if_lookup _ _ _ _ Hi) as (tm1 & H1 & _ & Hf).
  destruct (Hf Hfin) as [Hne1 ->].
  destruct (cancel_if_lookup _ _ _ _ H1) as (tm0 & H0 & _ & Hf0).
  destruct (Hf0 Hfin) as [Hne0 ->].
  pose proof (Hp i tm0 H0 Hfin) as Href.
  destruct (function tm0); simpl in Href; congruence.
Qed.

Lemma all_finished_tracked_pending w :
  all_finished (timers w) ->
  forall i tm, timers w !! i = Some tm -> finished tm = false -> False.
Proof.
  intros Hall i tm Hi Hfin.
  eapply Forall_lookup_1 in Hall; [| exact Hi]. simpl in Hall. congruence.
Qed.

Lemma tracked_stop w : tracked w -> tracked (stop w).
Proof.
  intros Ht. split.
  - intros i tm Hi Hfin. exfalso.
    exact (all_finished_tracked_pending _ (stop_all_finished w Ht) i tm Hi Hfin).
  - intros [] j Hj; discriminate Hj.
Qed.

Lemma tracked_advance T w : tracked w -> tracked (advance T w).
Proof.
  intros [Hp Hr]. split.
  - intros i tm Hi Hfin. simpl in *. rewrite map_lookup in Hi.
    destruct (timers w !! i) as [tm0 |] eqn:H0; [| discriminate].
    simpl in Hi. injection Hi as <-.
    destruct (due T tm0); [discriminate |]. exact (Hp i tm0 H0 Hfin).
  - intros k j Hj. simpl in *. destruct (Hr k j Hj) as (tm0 & H0 & Hk).
    rewrite map_lookup, H0. simpl. eexists. split; [reflexivity |].
    destruct (due T tm0); exact Hk.
Qed.

(** The invariant holds however the handler has been used. *)
Lemma tracked_history t0 silence inactivity ops :
  tracked (history t0 silence inactivity ops).
Proof.
  unfold history.
  assert (Hstep : forall w op, tracked w -> tracked (run_op w op)).
  { intros w [cb | cb | | | | | T] Ht; simpl.
    - exact Ht.
    - exact Ht.
    - apply tracked_reset_inactivity, tracked_reset_silence, Ht.
    - apply tracked_reset_silence, Ht.
    - apply tracked_reset_inactivity, Ht.
    - apply tracked_stop, Ht.
    - apply tracked_advance, Ht. }
  generalize (tracked_init t0 silence inactivity).
  generalize (init t0 silence inactivity).
  induction ops as [| op ops IH]; intros w Ht; simpl; auto.
Qed.

Lemma no_due_when_finished T ts :
  all_finished ts -> List.filter (due T) ts = [].
Proof.
  induction 1 as [| tm ts Htm _ IH]; simpl; [reflexivity |].
  unfold due at 1. rewrite Htm. simpl. exact IH.
Qed.

Lemma advance_all_finished T w :
  all_finished (timers w) ->
  log (advance T w) = log w /\ all_finished (timers (advance T w)).
Proof.
  intros Hall. split.
  - simpl. rewrite no_due_when_finished by assumption. apply app_nil_r.
  - simpl. unfold all_finished in *. apply Forall_fmap.
    eapply Forall_impl; [exact Hall |]. intros tm Htm. simpl.
    destruct (due T tm); [reflexivity | exact Htm].
Qed.

(** X6. However the handler has been used before, after [stop()] both
    timer attributes are cleared and no timeout handler runs any more, of
    either kind and however long one waits, until a timer is reset. *)
Theorem stop_cancels_everything
        (t0 silence inactivity : Z) (ops : list Op) (Ts : list Z) :
  let w := stop (history t0 silence inactivity ops) in
  log (waits Ts w) = log (history t0 silence inactivity ops)
  /\ silence_timer (self w) = None /\ inactivity_timer (self w) = None.
Proof.
  intros w. split; [| split; reflexivity].
  assert (Hall : all_finished (timers w))
    by apply stop_all_finished, tracked_history.
  change (log (history t0 silence inactivity ops)) with (log w).
  clearbody w. revert w Hall. unfold waits.
  induction Ts as [| T Ts IH]; intros w Hall; [reflexivity |].
  simpl. destruct (advance_all_finished T w Hall) as [Hlog Hall'].
  rewrite IH by assumption. exact Hlog.
Qed.

Lemma merge_sort_two (a b : Timer) :
  merge_sort earlier [a; b] = if decide (earlier a b) then [a; b] else [b; a].
Proof.
  cbv [merge_sort merge_sort_aux merge_list_to_stack merge_stack_flatten list_merge].
  cbn. destruct (decide (earlier a b)); reflexivity.
Qed.

(** After [reset_timeout] the timers are those left by [stop], all
    finished, and the two new ones. *)
Lemma reset_timeout_timers w :
  tracked w ->
  timers (reset_timeout w)
  = timers (stop w)
    ++ [{| function := Silence; expiry := now w + silence_timeout (self w);
           finished := false |};
        {| function := Inactivity; expiry := now w + inactivity_timeout (self w);
           finished := false |}].
Proof.
  intros [_ Hr]. unfold reset_timeout. simpl.
  set (s := {| function := Silence; expiry := _; finished := false |}).
  set (i := {| function := Inactivity; expiry := _; finished := false |}).
  set (l := cancel_if (silence_timer (self w)) (timers w)).
  assert (Hcancel : cancel_if (inactivity_timer (self w)) (l ++ [s])
                    = cancel_if (inactivity_timer (self w)) l ++ [s]).
  { destruct (inactivity_timer (self w)) as [j |] eqn:Hj; simpl; [| reflexivity].
    destruct (Hr Inactivity j Hj) as (tm & Htm & _).
    apply lookup_lt_Some in Htm.
    unfold cancel. apply alter_app_l.
    unfold l. rewrite cancel_if_length. exact Htm. }
  rewrite Hcancel, <- app_assoc. reflexivity.
Qed.

(** X7. However the handler has been used before, a call of
    [reset_timeout] leaves exactly two timers pending, one of each kind,
    counted from the instant of the call: the handlers that run until a
    later instant [T] are those of the two whose timeout has elapsed by
    [T], in the order of their expiry, each run once with the callback
    registered for it; no timer armed earlier runs any more. *)
Theorem reset_timeout_arms_both
        (t0 silence inactivity : Z) (ops : list Op) (T : Z) :
  let w := history t0 silence inactivity ops in
  log (advance T (reset_timeout w))
  = log w ++ List.map (run_handler (self w))
                      (List.filter (due T) (both_armed w)).
Proof.
  intros w. pose proof (tracked_history t0 silence inactivity ops) as Ht.
  fold w in Ht. cbn [advance log].
  rewrite (reset_timeout_timers w Ht), List.filter_app.
  rewrite (no_due_when_finished T _ (stop_all_finished w Ht)).
  cbn [app]. f_equal.
  set (s := {| function := Silence; expiry := now w + silence_timeout (self w);
               finished := false |}).
  set (i := {| function := Inactivity; expiry := now w + inactivity_timeout (self w);
               finished := false |}).
  assert (Hrun : forall tm, run_handler (self (reset_timeout w)) tm
                            = run_handler (self w) tm) by reflexivity.
  unfold both_armed. fold s i.
  cbn [List.filter].
  destruct (due T s) eqn:Hs, (due T i) eqn:Hi;
    rewrite ?merge_sort_two; destruct (decide (earlier s i));
    cbn [List.filter]; rewrite ?Hs, ?Hi; reflexivity.
Qed.

End TimerProps.

(** ** The capture session, continued *)

Module SessionProps.

Import Capture CaptureAux CaptureSpec.
Local Open Scope Z_scope.

Section WithVosk.

Variable K : Model -> outcome unit.

Lemma first_key_get {A} (d : list (list N * A)) k :
  first_key d = Some k -> is_Some (dict_get k d).
Proof.
  destruct d as [| [k' v] d]; [discriminate |]. intros [= ->]. simpl.
  rewrite bool_decide_eq_true_2 by reflexivity. eauto.
Qed.

(** What [create_recognizer] leaves as it is. *)
Lemma create_recognizer_keeps language s r s' :
  create_recognizer K language s = (r, s') ->
  stop_recording s' = stop_recording s /\ models s' = models s.
Proof.
  unfold create_recognizer.
  destruct (match dict_get language (models s) with
            | Some _ => Some language
            | None => match dict_get en (models s) with
                      | Some _ => Some en
                      | None => first_key (models s)
                      end
            end) as [chosen |]; [| intros [= <- <-]; auto].
  destruct (dict_get chosen (models s)) as [m |]; [| intros [= <- <-]; auto].
  destruct (K m); intros [= <- <-]; auto.
Qed.

(** X8. A stop request does not outlive its session: when a session has
    been stopped and its thread has ended, the stop flag is still set, but
    every call of [record_audio] that starts a session clears it and sets
    the recording flag. *)
Theorem stop_request_is_cleared_on_start
        (callback : option Callback) (language : list N) (s : State) :
  (is_recording s = true ->
   stop_recording (finish (snd (stop_recording_audio s))) = true
   /\ is_recording (finish (snd (stop_recording_audio s))) = false) /\
  (forall s',
      record_audio K callback language s = (Return true, s') ->
      stop_recording s' = false /\ is_recording s' = true).
Proof.
  split.
  - intros Hrec. unfold stop_recording_audio. rewrite Hrec. auto.
  - unfold record_audio. destruct (is_recording s); [discriminate |].
    intros s' H. destruct (negb _ || negb _).
    + destruct (create_recognizer K language (clear_stop s)) as [o s1] eqn:Hc.
      apply create_recognizer_keeps in Hc as [Hstop _]. simpl in Hstop.
      destruct o as [[rec |] | e]; [| discriminate | discriminate].
      injection H as <-. simpl. auto.
    + injection H as <-. simpl. auto.
Qed.

(** X9. [create_recognizer] builds a recogniser only from a loaded model:
    when it returns one, the language it records as current has that
    model, and it is the language asked for whenever that one has a model;
    it returns [None], changing nothing, exactly when no model is loaded
    (unless building the recogniser raises). *)
Theorem create_recognizer_uses_loaded_model (language : list N) (s : State) :
  (forall r s',
      create_recognizer K language s = (Return (Some r), s') ->
      exists l,
        current_language s' = Some l
        /\ dict_get l (models s) = Some (of_model r)
        /\ current_model s' = Some (of_model r)
        /\ current_recognizer s' = Some r
        /\ (is_Some (dict_get language (models s)) -> l = language)) /\
  (forall s',
      create_recognizer K language s = (Return None, s') <->
      models s = [] /\ s' = s).
Proof.
  unfold create_recognizer.
  destruct (dict_get language (models s)) as [m0 |] eqn:Hl.
  - rewrite Hl. split.
    + intros r s'. destruct (K m0); [| discriminate]. intros [= <- <-].
      exists language. simpl. auto.
    + intros s'. split.
      * destruct (K m0); discriminate.
      * intros [Hempty _]. rewrite Hempty in Hl. discriminate Hl.
  - destruct (dict_get en (models s)) as [m1 |] eqn:Hen.
    + rewrite Hen. split.
      * intros r s'. destruct (K m1); [| discriminate]. intros [= <- <-].
        exists en. simpl. repeat split; auto. intros [? [=]].
      * intros s'. split.
        -- destruct (K m1); discriminate.
        -- intros [Hempty _]. rewrite Hempty in Hen. discriminate Hen.
    + destruct (first_key (models s)) as [k |] eqn:Hk.
      * destruct (first_key_get _ _ Hk) as [m2 Hm2]. rewrite Hm2. split.
        -- intros r s'. destruct (K m2); [| discriminate]. intros [= <- <-].
           exists k. simpl. repeat split; auto. intros [? [=]].
        -- intros s'. split.
           ++ destruct (K m2); discriminate.
           ++ intros [Hempty _]. rewrite Hempty in Hk. discriminate Hk.
      * split; [discriminate |]. intros s'. split.
        -- intros [= <-]. split; [| reflexivity].
           destruct (models s) as [| [? ?] ?]; [reflexivity | discriminate Hk].
        -- intros [_ ->]. reflexivity.
Qed.

(** The recorded language always has a model, and the models never
    change once loaded. *)
Lemma create_recognizer_language language s r s' :
  create_recognizer K language s = (r, s') ->
  current_language_loaded s -> current_language_loaded s'.
Proof.
  unfold create_recognizer, current_language_loaded.
  destruct (match dict_get language (models s) with
            | Some _ => Some language
            | None => match dict_get en (models s) with
                      | Some _ => Some en
                      | None => first_key (models s)
                      end
            end) as [chosen |]; [| intros [= <- <-]; auto].
  destruct (dict_get chosen (models s)) as [m |] eqn:Hm;
    [| intros [= <- <-]; auto].
  destruct (K m); intros [= <- <-]; simpl; auto.
  intros _ l [= <-]. rewrite Hm. eauto.
Qed.

Lemma record_audio_language callback language s r s' :
  record_audio K callback language s = (r, s') ->
  current_language_loaded s ->
  current_language_loaded s' /\ models s' = models s.
Proof.
  unfold record_audio. destruct (is_recording s); [intros [= <- <-]; auto |].
  destruct (negb _ || negb _).
  - destruct (create_recognizer K language (clear_stop s)) as [o s1] eqn:Hc.
    intros H Hinv.
    pose proof (create_recognizer_keeps _ _ _ _ Hc) as [_ Hms].
    apply create_recognizer_language in Hc; [| exact Hinv].
    destruct o as [[rec |] | e]; injection H as <- <-; simpl; auto.
  - intros [= <- <-]. auto.
Qed.

Lemma reachable_language ms s :
  reachable K ms s -> current_language_loaded s /\ models s = ms.
Proof.
  induction 1 as [| s s' _ [IH Hms] Hstep].
  - split; [intros l [=] | reflexivity].
  - destruct Hstep as [callback language s r s' Hrec | s | s Hlt].
    + apply record_audio_language in Hrec as [? ?]; [| exact IH].
      split; [assumption | congruence].
    + unfold stop_recording_audio. destruct (is_recording s); auto.
    + auto.
Qed.

(** X10. A recogniser is kept from one session to the next when the
    language asked for is the one recorded as current. A language without
    a model is never recorded as current, so that, in every state the
    service can reach, each session asked for in such a language builds a
    new recogniser on the English model, records ['en'] as current, and
    starts a thread that is given the language asked for. *)
Theorem recognizer_rebuilt_for_unloaded_language
        (ms : list (list N * Model)) (callback : option Callback)
        (language : list N) (m : Model) (s : State) :
  reachable K ms s ->
  is_recording s = false ->
  (forall r,
      current_language s = Some language ->
      current_recognizer s = Some r ->
      exists s',
        record_audio K callback language s = (Return true, s')
        /\ current_recognizer s' = Some r /\ built s' = built s) /\
  (dict_get language ms = None ->
   dict_get en ms = Some m ->
   K m = Return tt ->
   exists s',
     record_audio K callback language s = (Return true, s')
     /\ current_recognizer s' = Some {| of_model := m; serial := built s |}
     /\ current_language s' = Some en
     /\ built s' = S (built s)
     /\ threads s' = threads s ++ [(callback, language)]).
Proof.
  intros Hreach Hidle. apply reachable_language in Hreach as [Hinv Hms].
  split.
  - intros r Hlang Hrec. unfold record_audio. rewrite Hidle. simpl.
    rewrite Hlang, Hrec.
    rewrite bool_decide_eq_true_2 by reflexivity.
    rewrite bool_decide_eq_true_2 by eauto.
    simpl. eexists. split; [reflexivity |]. simpl. auto.
  - intros Hnone Hen HK. unfold record_audio. rewrite Hidle.
    assert (Hother : current_language (clear_stop s) <> Some language).
    { simpl. intros Hcur. destruct (Hinv _ Hcur) as [m' Hm'].
      rewrite Hms, Hnone in Hm'. discriminate Hm'. }
    rewrite (bool_decide_eq_false_2 _ Hother). cbn [negb orb].
    unfold create_recognizer. cbn [models clear_stop].
    rewrite Hms, Hnone, Hen. cbv beta iota. rewrite Hen. cbv beta iota.
    rewrite HK. eexists. split; [reflexivity |].
    simpl. auto.
Qed.

End WithVosk.

Lemma recognizer_rebuilt_for_unloaded_language_witness :
  exists s',
    record_audio Scenarios.vosk_ok None ko (loaded Scenarios.english_only)
    = (Return true, s')
    /\ current_language s' = Some en
    /\ threads s' = [(None, ko)].
Proof.
  destruct (recognizer_rebuilt_for_unloaded_language
              Scenarios.vosk_ok Scenarios.english_only None ko 0%nat
              (loaded Scenarios.english_only))
    as [_ Hbuild]; [apply reach_loaded | reflexivity |].
  destruct Hbuild as (s' & Hrec & _ & Hlang & _ & Hthreads);
    [reflexivity | reflexivity | reflexivity |].
  exists s'. split; [exact Hrec |]. split; [exact Hlang | exact Hthreads].
Defined.

Lemma stop_request_is_cleared_on_start_witness :
  let stopped := finish (snd (stop_recording_audio Scenarios.capturing)) in
  stop_recording stopped = true /\
  stop_recording (snd (record_audio Scenarios.vosk_ok None en stopped)) = false.
Proof.
  split.
  - apply (stop_request_is_cleared_on_start Scenarios.vosk_ok None en
             Scenarios.capturing). reflexivity.
  - apply (stop_request_is_cleared_on_start Scenarios.vosk_ok None en
             (finish (snd (stop_recording_audio Scenarios.capturing)))).
    reflexivity.
Defined.

Lemma create_recognizer_uses_loaded_model_witness :
  exists l,
    current_language Scenarios.capturing = Some l
    /\ dict_get l Scenarios.english_only = Some 0%nat.
Proof.
  destruct (create_recognizer_uses_loaded_model Scenarios.vosk_ok ko
              (clear_stop (loaded Scenarios.english_only))) as [Hsome _].
  destruct (Hsome {| of_model := 0%nat; serial := 0%nat |}
                  (snd (create_recognizer Scenarios.vosk_ok ko
                          (clear_stop (loaded Scenarios.english_only)))))
    as (l & Hl & Hm & _); [reflexivity |].
  exists l. split; [exact Hl | exact Hm].
Defined.

Section Loop.

Variables silence_timeout inactivity_timeout : Z.
Variable callback : option Callback.
Variable language : list N.

(** X11. While every chunk read is loud, the capture loop is not left,
    whatever the two timeouts are: over any number of such turns on which
    no stop is requested and nothing raises, the loop delivers the texts
    committed, in their order, and is still running, so that the recording
    thread has not ended. *)
Theorem sound_keeps_session_open
        (frames : list Frame) (last_audio_time : Z)
        (silence_start_time : option Z) (final_result : list N) :
  callback_returns callback ->
  Forall (fun f => undisturbed f /\ loud f = true) frames ->
  loop silence_timeout inactivity_timeout callback language
       frames last_audio_time silence_start_time final_result
  = (partial_calls callback language (committed frames), StillRunning)
  /\ forall t0 final s,
      _record_audio_thread silence_timeout inactivity_timeout callback
                           language (Return tt) t0 frames final s = None.
Proof.
  intros Hcb Hall.
  assert (Hloop : forall lat sst fr,
             loop silence_timeout inactivity_timeout callback language
                  frames lat sst fr
             = (partial_calls callback language (committed frames),
                StillRunning)).
  { induction Hall as [| f rest [(Hstop & Hread & Hacc) Hloud] _ IH];
      intros lat sst fr.
    - unfold partial_calls. destruct callback; reflexivity.
    - cbn [loop]. rewrite Hstop, Hread. unfold silence_check. rewrite Hloud.
      rewrite committed_cons.
      destruct (accept f) as [[[text |] |] | e] eqn:Ha;
        [| apply IH | apply IH | exfalso; exact (Hacc e eq_refl)].
      destruct (truthy (strip text)); [| apply IH].
      rewrite IH. unfold emit, partial_calls.
      destruct callback as [cb |] eqn:Hc.
      + rewrite (Hcb cb eq_refl). reflexivity.
      + reflexivity. }
  split; [apply Hloop |].
  intros t0 final s. unfold _record_audio_thread. rewrite Hloop. reflexivity.
Qed.

Lemma timed_out_true t0 made f :
  loud f = false ->
  (silence_began made f <> 0
   /\ clock f - silence_began made f > silence_timeout)
  \/ clock f - last_sound t0 made > inactivity_timeout ->
  timed_out silence_timeout inactivity_timeout t0 made f = true.
Proof.
  intros Hquiet Hlate. unfold timed_out. rewrite Hquiet. cbn [negb andb].
  apply orb_true_iff. destruct Hlate as [[Hnz Hgt] | Hgt]; [left | right].
  - apply andb_true_iff. split.
    + apply negb_true_iff, Z.eqb_neq, Hnz.
    + rewrite Z.gtb_ltb. apply Z.ltb_lt. lia.
  - rewrite Z.gtb_ltb. apply Z.ltb_lt. lia.
Qed.

(** X12. Silence ends the session when a timeout is reached, and not
    before. Take the turns made since the thread began to listen, at the
    instant [t0], on which no stop is requested, no timeout is reached
    and nothing raises: after them the loop is still running, having
    delivered the texts committed, in their order. If the chunk of the
    next turn is quiet, and the silence, counted from the first quiet
    chunk after the last loud one (an instant 0 counting as none), has
    lasted longer than [silence_timeout], or the last sound, or else
    [t0], is older than [inactivity_timeout], the loop is left on that
    turn by a [break], with the last committed text as the result it has
    kept and nothing more delivered. *)
Theorem silence_ends_session
        (t0 : Z) (made : list Frame) (f : Frame) (rest : list Frame)
        (final_result : list N) :
  keeps_listening silence_timeout inactivity_timeout t0 [] made ->
  Forall undisturbed made ->
  delivers callback language false (committed made) ->
  stop_set f = false -> read f = Return tt -> loud f = false ->
  (silence_began made f <> 0
   /\ clock f - silence_began made f > silence_timeout)
  \/ clock f - last_sound t0 made > inactivity_timeout ->
  loop silence_timeout inactivity_timeout callback language
       made t0 None final_result
  = (partial_calls callback language (committed made), StillRunning)
  /\ loop silence_timeout inactivity_timeout callback language
          (made ++ f :: rest) t0 None final_result
     = (partial_calls callback language (committed made),
        Finished (List.last (committed made) final_result)).
Proof.
  intros Hkeep Hall Hcb Hstop Hread Hquiet Hlate.
  pose proof (loop_app silence_timeout inactivity_timeout callback language
                       t0 made [] [] final_result Hkeep Hall Hcb) as Hrun.
  pose proof (loop_app silence_timeout inactivity_timeout callback language
                       t0 made [] (f :: rest) final_result Hkeep Hall Hcb)
    as Hleft.
  rewrite app_nil_r in Hrun. cbn [loop fst snd] in Hrun.
  rewrite app_nil_r in Hrun.
  rewrite (loop_ends silence_timeout inactivity_timeout callback language
                     t0 ([] ++ made) f rest) in Hleft
    by (right; split; [exact Hread | apply timed_out_true; assumption]).
  cbn [fst snd] in Hleft. rewrite app_nil_r in Hleft.
  split; [exact Hrun | exact Hleft].
Qed.

End Loop.

Lemma sound_keeps_session_open_witness :
  loop 2 30 (Some Scenarios.listener) en
       [Scenarios.hello_turn; Scenarios.hello_turn] 0 None []
  = ([Called (py "hello") en false; Called (py "hello") en false],
     StillRunning).
Proof.
  apply (sound_keeps_session_open 2 30 (Some Scenarios.listener) en
           [Scenarios.hello_turn; Scenarios.hello_turn] 0 None []).
  - intros cb [= <-] text l final. reflexivity.
  - repeat constructor; discriminate.
Defined.

Lemma silence_ends_session_witness :
  loop 2 30 None en [Scenarios.silent_turn] 0 None [] = ([], StillRunning)
  /\ loop 2 30 None en [Scenarios.silent_turn; Scenarios.late_silent_turn]
          0 None []
     = ([], Finished []).
Proof.
  apply (silence_ends_session 2 30 None en 0 [Scenarios.silent_turn]
           Scenarios.late_silent_turn [] []).
  - simpl. auto.
  - repeat constructor. discriminate.
  - intros cb [=].
  - reflexivity.
  - reflexivity.
  - reflexivity.
  - left. vm_compute. split; [discriminate | reflexivity].
Defined.

End SessionProps.


(** ** The offline recogniser, continued *)

Module RecognizerProps.

Import Recognizer RecognizerAux RecognizerSpec.

Section WithEnv.

Variable env : Env.

Lemma load_model_grows language self :
  models self !! language = None ->
  models self ⊆ models (_load_model env language self)
  /\ recognizers (_load_model env language self) = recognizers self.
Proof.
  intros Hnone. unfold _load_model. destruct (negb _); [auto |].
  destruct (model_paths self !! language); [| auto].
  destruct (load env _); [| auto]. simpl. split; [| reflexivity].
  apply insert_subseteq. exact Hnone.
Qed.

Lemma download_model_grows language self :
  models self !! language = None ->
  models self ⊆ models (_download_model env language self)
  /\ recognizers (_download_model env language self) = recognizers self.
Proof.
  intros Hnone. unfold _download_model. destruct (negb _); [auto |].
  destruct (negb _); [auto |].
  destruct (path_exists env _);
    [apply (load_model_grows language
              {| vosk_available := vosk_available self;
                 model_paths := <[language := model_path language]>
                                  (model_paths self);
                 models := models self;
                 recognizers := recognizers self |}); exact Hnone |].
  destruct (fetch env language); [| auto].
  apply (load_model_grows language
           {| vosk_available := vosk_available self;
              model_paths := <[language := model_path language]>
                               (model_paths self);
              models := models self;
              recognizers := recognizers self |}); exact Hnone.
Qed.

Lemma choose_model_grows language self self1 chosen :
  choose_model env language self = (self1, chosen) ->
  models self ⊆ models self1
  /\ recognizers self1 = recognizers self
  /\ vosk_available self1 = vosk_available self
  /\ forall l, chosen = Some l -> is_Some (models self1 !! l).
Proof.
  unfold choose_model. destruct (models self !! language) as [m |] eqn:Hm.
  - intros [= <- <-]. repeat split; auto. intros l [= <-]. eauto.
  - destruct (download_model_grows language self Hm) as [Hsub Hrec].
    pose proof (download_model_vosk env language self) as Hv.
    destruct (models (_download_model env language self) !! language)
      as [m |] eqn:Hm1.
    + intros [= <- <-]. repeat split; auto. intros l [= <-]. eauto.
    + destruct (models (_download_model env language self) !! en)
        as [m |] eqn:Hen; intros [= <- <-]; repeat split; auto.
      * intros l [= <-]. eauto.
      * intros l [=].
Qed.

Lemma recognize_block_grows audio_data language self r self' :
  recognize_block env audio_data language self = (r, self') ->
  models self' = models self
  /\ vosk_available self' = vosk_available self
  /\ recognizers self ⊆ recognizers self'
  /\ forall k, is_Some (recognizers self' !! k) ->
               is_Some (recognizers self !! k)
               \/ (k = language /\ is_Some (models self !! language)).
Proof.
  unfold recognize_block.
  destruct (recognizers self !! language) as [rec |] eqn:Hrec;
    [intros [= <- <-]; auto |].
  destruct (models self !! language) as [m |] eqn:Hm;
    [| intros [= <- <-]; auto].
  destruct (new_kaldi env m) as [rec | e]; intros [= <- <-]; auto.
  simpl. repeat split; [apply insert_subseteq; exact Hrec |].
  intros k Hk. destruct (decide (k = language)) as [-> | Hne].
  - right. eauto.
  - left. rewrite lookup_insert_ne in Hk by congruence. exact Hk.
Qed.

(** X13. [recognize] only adds to what the recogniser holds: in either
    mode, whatever the network, Vosk and the file system do, every model
    and every recogniser held before the call is still held, unchanged,
    after it, the availability of Vosk is as before, and if every cached
    recogniser had its model before the call, the same is true after
    it. *)
Theorem recognize_only_adds
        (audio_data language : list N) (online : bool)
        (self : SpeechRecognizer) :
  let self' := snd (recognize env audio_data language online self) in
  models self ⊆ models self'
  /\ recognizers self ⊆ recognizers self'
  /\ vosk_available self' = vosk_available self
  /\ (recognizers_have_models self -> recognizers_have_models self').
Proof.
  assert (Hoff : let self' := snd (recognize_offline env audio_data language
                                                     self) in
                 models self ⊆ models self'
                 /\ recognizers self ⊆ recognizers self'
                 /\ vosk_available self' = vosk_available self
                 /\ (recognizers_have_models self ->
                     recognizers_have_models self')).
  { destruct (vosk_available self) eqn:Hv;
      [| unfold recognize_offline; rewrite Hv; simpl; auto].
    destruct (choose_model env language self) as [self1 chosen] eqn:Hsel.
    rewrite (recognize_offline_chosen _ _ _ _ _ _ Hv Hsel).
    apply choose_model_grows in Hsel as (Hsub & Hrec & Hv1 & Hchosen).
    assert (Hinv1 : recognizers_have_models self ->
                    recognizers_have_models self1).
    { intros Hinv l Hl. rewrite Hrec in Hl.
      destruct (Hinv l Hl) as [m Hm]. exists m.
      exact (lookup_weaken _ _ _ _ Hm Hsub). }
    destruct chosen as [l |];
      [| simpl; rewrite Hrec, Hv1, Hv; auto].
    destruct (recognize_block env audio_data l self1) as [o self2] eqn:Hblock.
    apply recognize_block_grows in Hblock as (Hm2 & Hv2 & Hsub2 & Hnew).
    assert (Hgoal : models self ⊆ models self2
                    /\ recognizers self ⊆ recognizers self2
                    /\ vosk_available self2 = true
                    /\ (recognizers_have_models self ->
                        recognizers_have_models self2)).
    { rewrite Hm2, Hv2, Hv1, Hv. repeat split; auto.
      - rewrite <- Hrec. exact Hsub2.
      - intros Hinv k Hk. unfold recognizers_have_models in *.
        rewrite Hm2. destruct (Hnew k Hk) as [Hold | [-> Hmod]].
        + apply Hinv1; assumption.
        + exact Hmod. }
    destruct o; exact Hgoal. }
  unfold recognize. destruct online; [| exact Hoff].
  destruct (recognize_online env audio_data language); [| exact Hoff].
  simpl. auto.
Qed.

End WithEnv.

Lemma recognize_only_adds_witness :
  let self' := snd (recognize Scenarios.download_works [] ko false
                              Scenarios.english_loaded) in
  models self' !! en = Some 0%nat /\ recognizers_have_models self'.
Proof.
  destruct (recognize_only_adds Scenarios.download_works [] ko false
              Scenarios.english_loaded) as (Hsub & _ & _ & Hinv).
  split.
  - apply (lookup_weaken _ _ _ _ (eq_refl : models Scenarios.english_loaded
                                            !! en = Some 0%nat) Hsub).
  - apply Hinv. intros l [r Hr]. simpl in Hr. rewrite lookup_empty in Hr.
    discriminate Hr.
Defined.

End RecognizerProps.


(** ** Speech synthesis and the assistant pipeline *)

Module PipelineProps.

Import Assistant AssistantSpec.

Section WithTts.

Variable tenv : Tts.Env.

(** X14. [speak] falls back to English and fails with the empty string:
    for a language that is not supported or has no registered voice the
    call gives exactly what the call for ['en'] gives; and the result is
    the empty string when the text is blank, when Piper is not installed,
    or when neither the language nor English has a voice. *)
Theorem speak_falls_back_to_english
        (text language : list N) (self : Tts.TextToSpeech) :
  (mem language Tts.supported_languages = false
   \/ Tts.voices self !! language = None ->
   Tts.speak tenv text language self = Tts.speak tenv text en self) /\
  (blank text = true
   \/ Tts.piper_available self = false
   \/ (Tts.voices self !! en = None
       /\ (mem language Tts.supported_languages = false
           \/ Tts.voices self !! language = None)) ->
   Tts.speak tenv text language self = []).
Proof.
  assert (Hen : mem en Tts.supported_languages = true) by reflexivity.
  unfold Tts.speak. rewrite Hen. destruct (blank text); [auto |].
  destruct (Tts.piper_available self);
    [| split; intros; destruct (mem language _); reflexivity].
  cbn [negb]. split.
  - intros [Hmem | Hvoice].
    + rewrite Hmem. reflexivity.
    + destruct (mem language Tts.supported_languages); [| reflexivity].
      rewrite Hvoice. destruct (Tts.voices self !! en); reflexivity.
  - intros [Hblank | [Hpiper | [Hnone [Hmem | Hvoice]]]];
      [discriminate | discriminate | |].
    + rewrite Hmem, Hnone. reflexivity.
    + destruct (mem language Tts.supported_languages).
      * rewrite Hvoice, Hnone. reflexivity.
      * rewrite Hnone. reflexivity.
Qed.

End WithTts.

Lemma speak_falls_back_to_english_witness :
  Tts.speak Scenarios.piper_ok (py "hi") ko Scenarios.english_voice
  = Tts.speak Scenarios.piper_ok (py "hi") en Scenarios.english_voice
  /\ Tts.speak Scenarios.piper_ok (py "hi") ko Scenarios.no_piper = [].
Proof.
  split.
  - apply (speak_falls_back_to_english Scenarios.piper_ok (py "hi") ko
             Scenarios.english_voice). right. reflexivity.
  - apply (speak_falls_back_to_english Scenarios.piper_ok (py "hi") ko
             Scenarios.no_piper). right. left. reflexivity.
Defined.

Section WithEnv.

Variable str_lower : list N -> list N.
Variable env : Env.

Lemma translate_with_returns t text from_lang to_lang :
  exists s, translate_with str_lower env t text from_lang to_lang = Return s.
Proof. apply TranslationSpec.translate_returns. Qed.

Lemma sync_languages english_query source_lang response_lang g :
  source_language
    (fst (_process_query_sync str_lower env english_query source_lang
                              response_lang g)) = source_lang
  /\ target_language
       (fst (_process_query_sync str_lower env english_query source_lang
                                 response_lang g)) = response_lang.
Proof.
  unfold _process_query_sync.
  destruct (get_ai_assistant env g) as [[[a |] | e] g1]; [| auto | auto].
  destruct (generate_response a english_query en); [| auto].
  destruct (translate_response _ _ _ _ _); auto.
Qed.

(** X15. [process_query] without callback never raises: it returns a
    response for the response language asked for. With a translator in
    place, a source language ['auto'] is replaced by one of the three
    supported codes; any other source language, and every source language
    as long as the service has no translator (as on the first call, which
    is made before anything is initialised), is passed on as it is, and
    without translator the query reaches the assistant untranslated. *)
Theorem process_query_always_answers
        (query_text source_lang response_lang : list N) (g : Globals) :
  exists r g',
    process_query str_lower env query_text source_lang response_lang g
    = (Return r, g')
    /\ target_language r = response_lang
    /\ (source_lang <> auto \/ _translator g = None ->
        source_language r = source_lang)
    /\ (source_lang = auto -> is_Some (_translator g) ->
        source_language r ∈ Detector.supported_languages)
    /\ (_translator g = None ->
        (r, g') = _process_query_sync str_lower env query_text source_lang
                                      response_lang g).
Proof.
  unfold process_query. destruct (_translator g) as [t |] eqn:Ht.
  - set (src := if bool_decide (source_lang = auto) then _ else _).
    assert (Hq : exists q,
               (if negb (bool_decide (src = en))
                then translate_with str_lower env t query_text src en
                else Return query_text) = Return q).
    { destruct (negb _); [apply translate_with_returns | eauto]. }
    destruct Hq as [q ->].
    destruct (_process_query_sync str_lower env q src response_lang g)
      as [r g'] eqn:Hsync.
    pose proof (sync_languages q src response_lang g) as [Hs Ht'].
    rewrite Hsync in Hs, Ht'. simpl in Hs, Ht'.
    exists r, g'. split; [reflexivity |]. split; [exact Ht' |].
    assert (Hdet : truthy (Translation.detect_language
                             str_lower (translation_env env) query_text)
                   = true).
    { pose proof (TextProps.detect_language_supported
                    str_lower (translation_env env) query_text) as Hin.
      unfold Detector.supported_languages in Hin.
      rewrite !elem_of_cons in Hin.
      destruct Hin as [-> | [-> | [-> | Hin]]];
        [reflexivity | reflexivity | reflexivity |].
      apply elem_of_nil in Hin. contradiction. }
    split; [| split; [| discriminate]].
    + intros [Hne | Hnone]; [| discriminate]. rewrite Hs. unfold src.
      rewrite bool_decide_eq_false_2 by exact Hne. reflexivity.
    + intros Hauto _. rewrite Hs. unfold src.
      rewrite bool_decide_eq_true_2 by exact Hauto. rewrite Hdet.
      apply TextProps.detect_language_supported.
  - destruct (_process_query_sync str_lower env query_text source_lang
                                  response_lang g) as [r g'] eqn:Hsync.
    pose proof (sync_languages query_text source_lang response_lang g)
      as [Hs Ht'].
    rewrite Hsync in Hs, Ht'. simpl in Hs, Ht'.
    exists r, g'. repeat split; auto.
    intros _ [t [=]].
Qed.

(** X16. With the assistant of [models/ai_assistant.py] in place the
    pipeline never takes its error branch: whatever the model does, the
    response has no error entry, the globals are as before, and its text
    is the assistant's answer for ['en'], translated when the response
    language is another one and a translator is there; when the model is
    not loaded that answer is the English fallback sentence. *)
Theorem real_assistant_never_errors
        (a : Llm.AIAssistant)
        (english_query source_lang response_lang : list N) (g : Globals) :
  _ai_assistant g = Some (Llm.adapter a) ->
  exists t,
    _process_query_sync str_lower env english_query source_lang response_lang g
    = ({| text := t; audio := synthesize g t response_lang;
          source_language := source_lang; target_language := response_lang;
          error := None |}, g)
    /\ translate_response str_lower env g
                          (Llm.generate_response a english_query en)
                          response_lang = Return t
    /\ (response_lang = en \/ _translator g = None ->
        t = Llm.generate_response a english_query en)
    /\ (Llm.model_loaded a = false ->
        Llm.generate_response a english_query en
        = Llm._get_fallback_response en).
Proof.
  intros Ha.
  destruct (translate_response_returns
              str_lower env g (Llm.generate_response a english_query en)
              response_lang) as [t Ht].
  exists t. unfold _process_query_sync, get_ai_assistant. rewrite Ha.
  cbn [generate_response Llm.adapter]. rewrite Ht.
  split; [reflexivity |]. split; [reflexivity |]. split.
  - unfold translate_response in Ht. intros [-> | Hnone].
    + destruct (_translator g); simpl in Ht; congruence.
    + rewrite Hnone in Ht. congruence.
  - intros Hloaded. unfold Llm.generate_response. rewrite Hloaded.
    reflexivity.
Qed.

(** X17. With the synthesiser of [models/tts.py] in place, a response
    without error entry always carries an audio entry, the string [speak]
    returns for the response text: a failure of the synthesis shows as the
    empty string, not as [None]; in particular without Piper the audio is
    the empty string. *)
Theorem real_tts_failure_is_empty_audio
        (tenv : Tts.Env) (tts : Tts.TextToSpeech)
        (english_query source_lang response_lang : list N)
        (g g' : Globals) (r : Response) :
  _process_query_sync str_lower env english_query source_lang response_lang g
  = (r, g') ->
  _tts g' = Some (Tts.adapter tenv tts) ->
  error r = None ->
  audio r = Some (Tts.speak tenv (text r) response_lang tts)
  /\ (Tts.piper_available tts = false -> audio r = Some []).
Proof.
  unfold _process_query_sync.
  destruct (get_ai_assistant env g) as [[[a |] | e] g1];
    [| intros [= <- <-] _ [=] | intros [= <- <-] _ [=]].
  destruct (generate_response a english_query en) as [answer | e];
    [| intros [= <- <-] _ [=]].
  destruct (translate_response _ _ _ _ _) as [t | e];
    [| intros [= <- <-] _ [=]].
  intros [= <- <-] Htts _. cbn [audio text]. unfold synthesize.
  rewrite Htts. cbn [speak Tts.adapter]. split; [reflexivity |].
  intros Hpiper. unfold Tts.speak. rewrite Hpiper.
  destruct (blank t); [reflexivity |]. destruct (mem _ _); reflexivity.
Qed.

End WithEnv.

Lemma process_query_always_answers_witness :
  exists r g',
    process_query ascii_lower Scenarios.assistant_env (py "hi") auto ko
                  Scenarios.not_initialized = (Return r, g')
    /\ source_language r = auto.
Proof.
  destruct (process_query_always_answers
              ascii_lower Scenarios.assistant_env (py "hi") auto ko
              Scenarios.not_initialized)
    as (r & g' & Hq & _ & Hsrc & _).
  exists r, g'. split; [exact Hq |]. apply Hsrc. right. reflexivity.
Defined.

Lemma real_assistant_never_errors_witness :
  exists t,
    _process_query_sync ascii_lower Scenarios.assistant_env (py "hi") en en
                        Scenarios.real_service
    = ({| text := t;
          audio := synthesize Scenarios.real_service t en;
          source_language := en; target_language := en; error := None |},
       Scenarios.real_service)
    /\ t = Llm._get_fallback_response en.
Proof.
  destruct (real_assistant_never_errors
              ascii_lower Scenarios.assistant_env Scenarios.no_llm
              (py "hi") en en Scenarios.real_service)
    as (t & Hsync & _ & Ht & Hfall); [reflexivity |].
  exists t. split; [exact Hsync |].
  rewrite Ht by (left; reflexivity). apply Hfall. reflexivity.
Defined.

Lemma real_tts_failure_is_empty_audio_witness :
  audio (fst (_process_query_sync ascii_lower Scenarios.assistant_env
                                  (py "hi") en en Scenarios.real_service))
  = Some [].
Proof.
  apply (real_tts_failure_is_empty_audio
           ascii_lower Scenarios.assistant_env Scenarios.piper_ok
           Scenarios.no_piper (py "hi") en en Scenarios.real_service
           Scenarios.real_service
           (fst (_process_query_sync ascii_lower Scenarios.assistant_env
                                     (py "hi") en en Scenarios.real_service)));
    reflexivity.
Defined.

End PipelineProps.


(** ** utils.py and the motion sensor *)

Module UtilsProps.

Import Utils UtilsAux.
Local Open Scope Z_scope.

Lemma backoff_schedule_S b m n :
  backoff_schedule b m (S n) = b :: backoff_schedule (b * m) m n.
Proof.
  unfold backoff_schedule. cbn [seq List.map]. f_equal.
  - change (Z.of_nat 0) with 0. rewrite Z.pow_0_r. lia.
  - rewrite <- seq_shift, List.map_map. apply List.map_ext. intros i.
    rewrite Nat2Z.inj_succ, Z.pow_succ_r by lia. lia.
Qed.

Section Retry.

Context {A : Type}.
Variable func : nat -> outcome A.
Variables max_retries backoff_multiplier : Z.

Lemma retry_loop_success fuel :
  forall retries backoff k a,
    (retries <= k)%nat -> Z.of_nat k < max_retries ->
    (k - retries < fuel)%nat ->
    (forall i, (retries <= i < k)%nat -> exists e, func i = Raise e) ->
    func k = Return a ->
    retry_loop func max_retries backoff_multiplier fuel retries backoff
    = {| ended := Return (Some a); calls := S (k - retries);
         sleeps := backoff_schedule backoff backoff_multiplier (k - retries) |}.
Proof.
  induction fuel as [| fuel IH]; intros retries backoff k a Hle Hk Hfuel Hfail Hok;
    [lia |].
  cbn [retry_loop].
  replace (Z.of_nat retries <? max_retries) with true
    by (symmetry; apply Z.ltb_lt; lia).
  destruct (decide (retries = k)) as [-> | Hne].
  - rewrite Hok, Nat.sub_diag. reflexivity.
  - destruct (Hfail retries) as [e ->]; [lia |].
    replace (Z.of_nat (S retries) >=? max_retries) with false
      by (symmetry; rewrite Z.geb_leb; apply Z.leb_gt; lia).
    rewrite (IH (S retries) (backoff * backoff_multiplier) k a);
      [| lia | lia | lia | intros i Hi; apply Hfail; lia | exact Hok].
    cbn [ended calls sleeps].
    replace (k - retries)%nat with (S (k - S retries)) by lia.
    rewrite backoff_schedule_S. reflexivity.
Qed.

Lemma retry_loop_exhausted fuel :
  forall retries backoff n e,
    Z.of_nat n = max_retries -> (retries < n)%nat ->
    (n - retries <= fuel)%nat ->
    (forall i, (retries <= i < n)%nat -> exists e, func i = Raise e) ->
    func (n - 1)%nat = Raise e ->
    retry_loop func max_retries backoff_multiplier fuel retries backoff
    = {| ended := Raise e; calls := (n - retries)%nat;
         sleeps := backoff_schedule backoff backoff_multiplier
                                    (n - retries - 1) |}.
Proof.
  induction fuel as [| fuel IH]; intros retries backoff n e Hn Hlt Hfuel Hfail Hlast;
    [lia |].
  cbn [retry_loop].
  replace (Z.of_nat retries <? max_retries) with true
    by (symmetry; apply Z.ltb_lt; lia).
  destruct (decide (S retries = n)) as [Heq | Hne].
  - replace (n - 1)%nat with retries in Hlast by lia. rewrite Hlast.
    replace (Z.of_nat (S retries) >=? max_retries) with true
      by (symmetry; rewrite Z.geb_leb; apply Z.leb_le; lia).
    replace (n - retries)%nat with 1%nat by lia. reflexivity.
  - destruct (Hfail retries) as [e' ->]; [lia |].
    replace (Z.of_nat (S retries) >=? max_retries) with false
      by (symmetry; rewrite Z.geb_leb; apply Z.leb_gt; lia).
    rewrite (IH (S retries) (backoff * backoff_multiplier) n e);
      [| exact Hn | lia | lia | intros i Hi; apply Hfail; lia | exact Hlast].
    cbn [ended calls sleeps].
    replace (n - retries)%nat with (S (n - S retries)) by lia.
    replace (S (n - S retries) - 1)%nat with (S (n - S retries - 1)) by lia.
    rewrite backoff_schedule_S. reflexivity.
Qed.

(** X18. [retry_with_backoff] returns the first result: when the calls of
    [func] raise [k] times and the next one returns, with [k] below
    [max_retries], the call returns that value after [k + 1] calls of
    [func], having slept [k] times, for [initial_backoff] multiplied by
    [backoff_multiplier] once more each time. *)
Theorem retry_returns_first_success
        (initial_backoff : Z) (k : nat) (a : A) :
  Z.of_nat k < max_retries ->
  fails_before func k ->
  func k = Return a ->
  retry_with_backoff func max_retries backoff_multiplier initial_backoff
  = {| ended := Return (Some a); calls := S k;
       sleeps := backoff_schedule initial_backoff backoff_multiplier k |}.
Proof.
  intros Hk Hfail Hok. unfold retry_with_backoff.
  rewrite (retry_loop_success _ 0%nat initial_backoff k a);
    [| lia | exact Hk | lia | intros i Hi; apply Hfail; lia | exact Hok].
  rewrite Nat.sub_0_r. reflexivity.
Qed.

(** X19. [retry_with_backoff] gives up after [max_retries] calls: when
    every call of [func] raises, the exception of the last of the
    [max_retries] calls is raised, after one sleep fewer than there were
    calls, the last failure being followed by no sleep; and when
    [max_retries] is not positive, [func] is not called at all and the
    call returns [None]. *)
Theorem retry_gives_up (initial_backoff : Z) :
  (max_retries <= 0 ->
   retry_with_backoff func max_retries backoff_multiplier initial_backoff
   = {| ended := Return None; calls := 0; sleeps := [] |}) /\
  (0 < max_retries ->
   fails_before func (Z.to_nat max_retries) ->
   forall e,
     func (Z.to_nat max_retries - 1)%nat = Raise e ->
     retry_with_backoff func max_retries backoff_multiplier initial_backoff
     = {| ended := Raise e; calls := Z.to_nat max_retries;
          sleeps := backoff_schedule initial_backoff backoff_multiplier
                                     (Z.to_nat max_retries - 1) |}).
Proof.
  split.
  - intros Hmax. unfold retry_with_backoff. cbn [retry_loop].
    replace (Z.of_nat 0 <? max_retries) with false
      by (symmetry; apply Z.ltb_ge; lia).
    reflexivity.
  - intros Hmax Hfail e Hlast. unfold retry_with_backoff.
    rewrite (retry_loop_exhausted _ 0%nat initial_backoff
                                  (Z.to_nat max_retries) e);
      [| lia | lia | lia | intros i Hi; apply Hfail; lia | exact Hlast].
    rewrite !Nat.sub_0_r. reflexivity.
Qed.

End Retry.

Lemma retry_returns_first_success_witness :
  retry_with_backoff Scenarios.third_time_lucky 3 2 1
  = {| ended := Return (Some 7%nat); calls := 3; sleeps := [1; 2] |}.
Proof.
  apply (retry_returns_first_success Scenarios.third_time_lucky 3 2 1 2%nat
                                     7%nat).
  - lia.
  - intros [| [| i]] Hi; [eexists; reflexivity | eexists; reflexivity | lia].
  - reflexivity.
Defined.

Lemma retry_gives_up_witness :
  retry_with_backoff Scenarios.never_works 3 2 1
  = {| ended := Raise (py "no"); calls := 3; sleeps := [1; 2] |}.
Proof.
  apply (retry_gives_up Scenarios.never_works 3 2 1).
  - lia.
  - intros i _. eexists. reflexivity.
  - reflexivity.
Defined.

Section Cache.

Context {V : Type}.

Lemma drop_consistent key (self : SimpleCache V) :
  consistent self ->
  is_Some (cache self !! key) ->
  fst (drop key self) = Return tt
  /\ consistent (snd (drop key self))
  /\ cache (snd (drop key self)) = delete key (cache self)
  /\ expiry (snd (drop key self)) = delete key (expiry self).
Proof.
  intros Hc Hin. unfold drop. apply Hc in Hin as [deadline ->]. simpl.
  split; [reflexivity |]. split; [| split; reflexivity].
  intros k. cbn [cache expiry]. destruct (decide (k = key)) as [-> | Hne].
  - rewrite !lookup_delete_eq. split; intros [? [=]].
  - rewrite !lookup_delete_ne by congruence. apply Hc.
Qed.

Lemma get_consistent key default now (self : SimpleCache V) :
  consistent self ->
  (exists v, fst (get key default now self) = Return v)
  /\ consistent (snd (get key default now self)).
Proof.
  intros Hc. unfold get.
  destruct (cache self !! key) as [value |] eqn:Hv; [| simpl; eauto].
  destruct (Hc key) as [Hex _]. destruct Hex as [deadline Hd]; [eauto |].
  rewrite Hd. destruct (deadline >? now); [simpl; eauto |].
  destruct (drop_consistent key self Hc) as (Hr & Hc' & _); [eauto |].
  destruct (drop key self) as [[[] | e] self']; simpl in *;
    [eauto | discriminate Hr].
Qed.

Lemma run_cache_op_consistent (self : SimpleCache V) op :
  consistent self -> consistent (run_cache_op self op).
Proof.
  intros Hc. destruct op as [key default now | key value ttl now | key |];
    cbn [run_cache_op].
  - apply get_consistent, Hc.
  - unfold set. intros k. cbn [cache expiry].
    destruct (decide (k = key)) as [-> | Hne].
    + rewrite !lookup_insert_eq. split; eauto.
    + rewrite !lookup_insert_ne by congruence. apply Hc.
  - unfold delete_key. destruct (cache self !! key) eqn:Hv; [| exact Hc].
    apply drop_consistent; eauto.
  - intros k. unfold clear. cbn [cache expiry]. rewrite !lookup_empty.
    split; intros [? [=]].
Qed.

(** X20. A [SimpleCache] never raises [KeyError]: whatever has been done
    to a cache since it was created, its two dicts have the same keys, so
    that every [get] returns a value and every [delete] returns. *)
Theorem cache_never_raises (default_ttl : Z) (ops : list (CacheOp (V := V))) :
  let self := fold_left run_cache_op ops (new_cache default_ttl) in
  consistent self
  /\ (forall key default now,
         exists v, fst (get key default now self) = Return v)
  /\ (forall key, fst (delete_key key self) = Return tt).
Proof.
  assert (Hc : consistent (fold_left run_cache_op ops
                                     (new_cache (V := V) default_ttl))).
  { assert (Hnew : consistent (new_cache (V := V) default_ttl)).
    { intros k. cbn. rewrite !lookup_empty. split; intros [? [=]]. }
    revert Hnew. generalize (new_cache (V := V) default_ttl).
    induction ops as [| op ops IH]; intros self Hself; [exact Hself |].
    cbn [fold_left]. apply IH, run_cache_op_consistent, Hself. }
  cbv zeta. split; [exact Hc |]. split.
  - intros key default now. apply get_consistent, Hc.
  - intros key. unfold delete_key.
    destruct (cache _ !! key) eqn:Hv; [| reflexivity].
    apply drop_consistent; eauto.
Qed.

(** X21. What is set can be read until its deadline: after
    [set(key, value, ttl)] at the instant [now], a [get] of the key made
    before [now + ttl] (the default TTL when none is given) returns the
    value and changes nothing; a [get] made at that instant or later
    returns the default and removes the key from both dicts, leaving the
    other keys as they were; and the [get] of any other key returns what
    it returned before the [set]. *)
Theorem cache_set_then_get
        (key : list N) (value default : V) (ttl : option Z) (now now' : Z)
        (self : SimpleCache V) :
  let deadline := now + match ttl with
                        | None => default_ttl self
                        | Some ttl => ttl
                        end in
  let self1 := set key value ttl now self in
  (now' < deadline -> get key default now' self1 = (Return value, self1)) /\
  (deadline <= now' ->
   exists self2,
     get key default now' self1 = (Return default, self2)
     /\ cache self2 !! key = None /\ expiry self2 !! key = None
     /\ forall k, k <> key ->
                  cache self2 !! k = cache self !! k
                  /\ expiry self2 !! k = expiry self !! k) /\
  (forall k, k <> key ->
             fst (get k default now' self1) = fst (get k default now' self)).
Proof.
  cbv zeta. unfold get, set. cbn [cache expiry default_ttl].
  rewrite !lookup_insert_eq. split; [| split].
  - intros Hlt.
    replace (_ >? now') with true by (symmetry; rewrite Z.gtb_ltb; apply Z.ltb_lt; lia).
    reflexivity.
  - intros Hge.
    replace (_ >? now') with false by (symmetry; rewrite Z.gtb_ltb; apply Z.ltb_ge; lia).
    unfold drop. cbn [cache expiry default_ttl]. rewrite lookup_insert_eq.
    eexists. split; [reflexivity |]. cbn [cache expiry].
    rewrite !lookup_delete_eq. split; [reflexivity |]. split; [reflexivity |].
    intros k Hne. rewrite !lookup_delete_ne by congruence.
    rewrite !lookup_insert_ne by congruence. auto.
  - intros k Hne. rewrite !lookup_insert_ne by congruence.
    destruct (cache self !! k); [| reflexivity].
    destruct (expiry self !! k) as [d |] eqn:Hd; [| reflexivity].
    destruct (d >? now'); [reflexivity |].
    unfold drop. cbn [cache expiry default_ttl].
    rewrite lookup_insert_ne by congruence. rewrite Hd. reflexivity.
Qed.

End Cache.

Lemma cache_set_then_get_witness :
  fst (get (py "k") 0%nat 299 (set (py "k") 5%nat None 0 (new_cache 300)))
  = Return 5%nat
  /\ fst (get (py "k") 0%nat 300 (set (py "k") 5%nat None 0 (new_cache 300)))
     = Return 0%nat.
Proof.
  destruct (cache_set_then_get (py "k") 5%nat 0%nat None 0 299
                               (new_cache 300)) as (Hfresh & _ & _).
  destruct (cache_set_then_get (py "k") 5%nat 0%nat None 0 300
                               (new_cache 300)) as (_ & Hstale & _).
  split.
  - rewrite Hfresh; [reflexivity | simpl; lia].
  - destruct Hstale as (self2 & Hget & _); [simpl; lia |].
    rewrite Hget. reflexivity.
Defined.

Section Languages.

Variable str_lower : list N -> list N.

Lemma dict_get_default_entry (languages : list (list N * list N))
      code name d :
  keys_once languages -> (code, name) ∈ languages ->
  dict_get_default code d languages = name.
Proof.
  unfold keys_once.
  induction languages as [| [c n] rest IH]; intros Hnd Hin.
  - apply elem_of_nil in Hin. contradiction.
  - cbn [List.map fst] in Hnd. apply NoDup_cons in Hnd as [Hnotin Hnd].
    cbn [dict_get_default]. apply elem_of_cons in Hin as [[= -> ->] | Hin].
    + rewrite bool_decide_eq_true_2 by reflexivity. reflexivity.
    + rewrite bool_decide_eq_false_2.
      * apply IH; assumption.
      * intros ->. apply Hnotin.
        apply (list_elem_of_fmap_2 fst) in Hin. exact Hin.
Qed.

Lemma dict_get_default_missing (languages : list (list N * list N)) code d :
  code ∉ List.map fst languages -> dict_get_default code d languages = d.
Proof.
  induction languages as [| [c n] rest IH]; intros Hnot; [reflexivity |].
  cbn [dict_get_default]. cbn [List.map fst] in Hnot.
  apply not_elem_of_cons in Hnot as [Hne Hnot].
  rewrite bool_decide_eq_false_2 by exact Hne. apply IH, Hnot.
Qed.

Lemma get_language_code_entry languages code name name' :
  names_differ str_lower languages -> (code, name) ∈ languages ->
  str_lower name' = str_lower name ->
  get_language_code str_lower name' languages = code.
Proof.
  unfold names_differ.
  induction languages as [| [c n] rest IH]; intros Hnd Hin Hlow.
  - apply elem_of_nil in Hin. contradiction.
  - cbn [List.map snd] in Hnd. apply NoDup_cons in Hnd as [Hnotin Hnd].
    cbn [get_language_code]. apply elem_of_cons in Hin as [[= -> ->] | Hin].
    + rewrite bool_decide_eq_true_2 by (symmetry; exact Hlow). reflexivity.
    + rewrite bool_decide_eq_false_2.
      * apply IH; assumption.
      * intros Heq. apply Hnotin. rewrite Heq, Hlow.
        apply (list_elem_of_fmap_2 (fun entry => str_lower (snd entry)))
          in Hin.
        exact Hin.
Qed.

(** X22. Codes and names convert back and forth: in a dict of languages
    in which no two names are the same up to case, every code of the dict
    is given back by [get_language_code] from the name
    [get_language_name] gives for it, in whatever case that name is
    written; a code that is not in the dict is its own name. *)
Theorem language_code_round_trip
        (languages : list (list N * list N)) (code name : list N) :
  keys_once languages ->
  names_differ str_lower languages ->
  ((code, name) ∈ languages ->
   get_language_name code languages = name
   /\ get_language_code str_lower (get_language_name code languages) languages
      = code
   /\ forall name', str_lower name' = str_lower name ->
                    get_language_code str_lower name' languages = code) /\
  (code ∉ List.map fst languages -> get_language_name code languages = code).
Proof.
  intros Hkeys Hnames. split.
  - intros Hin.
    pose proof (dict_get_default_entry _ _ _ code Hkeys Hin) as Hname.
    fold (get_language_name code languages) in Hname.
    split; [exact Hname |]. rewrite Hname. split.
    + apply (get_language_code_entry _ _ name); auto.
    + intros name' Hlow. apply (get_language_code_entry _ _ name); auto.
  - apply dict_get_default_missing.
Qed.

End Languages.

Lemma language_code_round_trip_witness :
  get_language_code ascii_lower (py "KOREAN") LANGUAGES = ko.
Proof.
  destruct (language_code_round_trip ascii_lower LANGUAGES ko (py "Korean"))
    as [Hknown _].
  - unfold keys_once. apply (bool_decide_unpack _). vm_compute. exact I.
  - unfold names_differ. apply (bool_decide_unpack _). vm_compute. exact I.
  - destruct Hknown as (_ & _ & Hcase).
    + apply (bool_decide_unpack _). vm_compute. exact I.
    + apply Hcase. vm_compute. reflexivity.
Defined.

End UtilsProps.

Module MotionProps.

Import Motion.
Local Open Scope Z_scope.

(** X23. The motion sensor reports at most once per cooldown: whatever
    the instants at which the sensor signals motion, the instants at which
    the motion is reported are among them, in their order, the first is at
    least [motion_cooldown] after the last report on record, and any two
    successive ones are at least [motion_cooldown] apart. *)
Theorem reports_respect_cooldown (times : list Z) (self : MotionSensor) :
  spaced (motion_cooldown self) (reported times self)
  /\ (forall t, head (reported times self) = Some t ->
                t - last_motion_time self >= motion_cooldown self)
  /\ sublist (reported times self) times.
Proof.
  revert self. induction times as [| t times IH]; intros self.
  - simpl. split; [exact I |]. split; [discriminate | constructor].
  - cbn [reported]. unfold _on_motion.
    destruct (t - last_motion_time self <? motion_cooldown self) eqn:Hcool.
    + destruct (IH self) as (Hsp & Hhd & Hsub).
      split; [exact Hsp |]. split; [exact Hhd |].
      apply sublist_cons, Hsub.
    + apply Z.ltb_ge in Hcool.
      destruct (IH {| last_motion_time := t;
                      motion_cooldown := motion_cooldown self |})
        as (Hsp & Hhd & Hsub).
      cbn [motion_cooldown last_motion_time] in Hsp, Hhd.
      split; [| split].
      * cbn [spaced]. split; [| exact Hsp].
        destruct (reported times _) as [| t' rest] eqn:Hrep; [exact I |].
        apply Hhd. reflexivity.
      * intros t0 [= <-]. lia.
      * apply sublist_skip, Hsub.
Qed.

End MotionProps.


(** ** The web application *)

Module AppProps.

Import App.

Section WithEnv.

Variable str_lower : list N -> list N.
Variable env : Translation.Env.
Variable language_detector : Detector.LanguageDetector.
Variable translator : Translation.Translator.

(** X24. What [/api/translate] does with a request. When what
    [request.json] gives is not an object, or the text entry is a value
    that is true without being a string, the view raises, before any
    engine is called. When the text entry is absent or false (the empty
    string, null, 0, an empty array), the reply has status 400, and only
    then. When the text is a non-empty string and the language entries
    are strings or absent (['auto'] and ['en'] by default), the view
    answers without raising, with a body that carries the text, the
    target language and the mode as given, the source language as given
    or, for ['auto'], the supported code the detector of the application
    finds, and as translation what [Translator.translate] returns for that
    source, the engines being called as that call calls them. A text of
    whitespace only is not refused: its translation is the empty
    string. *)
Theorem translate_route_answers (body : Body) (is_online : bool) :
  let reply := App.translate str_lower env language_detector translator
                             body is_online in
  (body = NotObject -> reply = Some ([], Raise (py "AttributeError"))) /\
  (forall text sl tl,
      body = Object text sl tl ->
      (text = Other true -> reply = Some ([], Raise (py "AttributeError"))) /\
      (text = Absent \/ text = Str [] \/ text = Other false <->
       reply = Some ([], Return (BadRequest (py "No text provided")))) /\
      (forall s source target,
          text = Str s -> s <> [] ->
          get sl auto = Str source -> get tl en = Str target ->
          exists m answer,
            reply = Some m
            /\ Translation.result m = Return (Ok answer)
            /\ source_text answer = s /\ target_lang answer = target
            /\ online_mode answer = is_online
            /\ (source <> auto -> source_lang answer = source)
            /\ (source = auto ->
                source_lang answer
                = Detector.detect str_lower language_detector s
                /\ source_lang answer ∈ Detector.supported_languages)
            /\ Translation.result
                 (Translation.translate str_lower env translator s
                                        (source_lang answer) target is_online)
               = Return (translated_text answer)
            /\ Translation.events m
               = Translation.events
                   (Translation.translate str_lower env translator s
                                          (source_lang answer) target
                                          is_online)
            /\ (RouterAux.whitespace_only s -> translated_text answer = []))).
Proof.
  cbv zeta. split; [intros ->; reflexivity |].
  intros text sl tl ->. unfold App.translate.
  split; [intros ->; reflexivity |]. split.
  - split.
    + intros [-> | [-> | ->]]; reflexivity.
    + destruct text as [| [| c s] | []]; cbn [get truth_value truthy negb];
        try (intros _; tauto); try discriminate.
      destruct (get sl auto) as [| source |], (get tl en) as [| target |];
        try discriminate.
      unfold Translation.bind.
      destruct (Translation.translate _ _ _ _ _ _ _) as [evs [t | e]];
        discriminate.
  - intros s source target -> Hs Hsl Htl. rewrite Hsl, Htl.
    destruct s as [| c s]; [contradiction |].
    cbn [get truth_value truthy negb].
    set (src := if bool_decide (source = auto) then _ else source).
    destruct (TranslationSpec.translate_returns
                str_lower env translator (c :: s) src target is_online)
      as [t Ht].
    destruct (Translation.translate str_lower env translator (c :: s) src
                                    target is_online) as [evs o] eqn:Htr.
    cbn [Translation.result snd] in Ht. subst o.
    eexists. eexists. split; [reflexivity |].
    cbn [Translation.bind Translation.ret Translation.result
         Translation.events fst snd].
    split; [reflexivity |].
    cbn [source_text target_lang online_mode source_lang translated_text].
    rewrite Htr. cbn [Translation.result Translation.events fst snd].
    split; [reflexivity |]. split; [reflexivity |]. split; [reflexivity |].
    split; [intros Hne; unfold src; rewrite bool_decide_eq_false_2 by exact Hne;
            reflexivity |].
    split; [intros Hauto; unfold src;
            rewrite bool_decide_eq_true_2 by exact Hauto;
            split; [reflexivity | apply TextProps.detect_supported] |].
    split; [reflexivity |]. split; [apply app_nil_r |].
    intros Hws. apply TextProps.blank_whitespace_only in Hws.
    unfold Translation.translate in Htr. rewrite Hws in Htr.
    injection Htr as _ <-. reflexivity.
Qed.

End WithEnv.

(** X25. The language names [handle_change_language] announces are those
    of [config.LANGUAGES]: for every code, known or not, the name, or
    else the code itself, that [get_language_name] gives. *)
Theorem announced_name_is_configured (language : list N) :
  App.language_name language
  = Utils.get_language_name language Utils.LANGUAGES.
Proof.
  unfold App.language_name, Utils.get_language_name, Utils.LANGUAGES.
  cbn [Utils.dict_get_default].
  repeat (destruct (bool_decide _); [reflexivity |]). reflexivity.
Qed.

Lemma translate_route_answers_witness :
  App.translate ascii_lower Scenarios.offline_env Scenarios.heuristic_detector
                Scenarios.only_en_ko
                (Object (Other true) Absent (Str ko)) false
  = Some ([], Raise (py "AttributeError"))
  /\ exists m answer,
      App.translate ascii_lower Scenarios.offline_env
                    Scenarios.heuristic_detector Scenarios.only_en_ko
                    (Object (Str (py "hello")) Absent (Str ko)) false
      = Some m
      /\ Translation.result m = Return (Ok answer)
      /\ source_lang answer ∈ Detector.supported_languages.
Proof.
  split.
  - destruct (translate_route_answers
                ascii_lower Scenarios.offline_env Scenarios.heuristic_detector
                Scenarios.only_en_ko (Object (Other true) Absent (Str ko))
                false) as [_ Hobject].
    destruct (Hobject (Other true) Absent (Str ko) eq_refl) as [Hraise _].
    apply Hraise. reflexivity.
  - destruct (translate_route_answers
                ascii_lower Scenarios.offline_env Scenarios.heuristic_detector
                Scenarios.only_en_ko (Object (Str (py "hello")) Absent (Str ko))
                false) as [_ Hobject].
    destruct (Hobject (Str (py "hello")) Absent (Str ko) eq_refl)
      as (_ & _ & Hstring).
    destruct (Hstring (py "hello") auto ko)
      as (m & answer & Hreply & Hresult & _ & _ & _ & _ & Hauto & _);
      [reflexivity | discriminate | reflexivity | reflexivity |].
    exists m, answer. split; [exact Hreply |]. split; [exact Hresult |].
    apply Hauto. reflexivity.
Defined.

End AppProps.
